(** * ESBench core: a shallow embedding of the benchmarking harness

    The development follows the TypeScript sources:
    - the time profiler ([createInvoker], [TimeWorker.onCase],
      [TimeWorker.getIterations]);
    - the suite model ([Scene.add], [BenchCase.invoke]);
    - the profiling driver ([ProfilingContext.run], [runScene], [runHooks]);
    - the runner entry ([runSuite], [RunSuiteError.fromScene],
      [convertBaseline], [resolveParams], [DefaultEventLogger]);
    - the result summary ([Summary.sort], [getIndex], [find], [findAll],
      [group]);
    - the host configuration ([normalizeConfig]).

    JavaScript numbers that hold times are modelled by exact rationals [Q];
    counters and indices by [Z] or [nat]; where the code can produce [NaN]
    or an infinity, by [Number].  The one place where the rounding of double
    arithmetic decides an integer, the argument of [Math.ceil] in
    [getIterations], goes through a rounding function that is a parameter.
    Code that may throw returns a [Res]; code with side effects threads a
    world explicitly. *)

From Stdlib Require Import ZArith QArith Qround Lia Ascii String Sorted.
From stdpp Require Import base option list strings pretty gmap.

Set Warnings "-clear-no-such-hyp".
Local Open Scope string_scope.
Local Open Scope list_scope.
Local Open Scope Z_scope.

(** ** Outcomes and the state-and-exception monad *)

(** A JavaScript error value.  [RunSuiteError] keeps the original error as
    [cause], the raw parameters of the scene and their JSON text. *)
Inductive Value : Type :=
| VNum (z : Z)
| VStr (s : string)
| VBool (b : bool)
| VObj (tag : nat).

Inductive JsError : Type :=
| Error (message : string)
| RunSuiteError (message : string) (cause : JsError)
    (params : option (list (string * Value))) (paramStr : option string).

Inductive Res (A : Type) : Type :=
| Ok (a : A)
| Throw (e : JsError).
Arguments Ok {A} a.
Arguments Throw {A} e.

Definition M (W A : Type) : Type := W -> Res A * W.

Definition ret {W A} (a : A) : M W A := fun w => (Ok a, w).

Definition throw {W A} (e : JsError) : M W A := fun w => (Throw e, w).

Definition bind {W A B} (m : M W A) (k : A -> M W B) : M W B :=
  fun w => match m w with
           | (Ok a, w') => k a w'
           | (Throw e, w') => (Throw e, w')
           end.

(** [try { body } finally { fin }]: [fin] always runs; when it throws, its
    error replaces the outcome of [body]. *)
Definition try_finally {W A} (body : M W A) (fin : M W unit) : M W A :=
  fun w => match body w with
           | (r, w') =>
               match fin w' with
               | (Ok _, w'') => (r, w'')
               | (Throw e, w'') => (Throw e, w'')
               end
           end.

Declare Scope js_scope.
Delimit Scope js_scope with js.
Notation "'let*' x ':=' m 'in' k" := (bind m (fun x => k))
  (at level 10, x name, m at level 200, k at level 200) : js_scope.
Notation "m ;;; k" := (bind m (fun _ => k))
  (at level 100, right associativity) : js_scope.
Local Open Scope js_scope.

(** [for (const f of fns) await f()]: the elements run in order and the
    first throw stops the loop. *)
Fixpoint forEach {W A} (body : A -> M W unit) (l : list A) : M W unit :=
  match l with
  | [] => ret tt
  | x :: l' => body x ;;; forEach body l'
  end.

(** Positions paired with elements, as [Array.prototype.entries]. *)
Definition indexed {A} (l : list A) : list (nat * A) := zip (seq 0 (length l)) l.

Lemma bind_inv_ok {W A B} (m : M W A) (k : A -> M W B) w b w2 :
  bind m k w = (Ok b, w2) ->
  exists a w1, m w = (Ok a, w1) /\ k a w1 = (Ok b, w2).
Proof.
  unfold bind. destruct (m w) as [[a|e] w1]; intros H.
  - eauto.
  - discriminate.
Qed.

Lemma forEach_app {W A} (body : A -> M W unit) (l1 l2 : list A) w :
  forEach body (l1 ++ l2) w =
  match forEach body l1 w with
  | (Ok _, w') => forEach body l2 w'
  | (Throw e, w') => (Throw e, w')
  end.
Proof.
  revert w. induction l1 as [|x l1 IH]; intros w; simpl.
  - reflexivity.
  - unfold bind. destruct (body x w) as [[[]|e] w1]; [apply IH | reflexivity].
Qed.

(** ** JavaScript numbers

    A number is a finite value, [NaN] or an infinity.  The finite values are
    rationals; the zero of the model is the positive zero, the only zero
    the embedded code divides by (a variable initialised with [0]). *)
Inductive Number : Type :=
| Num (q : Q)
| NaN
| Infinity (negative : bool).

Definition Qnegative (q : Q) : bool := negb (Qle_bool 0 q).

(** [x * y] *)
Definition nmul (x y : Number) : Number :=
  match x, y with
  | NaN, _ | _, NaN => NaN
  | Num a, Num b => Num (a * b)
  | Num a, Infinity n | Infinity n, Num a =>
      if Qeq_bool a 0 then NaN else Infinity (xorb n (Qnegative a))
  | Infinity n, Infinity m => Infinity (xorb n m)
  end.

(** [x / y] *)
Definition ndiv (x y : Number) : Number :=
  match x, y with
  | NaN, _ | _, NaN => NaN
  | Num a, Num b =>
      if Qeq_bool b 0
      then (if Qeq_bool a 0 then NaN else Infinity (Qnegative a))
      else Num (a / b)
  | Num _, Infinity _ => Num 0
  | Infinity n, Num b => Infinity (xorb n (Qnegative b))
  | Infinity _, Infinity _ => NaN
  end.

(** [x - y] *)
Definition nsub (x y : Number) : Number :=
  match x, y with
  | NaN, _ | _, NaN => NaN
  | Num a, Num b => Num (a - b)
  | Num _, Infinity m => Infinity (negb m)
  | Infinity n, Num _ => Infinity n
  | Infinity n, Infinity m => if Bool.eqb n m then NaN else Infinity n
  end.

(** [x <= y]: false as soon as an operand is [NaN]. *)
Definition nle (x y : Number) : bool :=
  match x, y with
  | NaN, _ | _, NaN => false
  | Num a, Num b => Qle_bool a b
  | Infinity n, Num _ => n
  | Num _, Infinity m => negb m
  | Infinity n, Infinity m => n || negb m
  end.

(** [Math.ceil(x)] *)
Definition Math_ceil (x : Number) : Number :=
  match x with
  | Num q => Num (inject_Z (Qceiling q))
  | _ => x
  end.

(** The same number: finite values are compared as rationals. *)
Definition same_number (x y : Number) : Prop :=
  match x, y with
  | Num a, Num b => (a == b)%Q
  | NaN, NaN => True
  | Infinity n, Infinity m => n = m
  | _, _ => False
  end.

(** The value of a metric: a number, an array of numbers or a string; an
    absent metric is an absent key. *)
Inductive MetricValue : Type :=
| MNum (x : Number)
| MNums (xs : list Number)
| MStr (s : string).

(** ** The time profiler

    Source: the [TimeWorker] file ([createInvoker], [onCase],
    [getIterations]).  It works on the case record of the client suite
    model: [fn], [isAsync], [setupHooks], [cleanHooks]. *)

Module Time.

(** The lines the worker sends to its [logger]; [timeDetail(time, count)]
    is kept as its two arguments.  The count of a pilot line is one of
    1, 2, 4, ...; the count of the other lines is the one [onCase] settled
    on, any number. *)
Inductive LogLine : Type :=
| LBenchmark (name : string)
| LPilot (time : Q) (count : Z)
| LWarmup (time : Q) (count : Number)
| LBlank
| LActual (time : Q) (count : Number).

(** What happens during a measurement, in order: calls of the iteration
    hooks (by position in their array), calls of the workload, readings of
    [performance.now()], and lines given to the logger. *)
Inductive Event : Type :=
| EvBefore (i : nat)
| EvAfter (i : nat)
| EvWorkload
| EvNow (t : Q)
| EvLog (l : LogLine).

Inductive Iterations : Type :=
| IterCount (n : Z)
| IterDuration (target : string).

Record SuiteConfig : Type := {
  warmup : option Z;
  samples : option Z;
  iterations : option Iterations;
}.

Inductive Variant : Type := NoSetup | SyncWithSetup | AsyncWithSetup.

Definition Qltb (x y : Q) : bool := negb (Qle_bool y x).

(** How often the loop [while (count-- > 0)] of a measure function turns
    when [count] is any number: a finite count gives its ceiling (the count
    itself when it is a positive integer, no turn when it is zero or
    negative); [NaN] and [-Infinity] give no turn, the test being false at
    once; with [+Infinity] the loop does not end. *)
Definition trips (count : Number) : option Z :=
  match count with
  | Num q => Some (Qceiling q)
  | NaN => Some 0
  | Infinity true => Some 0
  | Infinity false => None
  end.

(** The per-call time as the specification words it:
    [elapsed / (count * unrollFactor) - overheadPerCall]. *)
Definition spec_perCall (elapsed count unrollFactor overheadPerCall : Number) : Number :=
  nsub (ndiv elapsed (nmul count unrollFactor)) overheadPerCall.

Section Worker.
Context {U : Type}.

(** [performance.now()] reads the clock of the user world; user code
    (hooks, workloads) moves it. *)
Variable clock : U -> Q.

(** [durationFmt.parse(target, "ms")], from the utilities package. *)
Variable parseDuration : string -> Q.

(** The rounding of an exact quotient to the nearest double.  The format of
    the doubles is not modelled; what the proofs need of the rounding is
    stated where it is needed ([rounds_to_nearest]). *)
Variable double : Q -> Q.

Definition nround (x : Number) : Number :=
  match x with
  | Num q => Num (double q)
  | _ => x
  end.

Record World : Type := { user : U; events : list Event }.

Definition HookFn : Type := U -> Res unit * U.

Record BenchCase : Type := {
  name : string;
  fn : HookFn;
  isAsync : bool;
  setupHooks : list HookFn;
  cleanHooks : list HookFn;
}.

Definition IterateFn : Type := Z -> M World Q.

Definition emit (e : Event) : M World unit :=
  fun w => (Ok tt, {| user := user w; events := events w ++ [e] |}).

Definition call (f : HookFn) : M World unit :=
  fun w => match f (user w) with
           | (r, u) => (r, {| user := u; events := events w |})
           end.

Definition performance_now : M World Q :=
  fun w => let t := clock (user w) in
           (Ok t, {| user := user w; events := events w ++ [EvNow t] |}).

Definition logger (l : LogLine) : M World unit := emit (EvLog l).

(** [runHooks(hooks)] of the client utilities: each hook in array order. *)
Definition runHooks (kind : nat -> Event) (hooks : list HookFn) : M World unit :=
  forEach (fun ih => emit (kind (fst ih)) ;;; call (snd ih)) (indexed hooks).

(** [fn()] and [await fn()]: the workload is run to completion either way
    in this model; [awaited] records which form the source uses. *)
Definition callFn (awaited : bool) (f : HookFn) : M World unit :=
  emit EvWorkload ;;; call f.

(** [while (count-- > 0) body]: for an integer [count] the test succeeds
    exactly [Z.to_nat count] times, which is the fuel given below. *)
Fixpoint while_countdown (fuel : nat) (count : Z) (body : M World unit) : M World unit :=
  match fuel with
  | O => ret tt
  | S fuel' =>
      if 0 <? count then body ;;; while_countdown fuel' (count - 1) body
      else ret tt
  end.

Fixpoint withSetup_loop (awaited : bool) (c : BenchCase)
    (fuel : nat) (count : Z) (timeUsage : Q) : M World Q :=
  match fuel with
  | O => ret timeUsage
  | S fuel' =>
      if 0 <? count then
        runHooks EvBefore (setupHooks c) ;;;
        let* t0 := performance_now in
        callFn awaited (fn c) ;;;
        let* t1 := performance_now in
        runHooks EvAfter (cleanHooks c) ;;;
        withSetup_loop awaited c fuel' (count - 1) ((timeUsage - t0) + t1)%Q
      else ret timeUsage
  end.

Definition noSetup (c : BenchCase) : IterateFn := fun count =>
  let* start := performance_now in
  (if isAsync c
   then while_countdown (Z.to_nat count) count (callFn true (fn c))
   else while_countdown (Z.to_nat count) count (callFn false (fn c))) ;;;
  let* stop := performance_now in
  ret (stop - start)%Q.

Definition syncWithSetup (c : BenchCase) : IterateFn := fun count =>
  withSetup_loop false c (Z.to_nat count) count 0%Q.

Definition asyncWithSetup (c : BenchCase) : IterateFn := fun count =>
  withSetup_loop true c (Z.to_nat count) count 0%Q.

(** [const setup = setupHooks.length && cleanHooks.length;
     return setup ? isAsync ? asyncWithSetup : syncWithSetup : noSetup;] *)
Definition selectInvoker (c : BenchCase) : Variant :=
  let setup := negb (length (setupHooks c) =? 0)%nat
               && negb (length (cleanHooks c) =? 0)%nat in
  if setup then (if isAsync c then AsyncWithSetup else SyncWithSetup) else NoSetup.

Definition invoker (c : BenchCase) (v : Variant) : IterateFn :=
  match v with
  | NoSetup => noSetup c
  | SyncWithSetup => syncWithSetup c
  | AsyncWithSetup => asyncWithSetup c
  end.

Definition createInvoker (c : BenchCase) : IterateFn := invoker c (selectInvoker c).

(** The pilot loop of [getIterations]:
    [while (time < targetMS) { time = await fn(count); log; count *= 2; }].
    [None] means the fuel ran out before the loop ended. *)
Fixpoint pilot_loop (fuel : nat) (iterate : IterateFn) (targetMS : Q)
    (count : Z) (time : Q) (w : World) : option (Res (Z * Q) * World) :=
  if Qltb time targetMS then
    match fuel with
    | O => None
    | S fuel' =>
        match iterate count w with
        | (Throw e, w1) => Some (Throw e, w1)
        | (Ok t, w1) =>
            match logger (LPilot t count) w1 with
            | (Throw e, w2) => Some (Throw e, w2)
            | (Ok _, w2) => pilot_loop fuel' iterate targetMS (count * 2) t w2
            end
        end
    end
  else Some (Ok (count, time), w).

(** [return Math.ceil(count / 2 * targetMS / time)].  [count] is a power of
    two, so [count / 2] and its product with [targetMS] are exact in binary
    floating point; the quotient by [time] is rounded to a double, and that
    double is what [Math.ceil] sees.  When the loop made no measurement,
    [time] is still [0]: the quotient is [NaN] for a target of 0 ms and
    [-Infinity] for a negative one. *)
Definition getIterations (fuel : nat) (iterate : IterateFn) (target : string)
    (w : World) : option (Res Number * World) :=
  let targetMS := parseDuration target in
  match pilot_loop fuel iterate targetMS 1 0%Q w with
  | None => None
  | Some (Throw e, w1) => Some (Throw e, w1)
  | Some (Ok (count, time), w1) =>
      Some ((logger LBlank ;;;
             ret (Math_ceil (nround
                    (ndiv (nmul (ndiv (Num (inject_Z count)) (Num 2)) (Num targetMS))
                          (Num time))))) w1)
  end.

(** The sampling loop of [onCase]; [values] is the array behind
    [metrics.time], [n] the number of turns the measure function makes for
    [count]. *)
Fixpoint sampling (iterate : IterateFn) (count : Number) (n : Z) (idx : list Z)
    (values : list Number) : M World (list Number) :=
  match idx with
  | [] => ret values
  | _ :: idx' =>
      let* time := iterate n in
      let values' := values ++ [ndiv (Num time) count] in
      logger (LActual time count) ;;;
      sampling iterate count n idx' values'
  end.

(** [onCase] once [count] is known.  [samples <= 0] and [count <= 0] are
    tested in this order; a [NaN] count passes the second test.  [None]: the
    count is [+Infinity] and the first measurement does not end. *)
Definition measureCase (config : SuiteConfig) (iterate : IterateFn)
    (metrics : gmap string MetricValue) (count : Number) (w : World)
    : option (Res (gmap string MetricValue) * World) :=
  let warmup := default 5 (warmup config) in
  let samples := default 10 (samples config) in
  if samples <=? 0
  then Some (throw (Error "The number of samples must be at least 1.") w) else
  if nle count (Num 0)
  then Some (throw (Error "The number of iterations cannot be 0 or negative.") w) else
  match trips count with
  | None => None
  | Some n =>
      Some ((forEach (fun _ : Z =>
                        let* time := iterate n in
                        logger (LWarmup time count)) (seqZ 0 warmup) ;;;
             logger LBlank ;;;
             let* values := sampling iterate count n (seqZ 0 samples) [] in
             ret (<["time" := MNums values]> metrics)) w)
  end.

Definition onCase (fuel : nat) (config : SuiteConfig) (c : BenchCase)
    (metrics : gmap string MetricValue) (w : World)
    : option (Res (gmap string MetricValue) * World) :=
  let iterate := createInvoker c in
  match logger (LBenchmark (name c)) w with
  | (Throw e, w1) => Some (Throw e, w1)
  | (Ok _, w1) =>
      match default (IterDuration "1s") (iterations config) with
      | IterCount n => measureCase config iterate metrics (Num (inject_Z n)) w1
      | IterDuration target =>
          match getIterations fuel iterate target w1 with
          | None => None
          | Some (Throw e, w2) => Some (Throw e, w2)
          | Some (Ok count, w2) => measureCase config iterate metrics count w2
          end
      end
  end.

(** The world after a line was given to the logger. *)
Definition logged (l : LogLine) (w : World) : World :=
  {| user := user w; events := events w ++ [EvLog l] |}.

(** A run of measurements: each is a call of the measure function at the
    world the previous one left, with the count and the elapsed time listed,
    followed by its line in the log. *)
Inductive measured (iterate : IterateFn) (line : Q -> Z -> LogLine)
    : list (Z * Q) -> World -> World -> Prop :=
| measured_nil w : measured iterate line [] w w
| measured_cons count time ms w w1 w' :
    iterate count w = (Ok time, w1) ->
    measured iterate line ms (logged (line time count) w1) w' ->
    measured iterate line ((count, time) :: ms) w w'.

Definition is_log (e : Event) : bool :=
  match e with EvLog _ => true | _ => false end.

(** [m] only appends events, and each appended event satisfies [P]. *)
Definition appends (P : Event -> Prop) {A} (m : M World A) : Prop :=
  forall w r w', m w = (r, w') ->
    exists evs, events w' = events w ++ evs /\ Forall P evs.

Lemma appends_ret P {A} (a : A) : appends P (ret a).
Proof.
  intros w r w' H. injection H as <- <-. exists []. split; [now rewrite app_nil_r | constructor].
Qed.

Lemma appends_throw P {A} e : appends P (@throw World A e).
Proof.
  intros w r w' H. injection H as <- <-. exists []. split; [now rewrite app_nil_r | constructor].
Qed.

Lemma appends_bind P {A B} (m : M World A) (k : A -> M World B) :
  appends P m -> (forall a, appends P (k a)) -> appends P (bind m k).
Proof.
  intros Hm Hk w r w' H. unfold bind in H.
  destruct (m w) as [[a|e] w1] eqn:E.
  - destruct (Hm _ _ _ E) as (evs1 & E1 & F1).
    destruct (Hk a _ _ _ H) as (evs2 & E2 & F2).
    exists (evs1 ++ evs2). split.
    + now rewrite E2, E1, app_assoc.
    + now apply Forall_app.
  - injection H as <- <-. exact (Hm _ _ _ E).
Qed.

Lemma appends_emit (P : Event -> Prop) e : P e -> appends P (emit e).
Proof.
  intros He w r w' H. injection H as <- <-. exists [e]. split; [reflexivity | now constructor].
Qed.

Lemma appends_call P f : appends P (call f).
Proof.
  intros w r w' H. unfold call in H. destruct (f (user w)) as [r0 u].
  injection H as <- <-. exists []. split; [simpl; now rewrite app_nil_r | constructor].
Qed.

Lemma appends_now (P : Event -> Prop) : (forall t, P (EvNow t)) -> appends P performance_now.
Proof.
  intros HP w r w' H. injection H as <- <-. exists [EvNow (clock (user w))].
  split; [reflexivity | constructor; [apply HP | constructor]].
Qed.

Lemma appends_forEach P {A} (body : A -> M World unit) l :
  (forall x, appends P (body x)) -> appends P (forEach body l).
Proof.
  intros Hb. induction l as [|x l IH]; simpl.
  - apply appends_ret.
  - apply appends_bind; [apply Hb | intros _; exact IH].
Qed.

Definition not_log (e : Event) : Prop := is_log e = false.

Lemma appends_runHooks kind hooks :
  (forall i, not_log (kind i)) -> appends not_log (runHooks kind hooks).
Proof.
  intros Hk. apply appends_forEach. intros [i h]. simpl.
  apply appends_bind; [apply appends_emit, Hk | intros _; apply appends_call].
Qed.

Lemma appends_callFn b f : appends not_log (callFn b f).
Proof.
  apply appends_bind; [now apply appends_emit | intros _; apply appends_call].
Qed.

Lemma appends_while fuel count body :
  appends not_log body -> appends not_log (while_countdown fuel count body).
Proof.
  intros Hb. revert count. induction fuel as [|fuel IH]; intros count; simpl.
  - apply appends_ret.
  - destruct (0 <? count); [| apply appends_ret].
    apply appends_bind; [exact Hb | intros _; apply IH].
Qed.

Lemma appends_withSetup b c fuel count t :
  appends not_log (withSetup_loop b c fuel count t).
Proof.
  revert count t. induction fuel as [|fuel IH]; intros count t; simpl.
  - apply appends_ret.
  - destruct (0 <? count); [| apply appends_ret].
    apply appends_bind; [now apply appends_runHooks | intros _].
    apply appends_bind; [now apply appends_now | intros t0].
    apply appends_bind; [apply appends_callFn | intros _].
    apply appends_bind; [now apply appends_now | intros t1].
    apply appends_bind; [now apply appends_runHooks | intros _]. apply IH.
Qed.

(** A measure function built by [createInvoker] never writes to the log. *)
Lemma appends_createInvoker c count : appends not_log (createInvoker c count).
Proof.
  unfold createInvoker, invoker.
  destruct (selectInvoker c); [| apply appends_withSetup ..].
  unfold noSetup.
  apply appends_bind; [now apply appends_now | intros t0].
  apply appends_bind.
  - destruct (isAsync c); apply appends_while, appends_callFn.
  - intros _. apply appends_bind; [now apply appends_now | intros t1; apply appends_ret].
Qed.

(** *** The samples of [onCase] *)

Lemma sampling_measured iterate count n idx values w vs w' :
  sampling iterate count n idx values w = (Ok vs, w') ->
  exists ts, length ts = length idx /\
    measured iterate (fun t _ => LActual t count) (map (pair n) ts) w w' /\
    vs = values ++ map (fun t => ndiv (Num t) count) ts.
Proof.
  revert values w. induction idx as [|i idx IH]; intros values w H; simpl in H.
  - injection H as <- <-. exists []. simpl. rewrite app_nil_r.
    repeat split. constructor.
  - apply bind_inv_ok in H as (t & w1 & H1 & H).
    apply bind_inv_ok in H as ([] & w2 & H2 & H). injection H2 as <-.
    apply IH in H as (ts & Hlen & Hm & ->).
    exists (t :: ts). simpl. repeat split.
    + now rewrite Hlen.
    + econstructor; eauto.
    + now rewrite <- app_assoc.
Qed.

Lemma warmup_measured iterate count n idx w w' :
  forEach (fun _ : Z => let* time := iterate n in logger (LWarmup time count)) idx w
    = (Ok tt, w') ->
  exists ts, length ts = length idx /\
    measured iterate (fun t _ => LWarmup t count) (map (pair n) ts) w w'.
Proof.
  revert w. induction idx as [|i idx IH]; intros w H; simpl in H.
  - injection H as <-. exists []. split; [reflexivity | constructor].
  - apply bind_inv_ok in H as ([] & w2 & H1 & H).
    apply bind_inv_ok in H1 as (t & w1 & H1 & H2). injection H2 as <-.
    apply IH in H as (ts & Hlen & Hm).
    exists (t :: ts). simpl. split; [now rewrite Hlen | econstructor; eauto].
Qed.

(** What a call of [measureCase] that returns has done. *)
Lemma measureCase_ok config iterate metrics count w m' w' :
  measureCase config iterate metrics count w = Some (Ok m', w') ->
  0 < default 10 (samples config) /\
  nle count (Num 0) = false /\
  exists n warm w2 ts,
    trips count = Some n /\
    measured iterate (fun t _ => LWarmup t count) (map (pair n) warm) w w2 /\
    Z.of_nat (length warm) = Z.max 0 (default 5 (warmup config)) /\
    measured iterate (fun t _ => LActual t count) (map (pair n) ts) (logged LBlank w2) w' /\
    Z.of_nat (length ts) = default 10 (samples config) /\
    m' = <["time" := MNums (map (fun t => ndiv (Num t) count) ts)]> metrics.
Proof.
  intros H. unfold measureCase in H.
  destruct (default 10 (samples config) <=? 0) eqn:Hs; [discriminate|].
  destruct (nle count (Num 0)) eqn:Hc; [discriminate|].
  destruct (trips count) as [n|] eqn:Hn; [|discriminate].
  apply Z.leb_gt in Hs. injection H as H.
  split; [exact Hs|]. split; [reflexivity|].
  apply bind_inv_ok in H as ([] & w1 & Hw & H).
  apply bind_inv_ok in H as ([] & w2 & Hb & H). injection Hb as <-.
  apply bind_inv_ok in H as (vs & w3 & Hsm & H). injection H as <- <-.
  apply warmup_measured in Hw as (warm & Hlw & Hmw).
  apply sampling_measured in Hsm as (ts & Hls & Hms & ->).
  exists n, warm, w1, ts. repeat split; try assumption.
  - rewrite Hlw, length_seqZ. lia.
  - rewrite Hls, length_seqZ. lia.
Qed.

(** Dividing by the count is the formula of the specification with an
    unroll factor of 1 and no overhead, whatever the count. *)
Lemma perCall_as_specified t count :
  same_number (ndiv (Num t) count) (spec_perCall (Num t) count (Num 1) (Num 0)).
Proof.
  unfold spec_perCall. destruct count as [c| |n]; simpl.
  - assert (Hz : Qeq_bool (c * 1) 0 = Qeq_bool c 0).
    { destruct (Qeq_bool c 0) eqn:E.
      - apply Qeq_bool_iff in E. apply Qeq_bool_iff. rewrite E. reflexivity.
      - destruct (Qeq_bool (c * 1) 0) eqn:E'; [|reflexivity].
        apply Qeq_bool_iff in E'.
        assert (Hc : (c == 0)%Q) by (rewrite <- E'; ring).
        apply Qeq_bool_iff in Hc. congruence. }
    rewrite Hz. destruct (Qeq_bool c 0) eqn:E.
    + destruct (Qeq_bool t 0); simpl; [exact I | reflexivity].
    + simpl. apply Qeq_bool_neq in E. field. exact E.
  - exact I.
  - simpl. reflexivity.
Qed.

(** C1: a call of [onCase] that returns has settled on a count (the one
    configured, or the one [getIterations] returned), has warmed up, and has
    then called the measure function [samples] times, each call at the world
    the previous one left and followed by its line [Actual].  The [time]
    metric is the list, in sampling order, of the per-call times of these
    calls: the elapsed time the call returned divided by the count.  This
    worker has no unroll factor and estimates no overhead -- a measurement of
    [count] iterations makes [count] calls of the workload -- so the value is
    the formula of the specification with [unrollFactor] 1 and
    [overheadPerCall] 0.  A count that is [NaN] (calibration against a target
    of 0 ms) gives samples that are [NaN]. *)
Theorem onCase_time_metric fuel config c metrics w m' w' :
  onCase fuel config c metrics w = Some (Ok m', w') ->
  exists count n w1 warm w2 ts,
    match default (IterDuration "1s") (iterations config) with
    | IterCount k =>
        count = Num (inject_Z k) /\ w1 = logged (LBenchmark (name c)) w
    | IterDuration target =>
        getIterations fuel (createInvoker c) target (logged (LBenchmark (name c)) w)
          = Some (Ok count, w1)
    end /\
    trips count = Some n /\
    measured (createInvoker c) (fun t _ => LWarmup t count) (map (pair n) warm) w1 w2 /\
    Z.of_nat (length warm) = Z.max 0 (default 5 (warmup config)) /\
    measured (createInvoker c) (fun t _ => LActual t count) (map (pair n) ts)
      (logged LBlank w2) w' /\
    Z.of_nat (length ts) = default 10 (samples config) /\
    m' = <["time" := MNums (map (fun t => ndiv (Num t) count) ts)]> metrics /\
    Forall (fun t => same_number (ndiv (Num t) count)
                       (spec_perCall (Num t) count (Num 1) (Num 0))) ts.
Proof.
  intros H. unfold onCase in H. simpl in H.
  change {| user := user w; events := events w ++ [EvLog (LBenchmark (name c))] |}
    with (logged (LBenchmark (name c)) w) in H.
  destruct (default (IterDuration "1s") (iterations config)) as [k|target] eqn:Hit.
  - apply measureCase_ok in H as (_ & _ & n & warm & w2 & ts & Hn & Hw & Hlw & Hs & Hl & Hm).
    exists (Num (inject_Z k)), n, (logged (LBenchmark (name c)) w), warm, w2, ts.
    repeat split; try assumption.
    apply Forall_forall. intros t _. apply perCall_as_specified.
  - destruct (getIterations fuel (createInvoker c) target _)
      as [[[count|e] w1]|] eqn:Hg; try discriminate.
    apply measureCase_ok in H as (_ & _ & n & warm & w2 & ts & Hn & Hw & Hlw & Hs & Hl & Hm).
    exists count, n, w1, warm, w2, ts.
    repeat split; try assumption.
    apply Forall_forall. intros t _. apply perCall_as_specified.
Qed.

(** *** The measure function with iteration hooks *)

Lemma runHooks_from_ok kind (hooks : list HookFn) k w w' :
  forEach (fun ih : nat * HookFn => emit (kind (fst ih)) ;;; call (snd ih))
          (zip (seq k (length hooks)) hooks) w = (Ok tt, w') ->
  events w' = events w ++ map kind (seq k (length hooks)).
Proof.
  revert k w. induction hooks as [|h hooks IH]; intros k w H; simpl in H.
  - injection H as <-. simpl. now rewrite app_nil_r.
  - unfold bind at 1 in H. simpl in H. unfold bind at 1 in H. simpl in H.
    unfold call at 1 in H. simpl in H.
    destruct (h (user w)) as [[[]|e] u]; [|discriminate].
    apply IH in H. simpl in H. rewrite H. simpl. now rewrite <- app_assoc.
Qed.

Lemma runHooks_ok kind hooks w w' :
  runHooks kind hooks w = (Ok tt, w') ->
  events w' = events w ++ map kind (seq 0 (length hooks)).
Proof. apply runHooks_from_ok. Qed.

(** The events of one logical iteration of the hooked variants: the
    before-hooks, the clock, the workload, the clock, the after-hooks. *)
Definition iteration_events (c : BenchCase) (t : Q * Q) : list Event :=
  map EvBefore (seq 0 (length (setupHooks c)))
  ++ [EvNow (fst t); EvWorkload; EvNow (snd t)]
  ++ map EvAfter (seq 0 (length (cleanHooks c))).

(** The time spent between the two clock readings of each iteration. *)
Definition in_workload_time (ts : list (Q * Q)) : Q :=
  fold_right (fun t acc => ((snd t - fst t) + acc)%Q) 0%Q ts.

Lemma withSetup_loop_ok b c fuel count t0 w t w' :
  fuel = Z.to_nat count ->
  withSetup_loop b c fuel count t0 w = (Ok t, w') ->
  exists ts, length ts = Z.to_nat count /\
    events w' = events w ++ concat (map (iteration_events c) ts) /\
    (t == t0 + in_workload_time ts)%Q.
Proof.
  revert count t0 w. induction fuel as [|fuel IH]; intros count t0 w Hf H; simpl in H.
  - injection H as <- <-. exists []. simpl. rewrite <- Hf, app_nil_r.
    repeat split. ring.
  - assert (Hc : 0 < count) by lia. apply Z.ltb_lt in Hc. rewrite Hc in H.
    apply bind_inv_ok in H as ([] & w1 & H1 & H). apply runHooks_ok in H1.
    apply bind_inv_ok in H as (ta & w2 & H2 & H). injection H2 as <- <-.
    apply bind_inv_ok in H as ([] & w3 & H3 & H). simpl in H3.
    unfold callFn, bind, emit, call in H3. simpl in H3.
    destruct (fn c (user w1)) as [[[]|e] u3] eqn:Ef; [|discriminate].
    injection H3 as <-.
    apply bind_inv_ok in H as (tb & w4 & H4 & H). injection H4 as <- <-.
    apply bind_inv_ok in H as ([] & w5 & H5 & H). apply runHooks_ok in H5.
    simpl in H5.
    apply IH in H as (ts & Hlen & Hev & Ht); [|lia].
    exists ((clock (user w1), clock u3) :: ts). repeat split.
    + simpl. rewrite Hlen. lia.
    + rewrite Hev, H5, H1. unfold iteration_events. simpl.
      now rewrite <- !app_assoc.
    + rewrite Ht. simpl. ring.
Qed.

(** X2: when both hook arrays are non-empty, [createInvoker] selects a hooked
    variant; a call that returns has run, [count] times over, the
    before-hooks, the workload between two clock readings and the
    after-hooks, and returns the sum of the in-workload times only. *)
Lemma createInvoker_with_both_hooks c count w t w' :
  setupHooks c <> [] -> cleanHooks c <> [] ->
  createInvoker c count w = (Ok t, w') ->
  selectInvoker c = (if isAsync c then AsyncWithSetup else SyncWithSetup) /\
  exists ts, length ts = Z.to_nat count /\
    events w' = events w ++ concat (map (iteration_events c) ts) /\
    (t == in_workload_time ts)%Q.
Proof.
  intros Hs Hc H. unfold createInvoker in H.
  assert (Hsel : selectInvoker c = (if isAsync c then AsyncWithSetup else SyncWithSetup)).
  { unfold selectInvoker. destruct (setupHooks c); [congruence|].
    destruct (cleanHooks c); [congruence|]. reflexivity. }
  split; [exact Hsel|]. rewrite Hsel in H.
  assert (exists b, withSetup_loop b c (Z.to_nat count) count 0%Q w = (Ok t, w'))
    as [b Hb] by (destruct (isAsync c); eauto).
  apply withSetup_loop_ok in Hb as (ts & Hlen & Hev & Ht); [|reflexivity].
  exists ts. repeat split; try assumption. rewrite Ht. ring.
Qed.

(** *** Calibration of the iteration count *)

(** The lines [Pilot: ...] as pairs (elapsed, count), in the order logged. *)
Fixpoint pilot_lines (evs : list Event) : list (Q * Z) :=
  match evs with
  | [] => []
  | EvLog (LPilot t c) :: evs' => (t, c) :: pilot_lines evs'
  | _ :: evs' => pilot_lines evs'
  end.

Lemma pilot_lines_app evs1 evs2 :
  pilot_lines (evs1 ++ evs2) = pilot_lines evs1 ++ pilot_lines evs2.
Proof.
  induction evs1 as [|e evs1 IH]; simpl; [reflexivity |].
  destruct e as [| | | |[]]; simpl; now rewrite ?IH.
Qed.

Lemma pilot_lines_not_log evs : Forall not_log evs -> pilot_lines evs = [].
Proof.
  induction 1 as [|e evs He _ IH]; simpl; [reflexivity |].
  destruct e as [| | | |l]; try exact IH. discriminate He.
Qed.

Lemma Qltb_lt x y : Qltb x y = true <-> (x < y)%Q.
Proof.
  unfold Qltb. rewrite negb_true_iff. split; intros H.
  - apply Qnot_le_lt. intros Hle. apply Qle_bool_iff in Hle. congruence.
  - destruct (Qle_bool y x) eqn:E; [|reflexivity].
    apply Qle_bool_iff in E. exfalso. exact (Qlt_not_le _ _ H E).
Qed.

Lemma Qltb_ge x y : Qltb x y = false <-> (y <= x)%Q.
Proof.
  unfold Qltb. rewrite negb_false_iff. apply Qle_bool_iff.
Qed.

(** The doubling counts [count], [2 count], [4 count], ... *)
Definition doubling (count : Z) (n : nat) : list Z :=
  map (fun k => count * 2 ^ Z.of_nat k) (seq 0 n).

Lemma doubling_S count n : doubling count (S n) = count :: doubling (count * 2) n.
Proof.
  unfold doubling. simpl. f_equal; [lia|].
  rewrite <- seq_shift, map_map. apply map_ext. intros k.
  rewrite Nat2Z.inj_succ, Z.pow_succ_r; lia.
Qed.

(** What a finished pilot loop has done.  Either it made no measurement, or
    its measurements are [init ++ [lst]]: every one but the last was below
    the target, the last reached it, the counts double from [count], and
    the loop variable ends at twice the last measured count. *)
Lemma pilot_loop_spec fuel iterate targetMS count time w c' t' w' :
  (forall n, appends not_log (iterate n)) ->
  pilot_loop fuel iterate targetMS count time w = Some (Ok (c', t'), w') ->
  exists evs, events w' = events w ++ evs /\
    ((pilot_lines evs = [] /\ c' = count /\ t' = time /\ (targetMS <= time)%Q) \/
     (exists init lst, pilot_lines evs = init ++ [lst] /\
        (time < targetMS)%Q /\
        Forall (fun l => (fst l < targetMS)%Q) init /\
        (targetMS <= fst lst)%Q /\
        t' = fst lst /\ c' = 2 * snd lst /\
        map snd (init ++ [lst]) = doubling count (S (length init)))).
Proof.
  intros Hq. revert count time w.
  induction fuel as [|fuel IH]; intros count time w H; simpl in H;
    destruct (Qltb time targetMS) eqn:Hlt; try discriminate.
  - injection H as <- <- <-. exists []. split; [now rewrite app_nil_r|].
    left. repeat split. now apply Qltb_ge.
  - destruct (iterate count w) as [[t|e] w1] eqn:E1; [|discriminate].
    simpl in H. destruct (Hq _ _ _ _ E1) as (evs1 & E1' & F1).
    apply IH in H as (evs2 & E2 & Hcases). simpl in E2.
    exists (evs1 ++ EvLog (LPilot t count) :: evs2). split.
    { rewrite E2, E1'. now rewrite <- !app_assoc. }
    right. rewrite pilot_lines_app, (pilot_lines_not_log _ F1). simpl.
    apply Qltb_lt in Hlt.
    destruct Hcases as [(Hl & -> & -> & Hge) | (init & lst & Hl & Ht & Hall & Hge & -> & -> & Hd)].
    + exists [], (t, count). rewrite Hl. simpl. repeat split; try assumption; try constructor.
      * lia.
      * unfold doubling. simpl. f_equal. lia.
    + exists ((t, count) :: init), lst. rewrite Hl. repeat split; try assumption.
      * now constructor.
      * simpl. rewrite doubling_S. now f_equal.
  - injection H as <- <- <-. exists []. split; [now rewrite app_nil_r|].
    left. repeat split. now apply Qltb_ge.
Qed.

(** More fuel does not change the outcome of a loop that ended. *)
Lemma pilot_loop_fuel_mono fuel extra iterate targetMS count time w r :
  pilot_loop fuel iterate targetMS count time w = Some r ->
  pilot_loop (fuel + extra) iterate targetMS count time w = Some r.
Proof.
  revert count time w. induction fuel as [|fuel IH]; intros count time w H; simpl in H.
  - destruct (Qltb time targetMS) eqn:Hlt; [discriminate|].
    destruct extra; simpl; now rewrite Hlt.
  - simpl. destruct (Qltb time targetMS) eqn:Hlt; [|exact H].
    destruct (iterate count w) as [[t|e] w1]; [|exact H].
    simpl in *. now apply IH.
Qed.

(** A measure function of a workload whose calls take at least [d]
    milliseconds each: it returns, and the elapsed time of [count]
    iterations is at least [count * d]. *)
Definition takes_at_least (d : Q) (iterate : IterateFn) : Prop :=
  forall count w, 0 < count ->
    exists t w', iterate count w = (Ok t, w') /\ (inject_Z count * d <= t)%Q.

Lemma pilot_loop_terminates iterate targetMS d k :
  takes_at_least d iterate ->
  forall count time w, 0 < count ->
    (targetMS <= inject_Z (count * 2 ^ Z.of_nat k) * d)%Q ->
    exists c' t' w', pilot_loop (S k) iterate targetMS count time w = Some (Ok (c', t'), w').
Proof.
  intros Hd. induction k as [|k IH]; intros count time w Hc Hk; simpl.
  - destruct (Qltb time targetMS); [|eauto].
    destruct (Hd count w Hc) as (t & w1 & -> & Ht). simpl.
    simpl in Hk. rewrite Z.mul_1_r in Hk.
    assert (Hge : Qltb t targetMS = false) by (apply Qltb_ge; eapply Qle_trans; eauto).
    rewrite Hge. eauto.
  - destruct (Qltb time targetMS); [|eauto].
    destruct (Hd count w Hc) as (t & w1 & -> & Ht). simpl.
    apply IH; [lia|].
    replace (count * 2 * 2 ^ Z.of_nat k) with (count * 2 ^ Z.of_nat (S k)); [exact Hk|].
    rewrite Nat2Z.inj_succ, Z.pow_succ_r; lia.
Qed.

(** A workload has duration at least [d] when each call returns and moves
    the clock forward by [d] or more. *)
Definition workload_takes (d : Q) (f : HookFn) : Prop :=
  forall u, exists u', f u = (Ok tt, u') /\ (clock u + d <= clock u')%Q.

Lemma while_countdown_takes d b f fuel count w :
  workload_takes d f -> fuel = Z.to_nat count ->
  exists w', while_countdown fuel count (callFn b f) w = (Ok tt, w') /\
    (clock (user w) + inject_Z (Z.of_nat fuel) * d <= clock (user w'))%Q.
Proof.
  intros Hf. revert count w. induction fuel as [|fuel IH]; intros count w Hfuel; simpl.
  - exists w. split; [reflexivity|]. ring_simplify. apply Qle_refl.
  - assert (Hc : 0 < count) by lia. apply Z.ltb_lt in Hc. rewrite Hc.
    destruct (Hf (user w)) as (u' & Hu & Hle).
    unfold bind at 1. unfold callFn, bind, emit, call. simpl. rewrite Hu.
    set (w1 := {| user := u'; events := events w ++ [EvWorkload] |}).
    destruct (IH (count - 1) w1 ltac:(lia)) as (w' & Hw & Hle').
    exists w'. split; [exact Hw|].
    eapply Qle_trans; [|exact Hle']. change (user w1) with u'.
    rewrite Nat2Z.inj_succ, <- Z.add_1_l, inject_Z_plus.
    change (inject_Z 1) with 1%Q.
    apply Qle_trans with ((clock (user w) + d) + inject_Z (Z.of_nat fuel) * d)%Q.
    + apply Qle_lteq. right. ring.
    + apply Qplus_le_l, Hle.
Qed.

(** Iteration hooks that return: each call completes without throwing. *)
Definition hooks_return (hooks : list HookFn) : Prop :=
  Forall (fun h : HookFn => forall u, exists u', h u = (Ok tt, u')) hooks.

Lemma forEach_hooks_return kind (ihs : list (nat * HookFn)) w :
  Forall (fun ih : nat * HookFn => forall u, exists u', snd ih u = (Ok tt, u')) ihs ->
  exists w', forEach (fun ih => emit (kind (fst ih)) ;;; call (snd ih)) ihs w = (Ok tt, w').
Proof.
  intros H. revert w. induction H as [|[i h] ihs Hh _ IH]; intros w; simpl.
  - eexists. reflexivity.
  - simpl in Hh.
    destruct (Hh (user w)) as (u' & Hu).
    unfold bind at 1. unfold bind at 1. unfold emit, call. simpl. rewrite Hu.
    apply IH.
Qed.

Lemma runHooks_returns kind hooks w :
  hooks_return hooks -> exists w', runHooks kind hooks w = (Ok tt, w').
Proof.
  intros H. apply forEach_hooks_return.
  unfold indexed. generalize 0%nat.
  induction H as [|h hooks Hh _ IH]; intros k; simpl; constructor; auto.
Qed.

Lemma withSetup_loop_takes d b c fuel count t0 w :
  workload_takes d (fn c) ->
  hooks_return (setupHooks c) -> hooks_return (cleanHooks c) ->
  fuel = Z.to_nat count ->
  exists t w', withSetup_loop b c fuel count t0 w = (Ok t, w') /\
    (t0 + inject_Z (Z.of_nat fuel) * d <= t)%Q.
Proof.
  intros Hf Hs Hc. revert count t0 w.
  induction fuel as [|fuel IH]; intros count t0 w Hfuel; simpl.
  - exists t0, w. split; [reflexivity|]. ring_simplify. apply Qle_refl.
  - assert (Hpos : 0 < count) by lia. apply Z.ltb_lt in Hpos. rewrite Hpos.
    destruct (runHooks_returns EvBefore (setupHooks c) w Hs) as (w1 & H1).
    unfold bind at 1. rewrite H1.
    unfold bind at 1. unfold performance_now at 1. cbv beta iota zeta.
    set (w2 := {| user := user w1; events := events w1 ++ [EvNow (clock (user w1))] |}).
    destruct (Hf (user w1)) as (u' & Hu & Hle).
    unfold bind at 1. unfold callFn, bind at 1, emit, call. simpl. rewrite Hu.
    set (w3 := {| user := u'; events := (events w1 ++ [EvNow (clock (user w1))]) ++ [EvWorkload] |}).
    unfold bind at 1. unfold performance_now at 1. cbv beta iota zeta.
    change (user w3) with u'.
    set (w4 := {| user := u'; events := events w3 ++ [EvNow (clock u')] |}).
    destruct (runHooks_returns EvAfter (cleanHooks c) w4 Hc) as (w5 & H5).
    unfold bind at 1. rewrite H5.
    destruct (IH (count - 1) ((t0 - clock (user w1)) + clock u')%Q w5 ltac:(lia))
      as (t & w' & Hw & Ht).
    exists t, w'. split; [exact Hw|].
    eapply Qle_trans; [|exact Ht].
    rewrite Nat2Z.inj_succ, <- Z.add_1_l, inject_Z_plus.
    change (inject_Z 1) with 1%Q.
    apply Qle_trans with ((t0 - clock (user w1)) + (clock (user w1) + d)
                          + inject_Z (Z.of_nat fuel) * d)%Q.
    + apply Qle_lteq. right. ring.
    + apply Qplus_le_l, Qplus_le_r, Hle.
Qed.

(** The measure function of a case whose workload takes at least [d] and
    whose iteration hooks return: [count] iterations take at least
    [count * d], whichever of the three variants is selected. *)
Lemma createInvoker_takes_at_least c d :
  hooks_return (setupHooks c) -> hooks_return (cleanHooks c) ->
  workload_takes d (fn c) -> takes_at_least d (createInvoker c).
Proof.
  intros Hs Hc Hf count w Hpos.
  unfold createInvoker, invoker. destruct (selectInvoker c).
  - unfold noSetup.
    unfold bind at 1. simpl.
    set (w0 := {| user := user w; events := events w ++ [EvNow (clock (user w))] |}).
    destruct (while_countdown_takes d (isAsync c) (fn c) (Z.to_nat count) count w0 Hf eq_refl)
      as (w1 & Hw & Hle).
    assert (Hloop : (if isAsync c
              then while_countdown (Z.to_nat count) count (callFn true (fn c))
              else while_countdown (Z.to_nat count) count (callFn false (fn c))) w0
            = (Ok tt, w1)) by (destruct (isAsync c); exact Hw).
    unfold bind at 1. rewrite Hloop. unfold bind, performance_now, ret. simpl.
    eexists. eexists. split; [reflexivity|].
    rewrite Z2Nat.id in Hle by lia. change (user w0) with (user w) in Hle.
    apply Qplus_le_l with (z := clock (user w)).
    eapply Qle_trans; [|eapply Qle_trans; [exact Hle|]]; apply Qle_lteq; right; ring.
  - unfold syncWithSetup.
    destruct (withSetup_loop_takes d false c (Z.to_nat count) count 0%Q w Hf Hs Hc eq_refl)
      as (t & w' & Hw & Ht).
    exists t, w'. split; [exact Hw|].
    rewrite Z2Nat.id in Ht by lia. now rewrite Qplus_0_l in Ht.
  - unfold asyncWithSetup.
    destruct (withSetup_loop_takes d true c (Z.to_nat count) count 0%Q w Hf Hs Hc eq_refl)
      as (t & w' & Hw & Ht).
    exists t, w'. split; [exact Hw|].
    rewrite Z2Nat.id in Ht by lia. now rewrite Qplus_0_l in Ht.
Qed.

Lemma doubling_reaches (targetMS d : Q) :
  (0 < d)%Q -> exists k : nat, (targetMS <= inject_Z (1 * 2 ^ Z.of_nat k) * d)%Q.
Proof.
  intros Hd. set (z := Qceiling (targetMS / d)).
  exists (Z.to_nat z). rewrite Z.mul_1_l.
  assert (Hz : (z <= 2 ^ Z.of_nat (Z.to_nat z))%Z).
  { destruct (Z.le_gt_cases z 0) as [Hneg|Hpos].
    - replace (Z.to_nat z) with 0%nat by lia. simpl. lia.
    - rewrite Z2Nat.id by lia. apply Z.lt_le_incl, Z.pow_gt_lin_r; lia. }
  assert (Hdne : ~ (d == 0)%Q).
  { intros E. rewrite E in Hd. exact (Qlt_irrefl _ Hd). }
  apply Qle_trans with ((targetMS / d) * d)%Q.
  - rewrite Qmult_comm, Qmult_div_r by exact Hdne. apply Qle_refl.
  - apply Qmult_le_compat_r; [|now apply Qlt_le_weak].
    apply Qle_trans with (inject_Z z); [apply Qle_ceiling|].
    now rewrite <- Zle_Qle.
Qed.

Lemma doubling_increasing count n i j a b :
  0 < count -> (i < j)%nat ->
  doubling count n !! i = Some a -> doubling count n !! j = Some b -> a < b.
Proof.
  intros Hc Hij Ha Hb. unfold doubling in *.
  rewrite list_lookup_fmap in Ha, Hb.
  destruct (seq 0 n !! i) as [i'|] eqn:Ei; [|discriminate].
  destruct (seq 0 n !! j) as [j'|] eqn:Ej; [|discriminate].
  apply lookup_seq in Ei as [-> _]. apply lookup_seq in Ej as [-> _].
  simpl in *. injection Ha as <-. injection Hb as <-.
  apply Z.mul_lt_mono_pos_l; [exact Hc|].
  apply Z.pow_lt_mono_r; lia.
Qed.

Lemma List_last_cons {A} (a : A) (l : list A) (d : A) :
  List.last (a :: l) d = List.last l a.
Proof.
  revert a d. induction l as [|b l IH]; intros a d; [reflexivity|].
  change (List.last (a :: b :: l) d) with (List.last (b :: l) d).
  now rewrite (IH b d), (IH b a).
Qed.

Lemma removelast_cons2 {A} (a b : A) (l : list A) :
  removelast (a :: b :: l) = a :: removelast (b :: l).
Proof. reflexivity. Qed.

(** What a finished pilot loop has done, call by call.  [time :: times] are
    the values the loop variable [time] went through: all but the last let
    the loop go on, the last ended it. *)
Lemma pilot_measured fuel iterate targetMS count time w c' t' w' :
  pilot_loop fuel iterate targetMS count time w = Some (Ok (c', t'), w') ->
  exists ms,
    measured iterate LPilot ms w w' /\
    map fst ms = doubling count (length ms) /\
    c' = count * 2 ^ Z.of_nat (length ms) /\
    t' = List.last (map snd ms) time /\
    Forall (fun t => (t < targetMS)%Q) (removelast (time :: map snd ms)) /\
    (targetMS <= t')%Q.
Proof.
  revert count time w.
  induction fuel as [|fuel IH]; intros count time w H; simpl in H;
    destruct (Qltb time targetMS) eqn:Hlt; try discriminate.
  - injection H as <- <- <-. exists []. simpl.
    repeat split; [constructor | lia | constructor | now apply Qltb_ge].
  - destruct (iterate count w) as [[t|e] w1] eqn:E1; [|discriminate].
    simpl in H. apply IH in H as (ms & Hm & Hc & -> & -> & Hall & Hge).
    exists ((count, t) :: ms). repeat split.
    + econstructor; eauto.
    + simpl. rewrite doubling_S. now f_equal.
    + simpl length. rewrite Nat2Z.inj_succ, Z.pow_succ_r; lia.
    + simpl map. now rewrite List_last_cons.
    + simpl map. rewrite removelast_cons2. constructor; [now apply Qltb_lt | exact Hall].
    + exact Hge.
  - injection H as <- <- <-. exists []. simpl.
    repeat split; [constructor | lia | constructor | now apply Qltb_ge].
Qed.

(** C3: calibration against a duration.  A call of [getIterations] that
    returns has made the measurements [ms], each a call of the measure
    function followed by its line [Pilot]: the counts start at 1 and double
    each time, hence increase strictly; every elapsed time but the last is
    below the target and the last reaches it (no measurement at all is made
    exactly when the target is not positive, and the elapsed time is then
    the initial [0]); the result is
    [Math.ceil(count / 2 * targetMS / elapsedLast)] as the numbers of
    JavaScript compute it, where [count], the loop variable on exit, is
    [2 ^ length ms], twice the count of the last measurement.  And the loop
    ends for a workload whose calls take at least [d] > 0 ms: any fuel from
    [fuel0] on gives a result. *)
Theorem getIterations_calibrates iterate target w :
  (forall fuel result w',
     getIterations fuel iterate target w = Some (Ok result, w') ->
     exists ms w1,
       measured iterate LPilot ms w w1 /\
       w' = logged LBlank w1 /\
       map fst ms = doubling 1 (length ms) /\
       (forall i j a b, (i < j)%nat ->
          map fst ms !! i = Some a -> map fst ms !! j = Some b -> a < b) /\
       Forall (fun t => (t < parseDuration target)%Q) (removelast (map snd ms)) /\
       (parseDuration target <= List.last (map snd ms) 0)%Q /\
       (ms = [] <-> (parseDuration target <= 0)%Q) /\
       result = Math_ceil (nround
                  (ndiv (nmul (ndiv (Num (inject_Z (2 ^ Z.of_nat (length ms)))) (Num 2))
                              (Num (parseDuration target)))
                        (Num (List.last (map snd ms) 0%Q))))) /\
  (forall d, (0 < d)%Q -> takes_at_least d iterate ->
     exists fuel0, forall fuel, (fuel0 <= fuel)%nat ->
       exists result w', getIterations fuel iterate target w = Some (Ok result, w')).
Proof.
  split.
  - intros fuel result w' H. unfold getIterations in H.
    destruct (pilot_loop fuel iterate (parseDuration target) 1 0%Q w)
      as [[[[c' t']|e] w1]|] eqn:Hloop; try discriminate.
    injection H as <- <-.
    apply pilot_measured in Hloop as (ms & Hm & Hc & -> & -> & Hall & Hge).
    exists ms, w1. rewrite Z.mul_1_l.
    split; [exact Hm|]. split; [reflexivity|]. split; [exact Hc|].
    split; [|split; [|split; [exact Hge|split; [|reflexivity]]]].
    + intros i j a b Hij Ha Hb. rewrite Hc in Ha, Hb.
      exact (doubling_increasing 1 _ i j a b ltac:(lia) Hij Ha Hb).
    + destruct ms as [|m ms]; [constructor|].
      simpl map in Hall. rewrite removelast_cons2 in Hall.
      now apply Forall_cons in Hall as [_ Hall].
    + split.
      * intros ->. exact Hge.
      * intros HT. destruct ms as [|m ms]; [reflexivity|].
        simpl map in Hall. rewrite removelast_cons2 in Hall.
        apply Forall_cons in Hall as [H0 _].
        exfalso. exact (Qlt_not_le _ _ H0 HT).
  - intros d Hdpos Hd.
    destruct (doubling_reaches (parseDuration target) d Hdpos) as [k Hk].
    exists (S k). intros fuel Hfuel.
    destruct (pilot_loop_terminates iterate _ d k Hd 1 0%Q w ltac:(lia) Hk)
      as (c' & t' & w1 & Hloop).
    apply (pilot_loop_fuel_mono _ (fuel - S k)) in Hloop.
    replace (S k + (fuel - S k))%nat with fuel in Hloop by lia.
    unfold getIterations. rewrite Hloop. simpl. eauto.
Qed.

(** *** The measure function without iteration hooks *)

Lemma while_countdown_ok b f fuel count w w' :
  fuel = Z.to_nat count ->
  while_countdown fuel count (callFn b f) w = (Ok tt, w') ->
  events w' = events w ++ replicate fuel EvWorkload.
Proof.
  revert count w. induction fuel as [|fuel IH]; intros count w Hf H; simpl in H.
  - injection H as <-. simpl. now rewrite app_nil_r.
  - assert (Hc : 0 < count) by lia. apply Z.ltb_lt in Hc. rewrite Hc in H.
    apply bind_inv_ok in H as ([] & w1 & H1 & H).
    unfold callFn, bind, emit, call in H1. simpl in H1.
    destruct (f (user w)) as [[[]|e] u1]; [|discriminate]. injection H1 as <-.
    apply IH in H; [|lia]. simpl in H. rewrite H. simpl. now rewrite <- app_assoc.
Qed.

Lemma noSetup_ok c count w t w' :
  noSetup c count w = (Ok t, w') ->
  events w' = events w
    ++ [EvNow (clock (user w))]
    ++ replicate (Z.to_nat count) EvWorkload
    ++ [EvNow (clock (user w'))] /\
  t = (clock (user w') - clock (user w))%Q.
Proof.
  intros H. unfold noSetup in H.
  apply bind_inv_ok in H as (t0 & w0 & H0 & H). injection H0 as <- <-.
  apply bind_inv_ok in H as ([] & w1 & H1 & H).
  assert (Hloop : exists b,
            while_countdown (Z.to_nat count) count (callFn b (fn c))
              {| user := user w; events := events w ++ [EvNow (clock (user w))] |}
            = (Ok tt, w1)) by (destruct (isAsync c); eauto).
  destruct Hloop as [b Hloop]. apply while_countdown_ok in Hloop; [|reflexivity].
  apply bind_inv_ok in H as (t1 & w2 & H2 & H). injection H2 as <- <-.
  injection H as <- <-. simpl in *. split; [|reflexivity].
  rewrite Hloop. now rewrite <- !app_assoc.
Qed.

(** X1: when either hook array is empty, the measure function of
    [createInvoker] is the variant without hooks.  A call that returns has
    read the clock, called the workload [count] times in a row and read the
    clock again; no iteration hook has run, and the result is the difference
    of the two readings. *)
Theorem createInvoker_without_hooks c count w t w' :
  setupHooks c = [] \/ cleanHooks c = [] ->
  createInvoker c count w = (Ok t, w') ->
  selectInvoker c = NoSetup /\
  events w' = events w
    ++ [EvNow (clock (user w))]
    ++ replicate (Z.to_nat count) EvWorkload
    ++ [EvNow (clock (user w'))] /\
  t = (clock (user w') - clock (user w))%Q.
Proof.
  intros Hempty H.
  assert (Hsel : selectInvoker c = NoSetup).
  { unfold selectInvoker. destruct Hempty as [-> | ->]; simpl.
    - reflexivity.
    - now rewrite andb_false_r. }
  split; [exact Hsel|]. unfold createInvoker in H. rewrite Hsel in H.
  exact (noSetup_ok c count w t w' H).
Qed.

(** *** How often the workload runs *)

Fixpoint workload_calls (evs : list Event) : nat :=
  match evs with
  | [] => 0
  | EvWorkload :: evs' => S (workload_calls evs')
  | _ :: evs' => workload_calls evs'
  end.

Lemma workload_calls_app evs1 evs2 :
  workload_calls (evs1 ++ evs2) = (workload_calls evs1 + workload_calls evs2)%nat.
Proof.
  induction evs1 as [|e evs1 IH]; simpl; [reflexivity|].
  destruct e; simpl; now rewrite ?IH.
Qed.

Lemma workload_calls_replicate n : workload_calls (replicate n EvWorkload) = n.
Proof. induction n as [|n IH]; simpl; now rewrite ?IH. Qed.

Lemma workload_calls_before l : workload_calls (map EvBefore l) = 0%nat.
Proof. induction l as [|i l IH]; simpl; now rewrite ?IH. Qed.

Lemma workload_calls_after l : workload_calls (map EvAfter l) = 0%nat.
Proof. induction l as [|i l IH]; simpl; now rewrite ?IH. Qed.

Lemma workload_calls_iterations c ts :
  workload_calls (concat (map (iteration_events c) ts)) = length ts.
Proof.
  induction ts as [|t ts IH]; simpl; [reflexivity|].
  unfold iteration_events at 1.
  rewrite !workload_calls_app, workload_calls_before, workload_calls_after, IH.
  reflexivity.
Qed.

(** A measure function that calls the workload [count] times whenever it
    returns. *)
Definition calls_count_times (iterate : IterateFn) : Prop :=
  forall count w t w', iterate count w = (Ok t, w') ->
    exists evs, events w' = events w ++ evs /\ workload_calls evs = Z.to_nat count.

Lemma createInvoker_calls c : calls_count_times (createInvoker c).
Proof.
  intros count w t w' H. unfold createInvoker in H.
  destruct (selectInvoker c) eqn:Hsel.
  - apply (noSetup_ok c) in H as [H _]. eexists. split; [exact H|].
    rewrite !workload_calls_app, workload_calls_replicate. simpl. lia.
  - apply (withSetup_loop_ok false c) in H as (ts & Hlen & Hev & _); [|reflexivity].
    eexists. split; [exact Hev|]. now rewrite workload_calls_iterations.
  - apply (withSetup_loop_ok true c) in H as (ts & Hlen & Hev & _); [|reflexivity].
    eexists. split; [exact Hev|]. now rewrite workload_calls_iterations.
Qed.

Lemma measured_calls iterate line n ts w w' :
  calls_count_times iterate ->
  measured iterate line (map (pair n) ts) w w' ->
  exists evs, events w' = events w ++ evs /\
    workload_calls evs = (length ts * Z.to_nat n)%nat.
Proof.
  intros Hq. revert w. induction ts as [|t ts IH]; intros w H; inversion H; subst.
  - exists []. now rewrite app_nil_r.
  - match goal with
    | Hi : iterate _ _ = _, Hm : measured _ _ _ _ _ |- _ =>
        destruct (Hq _ _ _ _ Hi) as (evs1 & E1 & C1);
        destruct (IH _ Hm) as (evs2 & E2 & C2)
    end.
    simpl in E2. exists (evs1 ++ EvLog (line t n) :: evs2). split.
    + rewrite E2, E1. now rewrite <- !app_assoc.
    + rewrite workload_calls_app. simpl. rewrite C1, C2. lia.
Qed.

Lemma Qle_bool_inject_Z n : Qle_bool (inject_Z n) 0 = (n <=? 0).
Proof. unfold Qle_bool. simpl. now rewrite Z.mul_1_r. Qed.

(** X3: with a numeric [iterations] option [n], a call of [onCase] that
    returns has called the workload exactly [(warmup + samples) * n] times,
    whichever variant measures it (a negative [warmup] counts as none). *)
Theorem onCase_workload_calls fuel config c metrics n w m' w' :
  iterations config = Some (IterCount n) ->
  onCase fuel config c metrics w = Some (Ok m', w') ->
  exists evs, events w' = events w ++ evs /\
    Z.of_nat (workload_calls evs)
    = (Z.max 0 (default 5 (warmup config)) + default 10 (samples config)) * n.
Proof.
  intros Hn H. unfold onCase in H. simpl in H. rewrite Hn in H. simpl in H.
  apply measureCase_ok in H
    as (_ & Hpos & k & warm & w2 & ts & Hk & Hw & Hlw & Hs & Hls & _).
  simpl in Hpos. rewrite Qle_bool_inject_Z in Hpos. apply Z.leb_gt in Hpos.
  simpl in Hk. rewrite Qceiling_Z in Hk. injection Hk as <-.
  destruct (measured_calls _ _ _ _ _ _ (createInvoker_calls c) Hw) as (evs1 & E1 & C1).
  destruct (measured_calls _ _ _ _ _ _ (createInvoker_calls c) Hs) as (evs2 & E2 & C2).
  simpl in E1, E2.
  exists (EvLog (LBenchmark (name c)) :: evs1 ++ EvLog LBlank :: evs2). split.
  - rewrite E2, E1. now rewrite <- !app_assoc.
  - simpl. rewrite workload_calls_app. simpl. rewrite C1, C2. nia.
Qed.

(** X4: with a numeric [iterations] option [n], [onCase] rejects a number
    of samples below 1 and a number of iterations below 1 before it measures
    anything: it has written the line [Benchmark: name] and nothing else,
    and no user code has run.  The samples are checked first. *)
Theorem onCase_rejects_bad_counts fuel config c metrics n w :
  iterations config = Some (IterCount n) ->
  default 10 (samples config) <= 0 \/ n <= 0 ->
  onCase fuel config c metrics w =
    Some (Throw (Error (if default 10 (samples config) <=? 0
                        then "The number of samples must be at least 1."
                        else "The number of iterations cannot be 0 or negative.")),
          {| user := user w; events := events w ++ [EvLog (LBenchmark (name c))] |}).
Proof.
  intros Hn Hbad. unfold onCase. simpl. rewrite Hn. simpl. unfold measureCase.
  destruct (default 10 (samples config) <=? 0) eqn:Hs; [reflexivity|].
  apply Z.leb_gt in Hs. destruct Hbad as [Hbad|Hbad]; [lia|].
  apply Z.leb_le in Hbad. simpl. now rewrite Qle_bool_inject_Z, Hbad.
Qed.

(** *** The calibrated count *)

(** What the bounds below use of the rounding to the nearest double: it is
    monotone, it keeps a positive number positive (no underflow), and it
    leaves the powers of two, which are doubles, as they are (no
    overflow). *)
Record rounds_to_nearest : Prop := {
  double_le : forall x y, (x <= y)%Q -> (double x <= double y)%Q;
  double_pos : forall x, (0 < x)%Q -> (0 < double x)%Q;
  double_pow2 : forall k : nat,
    (double (inject_Z (2 ^ Z.of_nat k)) == inject_Z (2 ^ Z.of_nat k))%Q;
}.

Lemma doubling_last count init (lst : Q * Z) :
  map snd (init ++ [lst]) = doubling count (S (length init)) ->
  snd lst = count * 2 ^ Z.of_nat (length init).
Proof.
  intros H. assert (Hl : map snd (init ++ [lst]) !! length init = Some (snd lst)).
  { rewrite map_app. rewrite lookup_app_r by (rewrite length_map; lia).
    rewrite length_map, Nat.sub_diag. reflexivity. }
  rewrite H in Hl. unfold doubling in Hl. rewrite list_lookup_fmap in Hl.
  rewrite lookup_seq_lt in Hl by lia. simpl in Hl. now injection Hl as <-.
Qed.

(** X5: against a positive target, the count [getIterations] returns is an
    integer, at least 1 and at most the count of its last pilot measurement;
    so the test of [onCase] for a count of 0 or less never fires after a
    calibration. *)
Theorem getIterations_result_bounds fuel iterate target w result w' :
  rounds_to_nearest ->
  (forall n, appends not_log (iterate n)) ->
  (0 < parseDuration target)%Q ->
  getIterations fuel iterate target w = Some (Ok result, w') ->
  exists evs init lst n,
    events w' = events w ++ evs /\
    pilot_lines evs = init ++ [lst] /\
    result = Num (inject_Z n) /\
    1 <= n <= snd lst.
Proof.
  intros Hr Hq HT H. unfold getIterations in H.
  destruct (pilot_loop fuel iterate (parseDuration target) 1 0%Q w)
    as [[[[c' t']|e] w1]|] eqn:Hloop; try discriminate.
  injection H as <- <-.
  destruct (pilot_loop_spec _ _ _ _ _ _ _ _ _ Hq Hloop) as (evs & E & Hcases).
  destruct Hcases as [(_ & _ & _ & Hge) | (init & lst & Hl & _ & _ & Hge & -> & -> & Hcounts)].
  { exfalso. exact (Qlt_not_le _ _ HT Hge). }
  pose proof (doubling_last 1 init lst Hcounts) as Hlast.
  assert (Hpos : 0 < snd lst).
  { rewrite Hlast. apply Z.mul_pos_pos; [lia | apply Z.pow_pos_nonneg; lia]. }
  set (T := parseDuration target) in *.
  assert (Ht : (0 < fst lst)%Q) by (eapply Qlt_le_trans; eauto).
  assert (Hne : Qeq_bool (fst lst) 0 = false).
  { destruct (Qeq_bool (fst lst) 0) eqn:E0; [|reflexivity].
    apply Qeq_bool_iff in E0. rewrite E0 in Ht. exfalso. exact (Qlt_irrefl _ Ht). }
  set (x := (inject_Z (2 * snd lst) / 2 * T / fst lst)%Q).
  assert (Hx : (x == inject_Z (snd lst) * T / fst lst)%Q).
  { unfold x. rewrite inject_Z_mult. field. intros E0. rewrite E0 in Ht.
    exact (Qlt_irrefl _ Ht). }
  assert (Hx0 : (0 < x)%Q).
  { rewrite Hx. apply Qlt_shift_div_l; [exact Ht|]. rewrite Qmult_0_l.
    apply Qmult_lt_0_compat; [|exact HT].
    change 0%Q with (inject_Z 0). now rewrite <- Zlt_Qlt. }
  assert (Hx1 : (x <= inject_Z (snd lst))%Q).
  { rewrite Hx. apply Qle_shift_div_r; [exact Ht|].
    apply Qmult_le_l; [|exact Hge].
    change 0%Q with (inject_Z 0). now rewrite <- Zlt_Qlt. }
  assert (Hd0 : (0 < double x)%Q) by (apply (double_pos Hr), Hx0).
  assert (Hd1 : (double x <= inject_Z (snd lst))%Q).
  { eapply Qle_trans; [apply (double_le Hr), Hx1|].
    rewrite Hlast, Z.mul_1_l. apply Qle_lteq. right. apply (double_pow2 Hr). }
  exists (evs ++ [EvLog LBlank]), init, lst, (Qceiling (double x)). simpl.
  split; [now rewrite E, app_assoc|].
  split; [rewrite pilot_lines_app, Hl; simpl; now rewrite app_nil_r|].
  split; [now rewrite Hne|].
  split.
  - assert (H0 : (0 < inject_Z (Qceiling (double x)))%Q)
      by (eapply Qlt_le_trans; [exact Hd0 | apply Qle_ceiling]).
    change 0%Q with (inject_Z 0) in H0. rewrite <- Zlt_Qlt in H0. lia.
  - rewrite <- (Qceiling_Z (snd lst)). now apply Qceiling_resp_le.
Qed.

Lemma pilot_loop_lines_le fuel iterate targetMS count time w r w' :
  (forall n, appends not_log (iterate n)) ->
  pilot_loop fuel iterate targetMS count time w = Some (r, w') ->
  exists evs, events w' = events w ++ evs /\ (length (pilot_lines evs) <= fuel)%nat.
Proof.
  intros Hq. revert count time w.
  induction fuel as [|fuel IH]; intros count time w H; simpl in H;
    destruct (Qltb time targetMS).
  - discriminate.
  - injection H as <- <-. exists []. split; [now rewrite app_nil_r | simpl; lia].
  - destruct (iterate count w) as [[t|e] w1] eqn:E1.
    + simpl in H. destruct (IH _ _ _ H) as (evs2 & E2 & L2).
      destruct (Hq _ _ _ _ E1) as (evs1 & E1' & F1). simpl in E2.
      exists (evs1 ++ EvLog (LPilot t count) :: evs2). split.
      * rewrite E2, E1'. now rewrite <- !app_assoc.
      * rewrite pilot_lines_app, (pilot_lines_not_log _ F1). simpl. lia.
    + injection H as <- <-. destruct (Hq _ _ _ _ E1) as (evs1 & E1' & F1).
      exists evs1. split; [exact E1'|]. rewrite (pilot_lines_not_log _ F1). simpl. lia.
  - injection H as <- <-. exists []. split; [now rewrite app_nil_r | simpl; lia].
Qed.

(** X6: when [2 ^ k] calls of the workload are sure to reach the target,
    calibration returns a count after at most [k + 1] pilot measurements:
    with fuel for [k + 1] turns of the loop or more, [getIterations] returns
    a count and has written at most [k + 1] lines [Pilot]; and whatever the
    fuel, a call that gives an outcome has returned a count within that
    bound. *)
Theorem getIterations_pilot_bound iterate target d k w :
  (forall n, appends not_log (iterate n)) ->
  takes_at_least d iterate ->
  (parseDuration target <= inject_Z (1 * 2 ^ Z.of_nat k) * d)%Q ->
  (forall fuel, (S k <= fuel)%nat ->
     exists result w' evs,
       getIterations fuel iterate target w = Some (Ok result, w') /\
       events w' = events w ++ evs /\
       (length (pilot_lines evs) <= S k)%nat) /\
  (forall fuel r w',
     getIterations fuel iterate target w = Some (r, w') ->
     exists result evs,
       r = Ok result /\
       events w' = events w ++ evs /\
       (length (pilot_lines evs) <= S k)%nat).
Proof.
  intros Hq Hd Hk.
  destruct (pilot_loop_terminates iterate _ d k Hd 1 0%Q w ltac:(lia) Hk)
    as (c' & t' & w1 & Hshort).
  destruct (pilot_loop_lines_le _ _ _ _ _ _ _ _ Hq Hshort) as (evs & E & Hlen).
  split.
  - intros fuel Hfuel.
    apply (pilot_loop_fuel_mono _ (fuel - S k)) in Hshort.
    replace (S k + (fuel - S k))%nat with fuel in Hshort by lia.
    unfold getIterations. rewrite Hshort. simpl.
    eexists. eexists. exists (evs ++ [EvLog LBlank]).
    split; [reflexivity|]. simpl. split; [now rewrite E, app_assoc|].
    rewrite pilot_lines_app. simpl. rewrite app_nil_r. exact Hlen.
  - intros fuel r w' H. unfold getIterations in H.
    destruct (pilot_loop fuel iterate (parseDuration target) 1 0%Q w) as [x|] eqn:Hloop;
      [|discriminate].
    apply (pilot_loop_fuel_mono _ (S k)) in Hloop.
    apply (pilot_loop_fuel_mono _ fuel) in Hshort.
    rewrite Nat.add_comm, Hloop in Hshort. injection Hshort as ->.
    injection H as <- <-.
    eexists. exists (evs ++ [EvLog LBlank]). split; [reflexivity|]. simpl.
    split; [now rewrite E, app_assoc|].
    rewrite pilot_lines_app. simpl. rewrite app_nil_r. exact Hlen.
Qed.

End Worker.

(** *** A concrete worker: the world is the clock, in milliseconds. *)

Definition spin (ms : Q) : @HookFn Q := fun u => (Ok tt, (u + ms)%Q).

Definition demo_parse (target : string) : Q :=
  if String.eqb target "100ms" then 100%Q
  else if String.eqb target "0ms" then 0%Q
  else 165%Q.

(** The times of the examples are doubles, and so are the quotients that
    are rounded: the rounding leaves them as they are. *)
Definition exact (q : Q) : Q := q.

Lemma exact_rounds : rounds_to_nearest exact.
Proof.
  split; unfold exact.
  - intros x y H. exact H.
  - intros x H. exact H.
  - intros k. reflexivity.
Qed.

Definition demo_case : @BenchCase Q :=
  {| name := "Test"; fn := spin 32; isAsync := false;
     setupHooks := []; cleanHooks := [] |}.

Definition demo_config : SuiteConfig :=
  {| warmup := Some 0; samples := Some 1; iterations := Some (IterCount 2) |}.

Definition demo_world : @World Q := {| user := 0%Q; events := [] |}.

(** One sample of two calls that take 32 ms each: the elapsed time is 64 ms
    and the worker records 64 / 2. *)
Lemma onCase_time_metric_witness :
  exists m' w',
    onCase id demo_parse exact 0 demo_config demo_case ∅ demo_world = Some (Ok m', w') /\
    m' !! "time" = Some (MNums [Num (64 # 2)]) /\
    exists count n w1 warm w2 ts,
      match default (IterDuration "1s") (iterations demo_config) with
      | IterCount k =>
          count = Num (inject_Z k) /\ w1 = logged (LBenchmark (name demo_case)) demo_world
      | IterDuration target =>
          getIterations demo_parse exact 0 (createInvoker id demo_case) target
            (logged (LBenchmark (name demo_case)) demo_world) = Some (Ok count, w1)
      end /\
      trips count = Some n /\
      measured (createInvoker id demo_case) (fun t _ => LWarmup t count)
        (map (pair n) warm) w1 w2 /\
      Z.of_nat (length warm) = Z.max 0 (default 5 (warmup demo_config)) /\
      measured (createInvoker id demo_case) (fun t _ => LActual t count)
        (map (pair n) ts) (logged LBlank w2) w' /\
      Z.of_nat (length ts) = default 10 (samples demo_config) /\
      m' = <["time" := MNums (map (fun t => ndiv (Num t) count) ts)]> ∅ /\
      Forall (fun t => same_number (ndiv (Num t) count)
                         (spec_perCall (Num t) count (Num 1) (Num 0))) ts.
Proof.
  eexists. eexists. split; [vm_compute; reflexivity|].
  split; [vm_compute; reflexivity|].
  eapply (onCase_time_metric id demo_parse exact 0 demo_config demo_case ∅ demo_world).
  vm_compute. reflexivity.
Defined.

Definition calibrated_config (target : string) : SuiteConfig :=
  {| warmup := Some 1; samples := Some 2; iterations := Some (IterDuration target) |}.

Definition spin1_case : @BenchCase Q :=
  {| name := "Test"; fn := spin 1; isAsync := false;
     setupHooks := []; cleanHooks := [] |}.

(** Against a target of 0 ms the pilot loop makes no measurement and the
    count is [0.5 * 0 / 0], that is [NaN]: the test [count <= 0] lets it
    pass, the measure function makes no call of the workload, and the
    samples are [NaN]. *)
Example onCase_zero_target :
  exists m' w',
    onCase id demo_parse exact 5 (calibrated_config "0ms") spin1_case ∅ demo_world
      = Some (Ok m', w') /\
    m' !! "time" = Some (MNums [NaN; NaN]) /\
    events w' = [EvLog (LBenchmark "Test"); EvLog LBlank;
                 EvNow 0; EvNow 0; EvLog (LWarmup (0 - 0) NaN); EvLog LBlank;
                 EvNow 0; EvNow 0; EvLog (LActual (0 - 0) NaN);
                 EvNow 0; EvNow 0; EvLog (LActual (0 - 0) NaN)].
Proof. do 2 eexists. repeat split; vm_compute; reflexivity. Qed.

(** A measure function whose [count] iterations take exactly [count * d]. *)
Definition linear_measure (d : Q) : @IterateFn Q :=
  fun count w => (Ok (inject_Z count * d)%Q, w).

(** Calls of 0.1 ms against a target of 165 ms: the pilot runs at counts
    1, 2, ..., 2048 and the calibrated count is 1650. *)
Example getIterations_165ms :
  option_map fst
    (getIterations demo_parse exact 12 (linear_measure (1 # 10)) "165ms" demo_world)
  = Some (Ok (Num 1650)).
Proof. vm_compute. reflexivity. Qed.

Lemma spin_takes d : workload_takes id d (spin d).
Proof. intros u. eexists. split; [reflexivity | apply Qle_refl]. Qed.

(** Calls of 1 ms against a target of 100 ms, through the real invoker: the
    pilot runs at counts 1, 2, ..., 128 and the calibrated count is 100. *)
Example getIterations_100ms :
  option_map fst
    (getIterations demo_parse exact 8 (createInvoker id spin1_case) "100ms" demo_world)
  = Some (Ok (Num 100)).
Proof. vm_compute. reflexivity. Qed.

Lemma getIterations_calibrates_witness :
  (exists result w',
     getIterations demo_parse exact 8 (createInvoker id spin1_case) "100ms" demo_world
       = Some (Ok result, w') /\
     result = Num 100 /\
     exists ms w1,
       measured (createInvoker id spin1_case) LPilot ms demo_world w1 /\
       w' = logged LBlank w1 /\
       map fst ms = doubling 1 (length ms) /\
       (forall i j a b, (i < j)%nat ->
          map fst ms !! i = Some a -> map fst ms !! j = Some b -> a < b) /\
       Forall (fun t => (t < demo_parse "100ms")%Q) (removelast (map snd ms)) /\
       (demo_parse "100ms" <= List.last (map snd ms) 0)%Q /\
       (ms = [] <-> (demo_parse "100ms" <= 0)%Q) /\
       result = Math_ceil (nround exact
                  (ndiv (nmul (ndiv (Num (inject_Z (2 ^ Z.of_nat (length ms)))) (Num 2))
                              (Num (demo_parse "100ms")))
                        (Num (List.last (map snd ms) 0%Q))))) /\
  (exists fuel0, forall fuel, (fuel0 <= fuel)%nat ->
     exists result w',
       getIterations demo_parse exact fuel (createInvoker id spin1_case) "100ms" demo_world
         = Some (Ok result, w')).
Proof.
  pose proof (getIterations_calibrates demo_parse exact (createInvoker id spin1_case)
                "100ms" demo_world) as [Hret Hends].
  split.
  - eexists. eexists. split; [vm_compute; reflexivity|].
    split; [reflexivity|]. apply (Hret 8%nat). vm_compute. reflexivity.
  - apply (Hends 1%Q); [reflexivity|].
    apply createInvoker_takes_at_least; [constructor | constructor | apply spin_takes].
Defined.

(** The rounding can move the result.  With a coarse rounding, to the
    multiple of 1/4 below, calls of 1650/5501 ms against 165 ms end the
    pilot at count 1024; the exact quotient is 550.1, its ceiling 551, and
    the ceiling of the rounded quotient 550 is 550. *)
Definition quarters (q : Q) : Q := (inject_Z (Qfloor (q * 4)) / 4)%Q.

Example getIterations_rounded :
  option_map fst
    (getIterations demo_parse quarters 12 (linear_measure (1650 # 5501)) "165ms" demo_world)
  = Some (Ok (Num 550)) /\
  option_map fst
    (getIterations demo_parse exact 12 (linear_measure (1650 # 5501)) "165ms" demo_world)
  = Some (Ok (Num 551)).
Proof. split; vm_compute; reflexivity. Qed.

(** A case with one before-iteration hook and no after-iteration hook. *)
Definition lone_hook_case : @BenchCase Q :=
  {| name := "A"; fn := spin 1; isAsync := false;
     setupHooks := [spin 0]; cleanHooks := [] |}.

(** C2, at the failing input: with a before-hook but no after-hook the
    test [setupHooks.length && cleanHooks.length] is falsy, so the variant
    without hooks is selected and two iterations run the workload twice
    between one pair of clock readings; the before-hook is never called. *)
Theorem createInvoker_lone_before_hook :
  selectInvoker lone_hook_case = NoSetup /\
  events (snd (createInvoker id lone_hook_case 2 demo_world))
    = [EvNow 0; EvWorkload; EvWorkload; EvNow (2 # 1)] /\
  ~ In (EvBefore 0) (events (snd (createInvoker id lone_hook_case 2 demo_world))).
Proof.
  split; [reflexivity |]. split; [vm_compute; reflexivity |].
  vm_compute. intros H. repeat (destruct H as [H|H]; [discriminate H |]). exact H.
Qed.

Lemma createInvoker_without_hooks_witness :
  exists t w',
    createInvoker id lone_hook_case 2 demo_world = (Ok t, w') /\
    selectInvoker lone_hook_case = NoSetup /\
    events w' = events demo_world
      ++ [EvNow (id (user demo_world))]
      ++ replicate (Z.to_nat 2) EvWorkload
      ++ [EvNow (id (user w'))] /\
    t = (id (user w') - id (user demo_world))%Q.
Proof.
  do 2 eexists. split; [vm_compute; reflexivity|].
  eapply (createInvoker_without_hooks id lone_hook_case 2 demo_world).
  - right. reflexivity.
  - vm_compute. reflexivity.
Defined.

(** A case with a before-hook of 5 ms and an after-hook of 7 ms around a
    workload of 1 ms. *)
Definition hooked_case : @BenchCase Q :=
  {| name := "H"; fn := spin 1; isAsync := false;
     setupHooks := [spin 5]; cleanHooks := [spin 7] |}.

Lemma createInvoker_with_both_hooks_witness :
  exists t w',
    createInvoker id hooked_case 2 demo_world = (Ok t, w') /\
    (t == 2)%Q /\
    selectInvoker hooked_case
      = (if isAsync hooked_case then AsyncWithSetup else SyncWithSetup) /\
    exists ts, length ts = Z.to_nat 2 /\
      events w' = events demo_world ++ concat (map (iteration_events hooked_case) ts) /\
      (t == in_workload_time ts)%Q.
Proof.
  do 2 eexists. split; [vm_compute; reflexivity|].
  split; [reflexivity|].
  eapply (createInvoker_with_both_hooks id hooked_case 2 demo_world).
  - discriminate.
  - discriminate.
  - vm_compute. reflexivity.
Defined.

Definition three_samples : SuiteConfig :=
  {| warmup := Some 2; samples := Some 3; iterations := Some (IterCount 4) |}.

Lemma onCase_workload_calls_witness :
  exists m' w',
    onCase id demo_parse exact 0 three_samples hooked_case ∅ demo_world = Some (Ok m', w') /\
    exists evs, events w' = events demo_world ++ evs /\
      Z.of_nat (workload_calls evs)
      = (Z.max 0 (default 5 (warmup three_samples))
         + default 10 (samples three_samples)) * 4.
Proof.
  do 2 eexists. split; [vm_compute; reflexivity|].
  eapply (onCase_workload_calls id demo_parse exact 0 three_samples hooked_case ∅ 4 demo_world).
  - reflexivity.
  - vm_compute. reflexivity.
Defined.

Definition no_samples : SuiteConfig :=
  {| warmup := None; samples := Some 0; iterations := Some (IterCount 0) |}.

Lemma onCase_rejects_bad_counts_witness :
  onCase id demo_parse exact 0 no_samples demo_case ∅ demo_world =
    Some (Throw (Error (if default 10 (samples no_samples) <=? 0
                        then "The number of samples must be at least 1."
                        else "The number of iterations cannot be 0 or negative.")),
          {| user := user demo_world;
             events := events demo_world ++ [EvLog (LBenchmark (name demo_case))] |}).
Proof.
  apply (onCase_rejects_bad_counts id demo_parse exact 0 no_samples demo_case ∅ 0 demo_world).
  - reflexivity.
  - right. reflexivity.
Defined.

Lemma getIterations_result_bounds_witness :
  exists result w',
    getIterations demo_parse exact 8 (createInvoker id spin1_case) "100ms" demo_world
      = Some (Ok result, w') /\
    exists evs init lst n,
      events w' = events demo_world ++ evs /\
      pilot_lines evs = init ++ [lst] /\
      result = Num (inject_Z n) /\
      1 <= n <= snd lst.
Proof.
  do 2 eexists. split; [vm_compute; reflexivity|].
  eapply (getIterations_result_bounds demo_parse exact 8 (createInvoker id spin1_case)
           "100ms" demo_world).
  - exact exact_rounds.
  - apply appends_createInvoker.
  - reflexivity.
  - vm_compute. reflexivity.
Defined.

Lemma getIterations_pilot_bound_witness :
  (forall fuel, (8 <= fuel)%nat ->
     exists result w' evs,
       getIterations demo_parse exact fuel (createInvoker id spin1_case) "100ms" demo_world
         = Some (Ok result, w') /\
       events w' = events demo_world ++ evs /\
       (length (pilot_lines evs) <= 8)%nat) /\
  (forall fuel r w',
     getIterations demo_parse exact fuel (createInvoker id spin1_case) "100ms" demo_world
       = Some (r, w') ->
     exists result evs,
       r = Ok result /\
       events w' = events demo_world ++ evs /\
       (length (pilot_lines evs) <= 8)%nat).
Proof.
  apply (getIterations_pilot_bound demo_parse exact (createInvoker id spin1_case)
           "100ms" 1 7 demo_world).
  - apply appends_createInvoker.
  - apply createInvoker_takes_at_least; [constructor | constructor | apply spin_takes].
  - vm_compute. discriminate.
Defined.

End Time.

(** ** The suite model

    Sources: [Scene] and [BenchCase] of the core suite file, and the
    [BenchCase.invoke] and [Scene.bench] of the client suite file. *)

Module Suite.

(** What [invoke] does, in order: calls of the iteration hooks (by position
    in their array), the call of the workload, and the moment the workload
    is complete (its value is there, it threw, or its promise settled). *)
Inductive Event : Type :=
| EvBeforeHook (i : nat)
| EvAfterHook (i : nat)
| EvCalled
| EvSettled.

(** A name is a string of bytes: the UTF-8 text of its characters.  The
    white space of a regular expression, [\s], is U+0009 to U+000D, U+0020,
    U+00A0, U+1680, U+2000 to U+200A, U+2028, U+2029, U+202F, U+205F, U+3000
    and U+FEFF; the first six are one byte long, U+00A0 is the two bytes
    C2 A0, and the others are three bytes long. *)
Definition is_space (b : N) : bool :=
  ((9 <=? b) && (b <=? 13) || (b =? 32))%N.

Definition is_space2 (b1 b2 : N) : bool :=
  ((b1 =? 194) && (b2 =? 160))%N.

Definition is_space3 (b1 b2 b3 : N) : bool :=
  ((b1 =? 225) && (b2 =? 154) && (b3 =? 128)
   || (b1 =? 226) && (b2 =? 128)
      && ((128 <=? b3) && (b3 <=? 138) || (b3 =? 168) || (b3 =? 169) || (b3 =? 175))
   || (b1 =? 226) && (b2 =? 129) && (b3 =? 159)
   || (b1 =? 227) && (b2 =? 128) && (b3 =? 128)
   || (b1 =? 239) && (b2 =? 187) && (b3 =? 191))%N.

(** A text made of white space only. *)
Fixpoint blank (l : list N) : bool :=
  match l with
  | [] => true
  | b1 :: l1 =>
      if is_space b1 then blank l1 else
      match l1 with
      | [] => false
      | b2 :: l2 =>
          if is_space2 b1 b2 then blank l2 else
          match l2 with
          | [] => false
          | b3 :: l3 => if is_space3 b1 b2 b3 then blank l3 else false
          end
      end
  end.

(** [/^\s*$/.test(name)] *)
Definition isBlank (name : string) : bool :=
  blank (map N_of_ascii (list_ascii_of_string name)).

Definition dquote : string := String (ascii_of_nat 34) EmptyString.

Definition already_exists (name : string) : string :=
  String.append "Case " (String.append dquote
    (String.append name (String.append dquote " already exists."))).

Section Model.
Context {U : Type}.

Record World : Type := { user : U; events : list Event }.

Definition HookFn : Type := U -> Res unit * U.

(** What a call of the workload hands back: a plain value, or a promise that
    is still pending.  The rest of a pending workload runs after the caller
    has gone on; it is run here at the point where the promise is awaited. *)
Inductive Returned : Type :=
| Plain (v : Value)
| Promise (rest : U -> Res Value * U).

Definition Workload : Type := U -> Res Returned * U.

Record BenchCase : Type := {
  name : string;
  fn : Workload;
  beforeHooks : list HookFn;
  afterHooks : list HookFn;
  isAsync : bool;
  id : option nat;
}.

(** [include] is the test of the include pattern, [include.test(name)]. *)
Record Scene : Type := {
  teardownHooks : list HookFn;
  beforeIterHooks : list HookFn;
  afterIterHooks : list HookFn;
  cases : list BenchCase;
  params : list (string * Value);
  include : string -> bool;
}.

Definition emit (e : Event) : M World unit :=
  fun w => (Ok tt, {| user := user w; events := events w ++ [e] |}).

Definition call (f : HookFn) : M World unit :=
  fun w => match f (user w) with
           | (r, u) => (r, {| user := u; events := events w |})
           end.

(** Modelled from the spec: [runFns] of the core utilities and [runHooks] of
    the client utilities, which are not among the sources; the hooks run in
    registration order, each awaited before the next. *)
Definition runFns (kind : nat -> Event) (hooks : list HookFn) : M World unit :=
  forEach (fun ih => emit (kind (fst ih)) ;;; call (snd ih)) (indexed hooks).

(** [this.fn()]: the call itself.  A workload that returns a plain value or
    throws is complete when the call returns. *)
Definition callWorkload (f : Workload) : M World Returned :=
  fun w =>
    let w1 := {| user := user w; events := events w ++ [EvCalled] |} in
    match f (user w1) with
    | (Ok (Promise rest), u) => (Ok (Promise rest), {| user := u; events := events w1 |})
    | (r, u) => (r, {| user := u; events := events w1 ++ [EvSettled] |})
    end.

(** [await x]. *)
Definition await (x : Returned) : M World Value :=
  match x with
  | Plain v => ret v
  | Promise rest =>
      fun w => match rest (user w) with
               | (r, u) => (r, {| user := u; events := events w ++ [EvSettled] |})
               end
  end.

(** [new BenchCase(scene, name, fn, isAsync)]: the hook arrays of the case
    are those of the scene, the same objects
    ([this.beforeHooks = scene.beforeIterHooks]). *)
Definition newBenchCase (sc : Scene) (name : string) (f : Workload) (isAsync : bool)
    : BenchCase :=
  {| name := name; fn := f; beforeHooks := beforeIterHooks sc;
     afterHooks := afterIterHooks sc; isAsync := isAsync; id := None |}.

(** The case with the hook arrays in their present state. *)
Definition with_hooks (before after : list HookFn) (c : BenchCase) : BenchCase :=
  {| name := name c; fn := fn c; beforeHooks := before; afterHooks := after;
     isAsync := isAsync c; id := id c |}.

Definition push_case (sc : Scene) (c : BenchCase) : Scene :=
  {| teardownHooks := teardownHooks sc; beforeIterHooks := beforeIterHooks sc;
     afterIterHooks := afterIterHooks sc; cases := cases sc ++ [c];
     params := params sc; include := include sc |}.

(** [beforeIteration(fn)], [afterIteration(fn)] and [teardown(fn)] push the
    hook on their array.  The cases of a scene are built by [add] and hold
    the two iteration arrays of the scene themselves, not copies: a hook
    pushed on one of them is from then on in the array of every case of the
    scene, also of the cases added before. *)
Definition beforeIteration (h : HookFn) (sc : Scene) : Scene :=
  let hooks := beforeIterHooks sc ++ [h] in
  {| teardownHooks := teardownHooks sc; beforeIterHooks := hooks;
     afterIterHooks := afterIterHooks sc;
     cases := map (fun c => with_hooks hooks (afterHooks c) c) (cases sc);
     params := params sc; include := include sc |}.

Definition afterIteration (h : HookFn) (sc : Scene) : Scene :=
  let hooks := afterIterHooks sc ++ [h] in
  {| teardownHooks := teardownHooks sc; beforeIterHooks := beforeIterHooks sc;
     afterIterHooks := hooks;
     cases := map (fun c => with_hooks (beforeHooks c) hooks c) (cases sc);
     params := params sc; include := include sc |}.

Definition teardown (h : HookFn) (sc : Scene) : Scene :=
  {| teardownHooks := teardownHooks sc ++ [h]; beforeIterHooks := beforeIterHooks sc;
     afterIterHooks := afterIterHooks sc; cases := cases sc;
     params := params sc; include := include sc |}.

(** [Scene.add(name, fn, isAsync)]; the scene is passed along. *)
Definition add (nm : string) (f : Workload) (isAsync : bool) (sc : Scene) : Res Scene :=
  if isBlank nm then Throw (Error "Case name cannot be blank.")
  else if existsb (fun c => String.eqb (name c) nm) (cases sc)
       then Throw (Error (already_exists nm))
  else if include sc nm then Ok (push_case sc (newBenchCase sc nm f isAsync))
  else Ok sc.

Definition bench (nm : string) (f : Workload) : Scene -> Res Scene := add nm f false.

Definition benchAsync (nm : string) (f : Workload) : Scene -> Res Scene := add nm f true.

(** [Scene.bench] of the client suite file: the same three tests; there the
    case derives [isAsync] from the kind of function it is given. *)
Definition bench_client (isAsyncFunction : bool) (nm : string) (f : Workload)
    : Scene -> Res Scene := add nm f isAsyncFunction.

(** [BenchCase.invoke] of the core suite file:
    [await runFns(beforeHooks); try { return await fn() } finally { await runFns(afterHooks) }] *)
Definition invoke (c : BenchCase) : M World Value :=
  runFns EvBeforeHook (beforeHooks c) ;;;
  try_finally (let* x := callWorkload (fn c) in await x)
              (runFns EvAfterHook (afterHooks c)).

(** [BenchCase.invoke] of the client suite file, where the two hook arrays
    are called [setupHooks] and [cleanHooks]:
    [await runHooks(setupHooks); try { return this.fn() } finally { await runHooks(cleanHooks) }].
    The value returned from the [try] is not awaited there; the promise of
    [invoke] settles with it afterwards, which is the final [await]. *)
Definition invoke_client (c : BenchCase) : M World Value :=
  let* x := (runFns EvBeforeHook (beforeHooks c) ;;;
             try_finally (callWorkload (fn c))
                         (runFns EvAfterHook (afterHooks c))) in
  await x.

Definition has_case (nm : string) (sc : Scene) : Prop :=
  exists c, In c (cases sc) /\ name c = nm.

Lemma existsb_name nm sc :
  existsb (fun c => String.eqb (name c) nm) (cases sc) = true <-> has_case nm sc.
Proof.
  rewrite existsb_exists. unfold has_case.
  split; intros (c & Hin & Hc); exists c; split; try assumption.
  - now apply String.eqb_eq.
  - now apply String.eqb_eq.
Qed.

(** C7 (as amended): [add], hence [bench] and [benchAsync], applies the name
    rules before the include pattern.  A blank name is rejected whatever the
    pattern; so is the name of a case that is in the scene; a name that
    passes both rules and does not match the pattern leaves the scene as it
    is, and one that matches is appended.  The duplicate rule looks only at
    the cases that were added: a name that was accepted and filtered out is
    accepted again, with any workload, and the scene stays as it was. *)
Theorem add_name_rules nm f isAsync sc :
  (isBlank nm = true ->
     add nm f isAsync sc = Throw (Error "Case name cannot be blank.")) /\
  (isBlank nm = false -> has_case nm sc ->
     add nm f isAsync sc = Throw (Error (already_exists nm))) /\
  (isBlank nm = false -> ~ has_case nm sc -> include sc nm = false ->
     add nm f isAsync sc = Ok sc) /\
  (isBlank nm = false -> ~ has_case nm sc -> include sc nm = true ->
     add nm f isAsync sc = Ok (push_case sc (newBenchCase sc nm f isAsync))) /\
  (forall sc', add nm f isAsync sc = Ok sc' -> include sc nm = false ->
     sc' = sc /\ forall g async, add nm g async sc' = Ok sc').
Proof.
  unfold add. split; [|split; [|split; [|split]]].
  - intros ->. reflexivity.
  - intros -> Hdup. apply existsb_name in Hdup. now rewrite Hdup.
  - intros -> Hnew Hinc.
    destruct (existsb _ (cases sc)) eqn:E; [apply existsb_name in E; contradiction|].
    now rewrite Hinc.
  - intros -> Hnew Hinc.
    destruct (existsb _ (cases sc)) eqn:E; [apply existsb_name in E; contradiction|].
    now rewrite Hinc.
  - intros sc' H Hinc.
    destruct (isBlank nm); [discriminate|].
    destruct (existsb _ (cases sc)) eqn:E; [discriminate|].
    rewrite Hinc in H. injection H as <-. split; [reflexivity|].
    intros g async. now rewrite E, Hinc.
Qed.

(** *** [invoke] of the core suite file *)

Lemma runFns_from_ok kind (hooks : list HookFn) k w w' :
  forEach (fun ih : nat * HookFn => emit (kind (fst ih)) ;;; call (snd ih))
          (zip (seq k (length hooks)) hooks) w = (Ok tt, w') ->
  events w' = events w ++ map kind (seq k (length hooks)).
Proof.
  revert k w. induction hooks as [|h hooks IH]; intros k w H; simpl in H.
  - injection H as <-. simpl. now rewrite app_nil_r.
  - unfold bind at 1 in H. simpl in H. unfold bind at 1 in H. simpl in H.
    unfold call at 1 in H. simpl in H.
    destruct (h (user w)) as [[[]|e] u]; [|discriminate].
    apply IH in H. simpl in H. rewrite H. simpl. now rewrite <- app_assoc.
Qed.

Lemma runFns_ok kind hooks w w' :
  runFns kind hooks w = (Ok tt, w') ->
  events w' = events w ++ map kind (seq 0 (length hooks)).
Proof. apply runFns_from_ok. Qed.

(** The workload run to completion: called, then awaited. *)
Definition complete (f : Workload) : M World Value :=
  let* x := callWorkload f in await x.

Lemma complete_events f w r w' :
  complete f w = (r, w') -> events w' = events w ++ [EvCalled; EvSettled].
Proof.
  unfold complete, bind, callWorkload. simpl.
  destruct (f (user w)) as [[[v|rest]|e] u]; simpl.
  - intros H. injection H as <- <-. simpl. now rewrite <- app_assoc.
  - destruct (rest u) as [r' u']. intros H. injection H as <- <-. simpl.
    now rewrite <- app_assoc.
  - intros H. injection H as <- <-. simpl. now rewrite <- app_assoc.
Qed.

(** X7: when the before-hooks and the after-hooks return, [invoke] has called
    the before-hooks in order, then run the workload to completion, then
    called the after-hooks in order, whether the workload returned a value,
    threw, or its promise was rejected; and its outcome is the outcome of
    the workload. *)
Lemma invoke_runs_hooks_around c w w1 r w2 w3 :
  runFns EvBeforeHook (beforeHooks c) w = (Ok tt, w1) ->
  complete (fn c) w1 = (r, w2) ->
  runFns EvAfterHook (afterHooks c) w2 = (Ok tt, w3) ->
  invoke c w = (r, w3) /\
  events w3 = events w
    ++ map EvBeforeHook (seq 0 (length (beforeHooks c)))
    ++ [EvCalled; EvSettled]
    ++ map EvAfterHook (seq 0 (length (afterHooks c))).
Proof.
  intros Hb Hw Ha. split.
  - unfold invoke. unfold bind at 1. rewrite Hb. unfold try_finally.
    unfold complete in Hw. rewrite Hw, Ha. reflexivity.
  - apply runFns_ok in Hb, Ha. apply complete_events in Hw.
    rewrite Ha, Hw, Hb. now rewrite <- !app_assoc.
Qed.

(** The hooks run in order up to the first that throws. *)
Lemma runFns_from_throw kind (hooks : list HookFn) k w e w' :
  forEach (fun ih : nat * HookFn => emit (kind (fst ih)) ;;; call (snd ih))
          (zip (seq k (length hooks)) hooks) w = (Throw e, w') ->
  exists i, (i < length hooks)%nat /\
    events w' = events w ++ map kind (seq k (S i)).
Proof.
  revert k w. induction hooks as [|h hooks IH]; intros k w H; simpl in H.
  - discriminate.
  - unfold bind at 1 in H. simpl in H. unfold bind at 1 in H. simpl in H.
    unfold call at 1 in H. simpl in H.
    destruct (h (user w)) as [[[]|e0] u] eqn:Eh.
    + apply IH in H as (i & Hlt & Hev). exists (S i).
      split; [simpl; lia|].
      simpl in Hev. rewrite Hev. simpl. now rewrite <- app_assoc.
    + injection H as <- <-. exists 0%nat. simpl. split; [lia | reflexivity].
Qed.

(** X8: when a before-hook throws, [invoke] (of the core suite file and of
    the client suite file alike) fails with that error at once: the hooks
    before it have run, and neither the later before-hooks, nor the
    workload, nor any after-hook is called. *)
Theorem invoke_before_hook_throws c w e w1 :
  runFns EvBeforeHook (beforeHooks c) w = (Throw e, w1) ->
  invoke c w = (Throw e, w1) /\
  invoke_client c w = (Throw e, w1) /\
  exists i, (i < length (beforeHooks c))%nat /\
    events w1 = events w ++ map EvBeforeHook (seq 0 (S i)).
Proof.
  intros H. split; [|split].
  - unfold invoke, bind. now rewrite H.
  - unfold invoke_client, bind. now rewrite H.
  - apply runFns_from_throw in H as (i & Hlt & Hev). eauto.
Qed.

(** *** The names of the cases of a scene *)

(** The cases of a scene have pairwise different names, none of them blank,
    and all of them matched by the include pattern. *)
Definition well_named (sc : Scene) : Prop :=
  NoDup (map name (cases sc)) /\
  Forall (fun c => isBlank (name c) = false /\ include sc (name c) = true) (cases sc).

Lemma existsb_name_false nm (cs : list BenchCase) :
  existsb (fun c => String.eqb (name c) nm) cs = false -> nm ∉ map name cs.
Proof.
  induction cs as [|c cs IH]; simpl; intros H.
  - apply not_elem_of_nil.
  - apply orb_false_iff in H as [Hc Hcs]. apply not_elem_of_cons. split.
    + intros ->. now rewrite String.eqb_refl in Hc.
    + now apply IH.
Qed.

(** X9: [add] (hence [bench] and [benchAsync]) keeps the cases of a scene
    well named: after a call that returns, the names are still pairwise
    different, non-blank and matched by the include pattern; the cases that
    were there stay in place, and at most one is appended, which has the
    given name, workload and [isAsync]. *)
Theorem add_keeps_well_named nm f async sc sc' :
  well_named sc ->
  add nm f async sc = Ok sc' ->
  well_named sc' /\
  include sc' = include sc /\
  (cases sc' = cases sc \/
   exists c, cases sc' = cases sc ++ [c] /\
     name c = nm /\ fn c = f /\ isAsync c = async).
Proof.
  intros [Hnd Hall] H. unfold add in H.
  destruct (isBlank nm) eqn:Hb; [discriminate|].
  destruct (existsb _ (cases sc)) eqn:Hex; [discriminate|].
  destruct (include sc nm) eqn:Hinc; injection H as <-.
  - split; [|split; [reflexivity | right; eexists; repeat split; reflexivity]].
    split; simpl.
    + rewrite map_app. simpl. apply NoDup_app. split; [exact Hnd|].
      split; [|apply NoDup_singleton].
      intros x Hx Hx'. apply list_elem_of_singleton in Hx'. subst x.
      exact (existsb_name_false _ _ Hex Hx).
    + apply Forall_app. split; [exact Hall|]. constructor; [|constructor].
      simpl. auto.
  - split; [split; assumption|]. split; [reflexivity | left; reflexivity].
Qed.

(** *** The hook arrays of the cases *)

(** Every case of the scene holds the iteration arrays of the scene. *)
Definition shares_hooks (sc : Scene) : Prop :=
  Forall (fun c => beforeHooks c = beforeIterHooks sc /\
                   afterHooks c = afterIterHooks sc) (cases sc).

Lemma add_shares_hooks nm f async sc sc' :
  shares_hooks sc -> add nm f async sc = Ok sc' -> shares_hooks sc'.
Proof.
  intros Hsh H. unfold add in H.
  destruct (isBlank nm); [discriminate|].
  destruct (existsb _ (cases sc)); [discriminate|].
  destruct (include sc nm); injection H as <-; [|exact Hsh].
  apply Forall_app. split; [exact Hsh|].
  constructor; [split; reflexivity | constructor].
Qed.

Lemma beforeIteration_shares_hooks h sc :
  shares_hooks sc -> shares_hooks (beforeIteration h sc).
Proof.
  intros Hsh. unfold shares_hooks, beforeIteration. simpl.
  apply Forall_map. eapply Forall_impl; [exact Hsh|].
  intros c [_ Ha]. split; [reflexivity | exact Ha].
Qed.

Lemma afterIteration_shares_hooks h sc :
  shares_hooks sc -> shares_hooks (afterIteration h sc).
Proof.
  intros Hsh. unfold shares_hooks, afterIteration. simpl.
  apply Forall_map. eapply Forall_impl; [exact Hsh|].
  intros c [Hb _]. split; [exact Hb | reflexivity].
Qed.

End Model.

(** *** Concrete scenes and cases; the user world is a log of strings. *)

Definition say (s : string) : @HookFn (list string) := fun u => (Ok tt, u ++ [s]).

Definition starts_with_A (nm : string) : bool := String.prefix "A" nm.

Definition empty_scene (inc : string -> bool) : @Scene (list string) :=
  {| teardownHooks := []; beforeIterHooks := []; afterIterHooks := [];
     cases := []; params := []; include := inc |}.

Definition sync_workload (s : string) (v : Value) : @Workload (list string) :=
  fun u => (Ok (Plain v), u ++ [s]).

(** An asynchronous workload: the call returns a pending promise, and the
    work is done later. *)
Definition async_workload (s : string) (v : Value) : @Workload (list string) :=
  fun u => (Ok (Promise (fun u' => (Ok v, u' ++ [s]))), u).

(** With the include pattern [/^A/], the name [B] is filtered out, and it is
    accepted a second time: the scene never recorded it. *)
Lemma bench_filtered_duplicate_accepted :
  exists sc1 sc2,
    bench "B" (sync_workload "first" (VNum 1)) (empty_scene starts_with_A) = Ok sc1 /\
    bench "B" (sync_workload "second" (VNum 2)) sc1 = Ok sc2 /\
    cases sc2 = [].
Proof. eexists. eexists. repeat split; reflexivity. Qed.

Example bench_blank_rejected :
  bench "  " (sync_workload "w" (VNum 1)) (empty_scene starts_with_A)
  = Throw (Error "Case name cannot be blank.").
Proof. reflexivity. Qed.

(** The no-break space U+00A0 and the byte order mark U+FEFF, in UTF-8. *)
Definition nbsp : string := String (ascii_of_nat 194) (String (ascii_of_nat 160) "").

Definition bom : string :=
  String (ascii_of_nat 239) (String (ascii_of_nat 187) (String (ascii_of_nat 191) "")).

(** A name of white space beyond ASCII is blank; a name with a letter among
    the white space is not. *)
Example bench_unicode_blank_rejected :
  bench (nbsp +:+ " " +:+ bom) (sync_workload "w" (VNum 1)) (empty_scene starts_with_A)
    = Throw (Error "Case name cannot be blank.") /\
  isBlank (nbsp +:+ "A" +:+ bom) = false /\
  isBlank "" = true.
Proof. repeat split; reflexivity. Qed.

Example bench_duplicate_rejected :
  exists sc1,
    bench "A1" (sync_workload "w" (VNum 1)) (empty_scene starts_with_A) = Ok sc1 /\
    bench "A1" (sync_workload "w" (VNum 2)) sc1 = Throw (Error (already_exists "A1")).
Proof. eexists. split; reflexivity. Qed.

Definition scene_A1 : @Scene (list string) :=
  push_case (empty_scene starts_with_A)
    (newBenchCase (empty_scene starts_with_A) "A1" (sync_workload "w" (VNum 1)) false).

Lemma add_name_rules_witness :
  add "  " (sync_workload "w" (VNum 1)) false scene_A1
    = Throw (Error "Case name cannot be blank.") /\
  add "A1" (sync_workload "w" (VNum 1)) true scene_A1
    = Throw (Error (already_exists "A1")) /\
  add "B" (sync_workload "w" (VNum 1)) false scene_A1 = Ok scene_A1 /\
  add "A2" (sync_workload "w" (VNum 1)) false scene_A1
    = Ok (push_case scene_A1
            (newBenchCase scene_A1 "A2" (sync_workload "w" (VNum 1)) false)) /\
  (forall g async, add "B" g async scene_A1 = Ok scene_A1).
Proof.
  assert (Hnew : forall nm, nm <> "A1" -> ~ has_case nm scene_A1).
  { intros nm Hne (c & [<-|[]] & Hc). now apply Hne. }
  destruct (add_name_rules "  " (sync_workload "w" (VNum 1)) false scene_A1)
    as (Hblank & _).
  destruct (add_name_rules "A1" (sync_workload "w" (VNum 1)) true scene_A1)
    as (_ & Hdup & _).
  destruct (add_name_rules "B" (sync_workload "w" (VNum 1)) false scene_A1)
    as (_ & _ & Hout & _ & Hagain).
  destruct (add_name_rules "A2" (sync_workload "w" (VNum 1)) false scene_A1)
    as (_ & _ & _ & Hin & _).
  split; [apply Hblank; reflexivity|].
  split; [apply Hdup; [reflexivity | eexists; split; [left; reflexivity | reflexivity]]|].
  split; [apply Hout; [reflexivity | apply Hnew; discriminate | reflexivity]|].
  split; [apply Hin; [reflexivity | apply Hnew; discriminate | reflexivity]|].
  apply (Hagain scene_A1); reflexivity.
Defined.

Definition initial : @World (list string) := {| user := []; events := [] |}.

(** A hook registered after a case was added runs with that case: the case
    holds the array of the scene. *)
Example hook_registered_after_bench :
  exists c,
    cases (beforeIteration (say "late") scene_A1) = [c] /\
    invoke c initial
    = (Ok (VNum 1),
       {| user := ["late"; "w"];
          events := [EvBeforeHook 0; EvCalled; EvSettled] |}).
Proof. eexists. split; reflexivity. Qed.

Definition async_case : @BenchCase (list string) :=
  {| name := "B"; fn := async_workload "bench B" (VNum 7);
     beforeHooks := [say "before"]; afterHooks := [say "after"];
     isAsync := true; id := None |}.

(** The core [invoke] on an asynchronous workload: the after-hook runs once
    the promise has settled. *)
Example invoke_async_case :
  invoke async_case initial
  = (Ok (VNum 7),
     {| user := ["before"; "bench B"; "after"];
        events := [EvBeforeHook 0; EvCalled; EvSettled; EvAfterHook 0] |}).
Proof. reflexivity. Qed.

(** C8, at the failing input: [invoke] of the client suite file on a
    workload that returns a pending promise.  [return this.fn()] leaves the
    [try] block with the promise still pending, so the after-hook runs
    before the workload is complete. *)
Theorem invoke_client_after_hook_before_completion :
  invoke_client async_case initial
  = (Ok (VNum 7),
     {| user := ["before"; "after"; "bench B"];
        events := [EvBeforeHook 0; EvCalled; EvAfterHook 0; EvSettled] |}).
Proof. reflexivity. Qed.

(** A workload whose promise is rejected. *)
Definition rejecting_workload : @Workload (list string) :=
  fun u => (Ok (Promise (fun u' => (Throw (Error "rejected"), u' ++ ["work"]))), u).

Definition rejecting_case : @BenchCase (list string) :=
  {| name := "R"; fn := rejecting_workload;
     beforeHooks := [say "before 1"; say "before 2"]; afterHooks := [say "after"];
     isAsync := true; id := None |}.

Lemma invoke_runs_hooks_around_witness :
  exists w1 w2 w3,
    runFns EvBeforeHook (beforeHooks rejecting_case) initial = (Ok tt, w1) /\
    complete (fn rejecting_case) w1 = (Throw (Error "rejected"), w2) /\
    runFns EvAfterHook (afterHooks rejecting_case) w2 = (Ok tt, w3) /\
    user w3 = ["before 1"; "before 2"; "work"; "after"] /\
    invoke rejecting_case initial = (Throw (Error "rejected"), w3) /\
    events w3 = events initial
      ++ map EvBeforeHook (seq 0 (length (beforeHooks rejecting_case)))
      ++ [EvCalled; EvSettled]
      ++ map EvAfterHook (seq 0 (length (afterHooks rejecting_case))).
Proof.
  do 3 eexists.
  split; [vm_compute; reflexivity|].
  split; [vm_compute; reflexivity|].
  split; [vm_compute; reflexivity|].
  split; [reflexivity|].
  eapply (invoke_runs_hooks_around rejecting_case initial); vm_compute; reflexivity.
Defined.

Definition failing_hook : @HookFn (list string) :=
  fun u => (Throw (Error "hook failed"), u ++ ["failing"]).

(** A case whose second before-hook throws. *)
Definition guarded_case : @BenchCase (list string) :=
  {| name := "G"; fn := sync_workload "work" (VNum 1);
     beforeHooks := [say "before 1"; failing_hook; say "before 3"];
     afterHooks := [say "after"];
     isAsync := false; id := None |}.

Lemma invoke_before_hook_throws_witness :
  exists w1,
    runFns EvBeforeHook (beforeHooks guarded_case) initial
      = (Throw (Error "hook failed"), w1) /\
    user w1 = ["before 1"; "failing"] /\
    invoke guarded_case initial = (Throw (Error "hook failed"), w1) /\
    invoke_client guarded_case initial = (Throw (Error "hook failed"), w1) /\
    exists i, (i < length (beforeHooks guarded_case))%nat /\
      events w1 = events initial ++ map EvBeforeHook (seq 0 (S i)).
Proof.
  eexists. split; [vm_compute; reflexivity|]. split; [reflexivity|].
  eapply (invoke_before_hook_throws guarded_case initial). vm_compute. reflexivity.
Defined.

Lemma scene_A1_well_named : well_named scene_A1.
Proof.
  split; simpl.
  - apply NoDup_singleton.
  - constructor; [split; reflexivity | constructor].
Qed.

Lemma add_keeps_well_named_witness :
  exists sc',
    add "A2" (sync_workload "w" (VNum 2)) false scene_A1 = Ok sc' /\
    map name (cases sc') = ["A1"; "A2"] /\
    well_named sc' /\
    include sc' = include scene_A1 /\
    (cases sc' = cases scene_A1 \/
     exists c, cases sc' = cases scene_A1 ++ [c] /\
       name c = "A2" /\ fn c = sync_workload "w" (VNum 2) /\ isAsync c = false).
Proof.
  eexists. split; [reflexivity|]. split; [reflexivity|].
  apply (add_keeps_well_named "A2" (sync_workload "w" (VNum 2)) false scene_A1).
  - exact scene_A1_well_named.
  - reflexivity.
Defined.

End Suite.

(** ** The profiling driver

    Source: [ProfilingContext] of the core profiling file ([run],
    [runScene], [runHooks], [note], [defineMetric]). *)

Module Profiling.
Import Suite.

Definition Params : Type := list (string * Value).

Definition Metrics : Type := gmap string MetricValue.

Inductive LogType : Type := LDebug | LInfo | LWarn.

Inductive NoteType : Type := NInfo | NWarn.

Record Note : Type := { type : NoteType; text : string; caseId : option nat }.

Inductive MetricAnalysis : Type := ANone | ACompare | AStatistics.

Record MetricMeta : Type := {
  key : string;
  format : option string;
  analysis : option MetricAnalysis;
  lowerIsBetter : option bool;
}.

(** What a profiler does to the context through its methods:
    [ctx.note(type, text, case_)], [ctx.defineMetric(description)] and
    [ctx.warn / info / debug (message)]. *)
Inductive Cmd : Type :=
| CmdNote (t : NoteType) (text : string) (caseId : option nat)
| CmdDefineMetric (d : MetricMeta)
| CmdLog (level : LogType) (message : option string).

(** The calls the driver makes, in order.  Profilers are named by their
    position in the [profilers] array, scenes by their parameters, cases by
    name and id, teardown hooks by position. *)
Inductive Call : Type :=
| COnStart (p : nat)
| CSetup (params : Params)
| COnScene (params : Params) (p : nat)
| COnCase (params : Params) (caseName : string) (caseId : nat) (p : nat)
| CTeardown (params : Params) (i : nat)
| COnFinish (p : nat).

(** Modelled from the spec: [cartesianObject] of the utilities package, the
    cross-product of the parameter entries; the first parameter advances
    slowest, and no parameters give the single empty assignment. *)
Fixpoint cartesianObject (src : list (string * list Value)) : list Params :=
  match src with
  | [] => [[]]
  | (k, vs) :: rest =>
      flat_map (fun v => map (cons (k, v)) (cartesianObject rest)) vs
  end.

(** Modelled from the spec: the options of the time profiler, whose file is
    not among the sources; the runner only hands them to the constructor of
    that profiler. *)
Record TimeProfilerOptions : Type := {
  warmup : option Z;
  samples : option Z;
  iterations : option Time.Iterations;
  unrollFactor : option Z;
  evaluateOverhead : option bool;
  throughput : option string;
}.

(** Modelled from the spec: the options of the validator; [equality] asks
    for the comparison of the values the cases of a scene return. *)
Record ValidateOptions : Type := { equality : bool }.

Definition note_log (t : NoteType) : LogType :=
  match t with NInfo => LInfo | NWarn => LWarn end.

Section Driver.
Context {U : Type}.

(** The outcome of a profiler method: its result, the user world it leaves,
    and the context methods it called, in order. *)
Definition Out (A : Type) : Type := Res A * U * list Cmd.

Record Profiler : Type := {
  onStart : option (U -> Out unit);
  onScene : option (@Scene U -> U -> Out unit);
  onCase : option (@BenchCase U -> Metrics -> U -> Out Metrics);
  onFinish : option (U -> Out unit);
}.

(** The fields of [NormalizedSuite] the driver and the runner read.
    [setup(scene)] registers cases and hooks on the scene it is given; the
    scene it leaves is returned even when it throws. *)
Record NormalizedSuite : Type := {
  params : list (string * list Value);
  paramNames : list (string * list string);
  setup : @Scene U -> U -> Res unit * (@Scene U * U);
  beforeAll : option (@HookFn U);
  afterAll : option (@HookFn U);
  suite_profilers : option (list (option Profiler));
  timing : option TimeProfilerOptions;
  validate : option ValidateOptions;
  baseline : option (string * Value);
}.

(** The mutable state of a [ProfilingContext], the log it has written, the
    calls it has made, and the world of the user code. *)
Record Ctx : Type := {
  scenes : list (gmap string Metrics);
  notes : list Note;
  meta : gmap string MetricMeta;
  hasRun : bool;
  caseIndex : nat;
  logs : list (LogType * option string);
  calls : list Call;
  user : U;
}.

Definition set_user (u : U) (c : Ctx) : Ctx :=
  {| scenes := scenes c; notes := notes c; meta := meta c; hasRun := hasRun c;
     caseIndex := caseIndex c; logs := logs c; calls := calls c; user := u |}.

Definition set_scenes (l : list (gmap string Metrics)) (c : Ctx) : Ctx :=
  {| scenes := l; notes := notes c; meta := meta c; hasRun := hasRun c;
     caseIndex := caseIndex c; logs := logs c; calls := calls c; user := user c |}.

Definition set_hasRun (b : bool) (c : Ctx) : Ctx :=
  {| scenes := scenes c; notes := notes c; meta := meta c; hasRun := b;
     caseIndex := caseIndex c; logs := logs c; calls := calls c; user := user c |}.

Definition set_caseIndex (n : nat) (c : Ctx) : Ctx :=
  {| scenes := scenes c; notes := notes c; meta := meta c; hasRun := hasRun c;
     caseIndex := n; logs := logs c; calls := calls c; user := user c |}.

Definition add_call (e : Call) (c : Ctx) : Ctx :=
  {| scenes := scenes c; notes := notes c; meta := meta c; hasRun := hasRun c;
     caseIndex := caseIndex c; logs := logs c; calls := calls c ++ [e]; user := user c |}.

Definition logHandler (message : option string) (level : LogType) (c : Ctx) : Ctx :=
  {| scenes := scenes c; notes := notes c; meta := meta c; hasRun := hasRun c;
     caseIndex := caseIndex c; logs := logs c ++ [(level, message)];
     calls := calls c; user := user c |}.

(** [defineMetric(description)]: [this.meta[description.key] = description]. *)
Definition defineMetric (d : MetricMeta) (c : Ctx) : Ctx :=
  {| scenes := scenes c; notes := notes c; meta := <[key d := d]> (meta c);
     hasRun := hasRun c; caseIndex := caseIndex c; logs := logs c;
     calls := calls c; user := user c |}.

(** [note(type, text, case_)]: push the note, then log the text. *)
Definition note (t : NoteType) (txt : string) (cid : option nat) (c : Ctx) : Ctx :=
  logHandler (Some txt) (note_log t)
    {| scenes := scenes c;
       notes := notes c ++ [{| type := t; text := txt; caseId := cid |}];
       meta := meta c; hasRun := hasRun c; caseIndex := caseIndex c;
       logs := logs c; calls := calls c; user := user c |}.

Definition apply_cmd (c : Ctx) (cmd : Cmd) : Ctx :=
  match cmd with
  | CmdNote t txt cid => note t txt cid c
  | CmdDefineMetric d => defineMetric d c
  | CmdLog level message => logHandler message level c
  end.

Definition emit (e : Call) : M Ctx unit := fun c => (Ok tt, add_call e c).

Definition callProfiler {A} (f : U -> Out A) : M Ctx A :=
  fun c => match f (user c) with
           | (r, u, cmds) => (r, fold_left apply_cmd cmds (set_user u c))
           end.

Definition callHook (h : @HookFn U) : M Ctx unit :=
  fun c => match h (user c) with (r, u) => (r, set_user u c) end.

Variable suite : NormalizedSuite.
Variable profilers : list Profiler.
Variable pattern : string -> bool.

(** [runHooks(name, ...args)]:
    [for (const profiler of this.profilers) await profiler[name]?.(this, ...args)]. *)
Definition runHooks (hook : Profiler -> option (U -> Out unit)) (ev : nat -> Call)
    : M Ctx unit :=
  forEach (fun ip => match hook (snd ip) with
                     | None => ret tt
                     | Some h => emit (ev (fst ip)) ;;; callProfiler h
                     end) (indexed profilers).

(** [runHooks("onCase", case_, metrics)]: every profiler works on the same
    [metrics] object, which is passed from one to the next. *)
Fixpoint runHooks_onCase (ps : list (nat * Profiler)) (ev : nat -> Call)
    (c : @BenchCase U) (metrics : Metrics) : M Ctx Metrics :=
  match ps with
  | [] => ret metrics
  | ip :: ps' =>
      match onCase (snd ip) with
      | None => runHooks_onCase ps' ev c metrics
      | Some h =>
          emit (ev (fst ip)) ;;;
          let* metrics' := callProfiler (h c metrics) in
          runHooks_onCase ps' ev c metrics'
      end
  end.

(** Modelled from the spec: the constructor of the scene the driver builds,
    [new Scene(params, this)]; the [Scene] class among the sources takes the
    include pattern, which the driver holds as [pattern]. *)
Definition newScene (ps : Params) : @Scene U :=
  {| teardownHooks := []; beforeIterHooks := []; afterIterHooks := [];
     cases := []; Suite.params := ps; include := pattern |}.

Definition callSetup (sc : @Scene U) : M Ctx (@Scene U) :=
  fun c => match setup suite sc (user c) with
           | (Ok _, (sc', u)) => (Ok sc', set_user u c)
           | (Throw e, (_, u)) => (Throw e, set_user u c)
           end.

(** [const results = {}; this.scenes.push(results)]: the position of the
    record in [scenes] stands for the object. *)
Definition pushResults : M Ctx nat :=
  fun c => (Ok (length (scenes c)), set_scenes (scenes c ++ [∅]) c).

(** [results[case_.name] = metrics] on the record at [slot]. *)
Definition setResult (slot : nat) (nm : string) (metrics : Metrics) : M Ctx unit :=
  fun c => (Ok tt, set_scenes (alter (insert nm metrics) slot (scenes c)) c).

(** [case_.id = this.caseIndex++]. *)
Definition nextId : M Ctx nat :=
  fun c => (Ok (caseIndex c), set_caseIndex (S (caseIndex c)) c).

Definition with_id (c : @BenchCase U) (i : nat) : @BenchCase U :=
  {| name := name c; fn := fn c; beforeHooks := beforeHooks c;
     afterHooks := afterHooks c; isAsync := isAsync c; id := Some i |}.

Definition runCase (ps : Params) (slot : nat) (c : @BenchCase U) : M Ctx unit :=
  let* i := nextId in
  let c' := with_id c i in
  let* metrics := runHooks_onCase (indexed profilers) (COnCase ps (name c') i) c' ∅ in
  setResult slot (name c') metrics.

(** The [try] block of [runScene]. *)
Definition sceneBody (ps : Params) (sc : @Scene U) : M Ctx unit :=
  runHooks (fun p => option_map (fun h => h sc) (onScene p)) (COnScene ps) ;;;
  let* slot := pushResults in
  forEach (runCase ps slot) (cases sc).

(** Modelled from the spec: [runFns(scene.teardownHooks)] of the core
    utilities, which are not among the sources; the hooks run in
    registration order, each awaited before the next. *)
Definition runTeardown (ps : Params) (sc : @Scene U) : M Ctx unit :=
  forEach (fun ih => emit (CTeardown ps (fst ih)) ;;; callHook (snd ih))
          (indexed (teardownHooks sc)).

Definition runScene (ps : Params) : M Ctx unit :=
  emit (CSetup ps) ;;;
  let* sc := callSetup (newScene ps) in
  try_finally (sceneBody ps sc) (runTeardown ps sc).

Definition run : M Ctx unit :=
  fun c =>
    if hasRun c then (Throw (Error "A ProfilingContext can only be run once."), c)
    else
      (runHooks onStart COnStart ;;;
       forEach runScene (cartesianObject (params suite)) ;;;
       runHooks onFinish COnFinish) (set_hasRun true c).

(** *** What the calls of user code leave alone *)

Lemma apply_cmds_frame cmds c :
  let c' := fold_left apply_cmd cmds c in
  scenes c' = scenes c /\ hasRun c' = hasRun c /\ caseIndex c' = caseIndex c /\
  calls c' = calls c /\ user c' = user c.
Proof.
  revert c. induction cmds as [|cmd cmds IH]; intros c; simpl; [tauto|].
  destruct (IH (apply_cmd c cmd)) as (H1 & H2 & H3 & H4 & H5).
  rewrite H1, H2, H3, H4, H5. destruct cmd; simpl; tauto.
Qed.

Lemma callProfiler_frame {A} (f : U -> Out A) c r c' :
  callProfiler f c = (r, c') ->
  scenes c' = scenes c /\ caseIndex c' = caseIndex c /\ calls c' = calls c.
Proof.
  unfold callProfiler. destruct (f (user c)) as [[r0 u] cmds]. intros H.
  injection H as <- <-.
  destruct (apply_cmds_frame cmds (set_user u c)) as (H1 & _ & H3 & H4 & _).
  now rewrite H1, H3, H4.
Qed.

Lemma callHook_frame h c r c' :
  callHook h c = (r, c') ->
  scenes c' = scenes c /\ caseIndex c' = caseIndex c /\ calls c' = calls c /\
  notes c' = notes c /\ meta c' = meta c.
Proof.
  unfold callHook. destruct (h (user c)) as [r0 u]. intros H.
  injection H as <- <-. simpl. tauto.
Qed.

(** The positions of the profilers that define a hook. *)
Fixpoint hooked {A} (hook : Profiler -> option A) (ips : list (nat * Profiler))
    : list nat :=
  match ips with
  | [] => []
  | ip :: ips' =>
      match hook (snd ip) with
      | Some _ => fst ip :: hooked hook ips'
      | None => hooked hook ips'
      end
  end.

Lemma hooked_option_map {A B} (hook : Profiler -> option A) (g : A -> B) ips :
  hooked (fun p => option_map g (hook p)) ips = hooked hook ips.
Proof.
  induction ips as [|ip ips IH]; simpl; [reflexivity|].
  destruct (hook (snd ip)); simpl; now rewrite IH.
Qed.

(** [hooked] lists, in increasing order and without repetition, exactly the
    positions of the profilers that define the hook. *)
Lemma hooked_from_spec {A} (hook : Profiler -> option A) ps k i :
  i ∈ hooked hook (zip (seq k (length ps)) ps) <->
  (k <= i)%nat /\ exists p, ps !! (i - k)%nat = Some p /\ is_Some (hook p).
Proof.
  revert k. induction ps as [|p ps IH]; intros k; simpl.
  - split; [intros H; inversion H | intros (_ & q & Hq & _); discriminate].
  - assert (Hrest : i ∈ hooked hook (zip (seq (S k) (length ps)) ps) <->
                    (k < i)%nat /\ exists q, (p :: ps) !! (i - k)%nat = Some q
                                              /\ is_Some (hook q)).
    { rewrite IH. split.
      - intros (Hle & q & Hq & Hs). split; [lia|]. exists q. split; [|exact Hs].
        replace (i - k)%nat with (S (i - S k)) by lia. exact Hq.
      - intros (Hlt & q & Hq & Hs). split; [lia|]. exists q. split; [|exact Hs].
        replace (i - k)%nat with (S (i - S k)) in Hq by lia. exact Hq. }
    destruct (hook p) as [a|] eqn:Hp.
    + rewrite elem_of_cons, Hrest. split.
      * intros [->|(Hlt & Hq)]; [|split; [lia | exact Hq]].
        split; [lia|]. exists p. rewrite Nat.sub_diag. split; [reflexivity|].
        rewrite Hp. eauto.
      * intros (Hle & q & Hq & Hs). destruct (decide (i = k)) as [->|Hne]; [now left|].
        right. split; [lia|]. eauto.
    + rewrite Hrest. split.
      * intros (Hlt & Hq). split; [lia | exact Hq].
      * intros (Hle & q & Hq & Hs). destruct (decide (i = k)) as [->|Hne].
        { rewrite Nat.sub_diag in Hq. injection Hq as <-. rewrite Hp in Hs.
          destruct Hs as [? Hs]. discriminate Hs. }
        split; [lia|]. eauto.
Qed.

Lemma hooked_spec {A} (hook : Profiler -> option A) ps i :
  i ∈ hooked hook (indexed ps) <-> exists p, ps !! i = Some p /\ is_Some (hook p).
Proof.
  unfold indexed. rewrite hooked_from_spec, Nat.sub_0_r. split.
  - now intros (_ & H).
  - intros H. split; [lia | exact H].
Qed.

Lemma hooked_from_NoDup {A} (hook : Profiler -> option A) ps k :
  NoDup (hooked hook (zip (seq k (length ps)) ps)).
Proof.
  revert k. induction ps as [|p ps IH]; intros k; simpl; [constructor|].
  destruct (hook p); [|apply IH]. constructor; [|apply IH].
  rewrite hooked_from_spec. intros (Hle & _). lia.
Qed.

Lemma hooked_NoDup {A} (hook : Profiler -> option A) ps :
  NoDup (hooked hook (indexed ps)).
Proof. apply hooked_from_NoDup. Qed.

Lemma runHooks_list_ok (hook : Profiler -> option (U -> Out unit)) ev ips c c' :
  forEach (fun ip : nat * Profiler =>
             match hook (snd ip) with
             | None => ret tt
             | Some h => emit (ev (fst ip)) ;;; callProfiler h
             end) ips c = (Ok tt, c') ->
  calls c' = calls c ++ map ev (hooked hook ips) /\
  scenes c' = scenes c /\ caseIndex c' = caseIndex c.
Proof.
  revert c. induction ips as [|ip ips IH]; intros c H; simpl in H.
  - injection H as <-. simpl. now rewrite app_nil_r.
  - apply bind_inv_ok in H as ([] & c1 & H1 & H). apply IH in H as (Hc & Hs & Hi).
    simpl. destruct (hook (snd ip)) as [h|].
    + apply bind_inv_ok in H1 as ([] & c0 & H0 & H1). injection H0 as <-.
      apply callProfiler_frame in H1 as (Hs1 & Hi1 & Hc1). simpl in *.
      rewrite Hc, Hs, Hi, Hs1, Hi1, Hc1. now rewrite <- app_assoc.
    + injection H1 as <-. tauto.
Qed.

Lemma profiler_hooks_ok hook ev c c' :
  runHooks hook ev c = (Ok tt, c') ->
  calls c' = calls c ++ map ev (hooked hook (indexed profilers)) /\
  scenes c' = scenes c /\ caseIndex c' = caseIndex c.
Proof. apply runHooks_list_ok. Qed.

Lemma runHooks_onCase_ok ips ev bc metrics c m' c' :
  runHooks_onCase ips ev bc metrics c = (Ok m', c') ->
  calls c' = calls c ++ map ev (hooked onCase ips) /\
  scenes c' = scenes c /\ caseIndex c' = caseIndex c.
Proof.
  revert metrics c. induction ips as [|ip ips IH]; intros metrics c H; simpl in H.
  - injection H as <- <-. simpl. now rewrite app_nil_r.
  - simpl. destruct (onCase (snd ip)) as [h|]; [|now apply IH in H].
    apply bind_inv_ok in H as ([] & c0 & H0 & H). injection H0 as <-.
    apply bind_inv_ok in H as (m1 & c1 & H1 & H).
    apply callProfiler_frame in H1 as (Hs1 & Hi1 & Hc1).
    apply IH in H as (Hc & Hs & Hi). simpl in *.
    rewrite Hc, Hs, Hi, Hs1, Hi1, Hc1. now rewrite <- app_assoc.
Qed.

Lemma runHooks_onCase_scenes ips ev bc metrics c r c' :
  runHooks_onCase ips ev bc metrics c = (r, c') -> scenes c' = scenes c.
Proof.
  revert metrics c. induction ips as [|ip ips IH]; intros metrics c H; simpl in H.
  - now injection H as <- <-.
  - destruct (onCase (snd ip)) as [h|]; [|now apply IH in H].
    unfold bind at 1 in H. simpl in H. unfold bind at 1 in H.
    destruct (callProfiler (h bc metrics) (add_call (ev (fst ip)) c)) as [[m|e] c1] eqn:E;
      apply callProfiler_frame in E as (Hs & _ & _); simpl in *.
    + apply IH in H. now rewrite H.
    + now injection H as <- <-.
Qed.

(** The cases that were processed are recorded, by name, in the record the
    scene pushed. *)
Lemma runCases_record ps base results cs c c' :
  forEach (runCase ps (length base)) cs c = (Ok tt, c') ->
  scenes c = base ++ [results] ->
  exists results', scenes c' = base ++ [results'] /\
    dom results' = dom results ∪ list_to_set (name <$> cs).
Proof.
  revert results c. induction cs as [|bc cs IH]; intros results c H Hs; simpl in H.
  - injection H as <-. exists results. split; [exact Hs | set_solver].
  - apply bind_inv_ok in H as ([] & c3 & H1 & H).
    unfold runCase in H1.
    apply bind_inv_ok in H1 as (i & c1 & Hn & H1). injection Hn as <- <-.
    apply bind_inv_ok in H1 as (m & c2 & Hh & H1). injection H1 as <-.
    apply runHooks_onCase_scenes in Hh. simpl in Hh.
    apply (IH (<[name bc := m]> results)) in H as (results' & Hs' & Hd).
    + exists results'. split; [exact Hs'|]. rewrite Hd, dom_insert_L. simpl. set_solver.
    + simpl. rewrite Hh, Hs.
      rewrite alter_app_r_alt by lia. now rewrite Nat.sub_diag.
Qed.

(** The calls of one scene that runs to its end: [setup], the [onScene]
    hooks, the [onCase] hooks of each case in registration order with
    consecutive ids from [firstId], then the teardown hooks. *)
Fixpoint case_calls (ps : Params) (firstId : nat) (cs : list (@BenchCase U))
    : list Call :=
  match cs with
  | [] => []
  | c :: cs' =>
      map (COnCase ps (name c) firstId) (hooked onCase (indexed profilers))
      ++ case_calls ps (S firstId) cs'
  end.

Definition scene_calls (firstId : nat) (ps : Params) (sc : @Scene U) : list Call :=
  [CSetup ps]
  ++ map (COnScene ps) (hooked onScene (indexed profilers))
  ++ case_calls ps firstId (cases sc)
  ++ map (CTeardown ps) (seq 0 (length (teardownHooks sc))).

Fixpoint scenes_calls (firstId : nat) (l : list (Params * @Scene U)) : list Call :=
  match l with
  | [] => []
  | (ps, sc) :: l' =>
      scene_calls firstId ps sc ++ scenes_calls (firstId + length (cases sc)) l'
  end.

Lemma runCases_ok ps slot cs c c' :
  forEach (runCase ps slot) cs c = (Ok tt, c') ->
  calls c' = calls c ++ case_calls ps (caseIndex c) cs /\
  caseIndex c' = (caseIndex c + length cs)%nat.
Proof.
  revert c. induction cs as [|bc cs IH]; intros c H; simpl in H.
  - injection H as <-. simpl. rewrite app_nil_r. split; [reflexivity | lia].
  - apply bind_inv_ok in H as ([] & c3 & H1 & H). apply IH in H as (Hc & Hi).
    unfold runCase in H1.
    apply bind_inv_ok in H1 as (i & c1 & Hn & H1). injection Hn as <- <-.
    apply bind_inv_ok in H1 as (m & c2 & Hh & H1). injection H1 as <-.
    apply runHooks_onCase_ok in Hh as (Hc2 & _ & Hi2). simpl in *.
    rewrite Hc, Hi, Hc2, Hi2. split; [now rewrite <- app_assoc | lia].
Qed.

Lemma runTeardown_from_ok ps (hooks : list (@HookFn U)) k c c' :
  forEach (fun ih : nat * @HookFn U => emit (CTeardown ps (fst ih)) ;;; callHook (snd ih))
          (zip (seq k (length hooks)) hooks) c = (Ok tt, c') ->
  calls c' = calls c ++ map (CTeardown ps) (seq k (length hooks)) /\
  caseIndex c' = caseIndex c /\ scenes c' = scenes c /\
  notes c' = notes c /\ meta c' = meta c.
Proof.
  revert k c. induction hooks as [|h hooks IH]; intros k c H; simpl in H.
  - injection H as <-. simpl. rewrite app_nil_r. tauto.
  - apply bind_inv_ok in H as ([] & c2 & H1 & H).
    apply bind_inv_ok in H1 as ([] & c1 & H0 & H1). injection H0 as <-.
    apply callHook_frame in H1 as (Hs1 & Hi1 & Hc1 & Hn1 & Hm1).
    apply IH in H as (Hc & Hi & Hs & Hn & Hm). simpl in *.
    rewrite Hc, Hi, Hs, Hn, Hm, Hs1, Hi1, Hc1, Hn1, Hm1.
    now rewrite <- app_assoc.
Qed.

(** The record of a scene holds exactly its cases. *)
Definition records (sc : @Scene U) (results : gmap string Metrics) : Prop :=
  dom results = list_to_set (name <$> cases sc).

Lemma runScene_ok ps c c' :
  runScene ps c = (Ok tt, c') ->
  exists sc results,
    calls c' = calls c ++ scene_calls (caseIndex c) ps sc /\
    caseIndex c' = (caseIndex c + length (cases sc))%nat /\
    scenes c' = scenes c ++ [results] /\ records sc results /\
    exists u, setup suite (newScene ps) (user c) = (Ok tt, (sc, u)).
Proof.
  intros H. unfold runScene in H.
  apply bind_inv_ok in H as ([] & c0 & H0 & H). injection H0 as <-.
  apply bind_inv_ok in H as (sc & c1 & Hs & H).
  assert (Hs' : calls c1 = calls c ++ [CSetup ps] /\ caseIndex c1 = caseIndex c
                /\ scenes c1 = scenes c
                /\ exists u, setup suite (newScene ps) (user c) = (Ok tt, (sc, u))).
  { unfold callSetup in Hs. simpl in Hs.
    destruct (setup suite (newScene ps) (user c)) as [[[]|e] [sc' u]];
      [|discriminate Hs]. injection Hs as <- <-. simpl. eauto. }
  destruct Hs' as (Hc1 & Hi1 & Hsc1 & Hsetup).
  unfold try_finally in H.
  destruct (sceneBody ps sc c1) as [rb c2] eqn:Hb.
  destruct (runTeardown ps sc c2) as [[[]|e] c3] eqn:Ht; [|discriminate].
  injection H as -> <-.
  unfold sceneBody in Hb.
  apply bind_inv_ok in Hb as ([] & c1a & Hh & Hb).
  apply runHooks_list_ok in Hh as (Hca & Hsa & Hia).
  apply bind_inv_ok in Hb as (slot & c1b & Hp & Hb). injection Hp as <- <-.
  pose proof (runCases_record ps (scenes c1a) ∅ _ _ _ Hb eq_refl) as (results & Hres & Hdom).
  apply runCases_ok in Hb as (Hcb & Hib). simpl in Hcb, Hib.
  apply runTeardown_from_ok in Ht as (Hc3 & Hi3 & Hs3 & _).
  exists sc, results. unfold scene_calls. split; [|split; [|split; [|split]]].
  - rewrite Hc3, Hcb, Hca, Hc1, Hia, Hi1, hooked_option_map. now rewrite <- !app_assoc.
  - rewrite Hi3, Hib, Hia, Hi1. reflexivity.
  - now rewrite Hs3, Hres, Hsa, Hsc1.
  - unfold records. rewrite Hdom, dom_empty_L. apply (left_id_L ∅ (∪)).
  - exact Hsetup.
Qed.

Lemma runScenes_ok combs c c' :
  forEach runScene combs c = (Ok tt, c') ->
  exists scs ress, length scs = length combs /\
    calls c' = calls c ++ scenes_calls (caseIndex c) (zip combs scs) /\
    scenes c' = scenes c ++ ress /\ Forall2 records scs ress.
Proof.
  revert c. induction combs as [|ps combs IH]; intros c H; simpl in H.
  - injection H as <-. exists [], []. simpl. rewrite !app_nil_r. repeat split. constructor.
  - apply bind_inv_ok in H as ([] & c1 & H1 & H).
    apply runScene_ok in H1 as (sc & results & Hc1 & Hi1 & Hs1 & Hrec & _).
    apply IH in H as (scs & ress & Hlen & Hc & Hs & Hall).
    exists (sc :: scs), (results :: ress). simpl. split; [now rewrite Hlen|].
    split; [rewrite Hc, Hc1, Hi1; now rewrite <- app_assoc|].
    split; [rewrite Hs, Hs1; now rewrite <- app_assoc | now constructor].
Qed.

(** *** The invocations of a run *)

(** A call of user code together with what it is applied to: the scene
    [setup] leaves, the scene given to [onScene], the case (with its id)
    given to [onCase], the scene whose teardown hook is called. *)
Inductive Invocation : Type :=
| IStart (p : nat)
| ISetup (ps : Params) (sc : @Scene U)
| IScene (ps : Params) (sc : @Scene U) (p : nat)
| ICase (ps : Params) (bc : @BenchCase U) (p : nat)
| ITeardown (ps : Params) (sc : @Scene U) (i : nat)
| IFinish (p : nat).

(** The entry of [calls] for an invocation. *)
Definition call_of (i : Invocation) : Call :=
  match i with
  | IStart p => COnStart p
  | ISetup ps _ => CSetup ps
  | IScene ps _ p => COnScene ps p
  | ICase ps bc p => COnCase ps (name bc) (default 0%nat (id bc)) p
  | ITeardown ps _ i => CTeardown ps i
  | IFinish p => COnFinish p
  end.

(** The invocation is made at the user world [u]: the function it names --
    the hook of the profiler at position [p], the [setup] of the suite on a
    new scene, the teardown hook at position [i] -- is applied to [u],
    returns, and leaves the user world [u']. *)
Definition performs (i : Invocation) (u u' : U) : Prop :=
  match i with
  | IStart p =>
      exists pr h cmds, profilers !! p = Some pr /\ onStart pr = Some h /\
        h u = (Ok tt, u', cmds)
  | ISetup ps sc => setup suite (newScene ps) u = (Ok tt, (sc, u'))
  | IScene ps sc p =>
      exists pr h cmds, profilers !! p = Some pr /\ onScene pr = Some h /\
        h sc u = (Ok tt, u', cmds)
  | ICase ps bc p =>
      exists pr h metrics metrics' cmds, profilers !! p = Some pr /\
        onCase pr = Some h /\ h bc metrics u = (Ok metrics', u', cmds)
  | ITeardown ps sc i =>
      exists h, teardownHooks sc !! i = Some h /\ h u = (Ok tt, u')
  | IFinish p =>
      exists pr h cmds, profilers !! p = Some pr /\ onFinish pr = Some h /\
        h u = (Ok tt, u', cmds)
  end.

(** A run of invocations, each made at the user world the one before it
    left. *)
Inductive performed : list Invocation -> U -> U -> Prop :=
| performed_nil u : performed [] u u
| performed_cons i l u u1 u' :
    performs i u u1 -> performed l u1 u' -> performed (i :: l) u u'.

(** The invocations of a run that completes, given the scenes [setup]
    left: see [case_calls], [scene_calls] and [scenes_calls]. *)
Fixpoint case_invocations (ps : Params) (firstId : nat) (cs : list (@BenchCase U))
    : list Invocation :=
  match cs with
  | [] => []
  | c :: cs' =>
      map (ICase ps (with_id c firstId)) (hooked onCase (indexed profilers))
      ++ case_invocations ps (S firstId) cs'
  end.

Definition scene_invocations (firstId : nat) (ps : Params) (sc : @Scene U)
    : list Invocation :=
  [ISetup ps sc]
  ++ map (IScene ps sc) (hooked onScene (indexed profilers))
  ++ case_invocations ps firstId (cases sc)
  ++ map (ITeardown ps sc) (seq 0 (length (teardownHooks sc))).

Fixpoint scenes_invocations (firstId : nat) (l : list (Params * @Scene U))
    : list Invocation :=
  match l with
  | [] => []
  | (ps, sc) :: l' =>
      scene_invocations firstId ps sc
      ++ scenes_invocations (firstId + length (cases sc)) l'
  end.

Definition run_invocations (firstId : nat) (scs : list (@Scene U)) : list Invocation :=
  map IStart (hooked onStart (indexed profilers))
  ++ scenes_invocations firstId (zip (cartesianObject (params suite)) scs)
  ++ map IFinish (hooked onFinish (indexed profilers)).

Lemma call_of_case_invocations ps firstId cs :
  map call_of (case_invocations ps firstId cs) = case_calls ps firstId cs.
Proof.
  revert firstId. induction cs as [|bc cs IH]; intros firstId; simpl; [reflexivity|].
  rewrite map_app, map_map, IH. reflexivity.
Qed.

Lemma call_of_scenes_invocations firstId l :
  map call_of (scenes_invocations firstId l) = scenes_calls firstId l.
Proof.
  revert firstId. induction l as [|[ps sc] l IH]; intros firstId; simpl; [reflexivity|].
  rewrite !map_app, IH, call_of_case_invocations, !map_map. reflexivity.
Qed.

Lemma call_of_run_invocations firstId scs :
  map call_of (run_invocations firstId scs)
  = map COnStart (hooked onStart (indexed profilers))
    ++ scenes_calls firstId (zip (cartesianObject (params suite)) scs)
    ++ map COnFinish (hooked onFinish (indexed profilers)).
Proof.
  unfold run_invocations. rewrite !map_app, call_of_scenes_invocations, !map_map.
  reflexivity.
Qed.

Lemma performed_app l1 l2 u u1 u2 :
  performed l1 u u1 -> performed l2 u1 u2 -> performed (l1 ++ l2) u u2.
Proof.
  induction 1 as [|i l u0 u3 u4 Hi _ IH]; intros H2; simpl; [exact H2|].
  econstructor; [exact Hi | exact (IH H2)].
Qed.

(** Positions and profilers that go together. *)
Definition registered (ips : list (nat * Profiler)) : Prop :=
  Forall (fun ip => profilers !! fst ip = Some (snd ip)) ips.

Lemma zip_seq_lookup {A} (l l' : list A) k :
  (forall j x, l' !! j = Some x -> l !! (k + j)%nat = Some x) ->
  Forall (fun ix => l !! fst ix = Some (snd ix)) (zip (seq k (length l')) l').
Proof.
  revert k. induction l' as [|x l' IH]; intros k Hl; simpl; [constructor|].
  constructor.
  - simpl. rewrite <- (Nat.add_0_r k). exact (Hl 0%nat x eq_refl).
  - apply IH. intros j y Hj.
    replace (S k + j)%nat with (k + S j)%nat by lia. exact (Hl (S j) y Hj).
Qed.

Lemma indexed_registered : registered (indexed profilers).
Proof. apply zip_seq_lookup. intros j x Hj. exact Hj. Qed.

Lemma callProfiler_user {A} (f : U -> Out A) c a c' :
  callProfiler f c = (Ok a, c') ->
  exists cmds, f (user c) = (Ok a, user c', cmds).
Proof.
  unfold callProfiler. destruct (f (user c)) as [[r u] cmds] eqn:E. intros H.
  injection H as -> <-. exists cmds.
  destruct (apply_cmds_frame cmds (set_user u c)) as (_ & _ & _ & _ & Hu).
  now rewrite Hu.
Qed.

(** The hooks that [runHooks] logs are the hooks it calls. *)
Lemma runHooks_list_performed (hook : Profiler -> option (U -> Out unit)) ev
    (mk : nat -> Invocation) ips c c' :
  (forall p pr h u u' cmds, profilers !! p = Some pr -> hook pr = Some h ->
     h u = (Ok tt, u', cmds) -> performs (mk p) u u') ->
  registered ips ->
  forEach (fun ip : nat * Profiler =>
             match hook (snd ip) with
             | None => ret tt
             | Some h => emit (ev (fst ip)) ;;; callProfiler h
             end) ips c = (Ok tt, c') ->
  performed (map mk (hooked hook ips)) (user c) (user c').
Proof.
  intros Hmk Hreg. revert c. induction Hreg as [|ip ips Hip _ IH]; intros c H; simpl in H.
  - injection H as <-. constructor.
  - apply bind_inv_ok in H as ([] & c1 & H1 & H). apply IH in H. simpl.
    destruct (hook (snd ip)) as [h|] eqn:Eh.
    + apply bind_inv_ok in H1 as ([] & c0 & H0 & H1). injection H0 as <-.
      apply callProfiler_user in H1 as (cmds & H1). simpl in H1.
      econstructor; [|exact H]. exact (Hmk _ _ _ _ _ _ Hip Eh H1).
    + injection H1 as <-. exact H.
Qed.

Lemma runHooks_onCase_performed ps ips ev bc metrics c m' c' :
  registered ips ->
  runHooks_onCase ips ev bc metrics c = (Ok m', c') ->
  performed (map (ICase ps bc) (hooked onCase ips)) (user c) (user c').
Proof.
  intros Hreg. revert metrics c.
  induction Hreg as [|ip ips Hip _ IH]; intros metrics c H; simpl in H.
  - injection H as <- <-. constructor.
  - simpl. destruct (onCase (snd ip)) as [h|] eqn:Eh; [|now apply IH in H].
    apply bind_inv_ok in H as ([] & c0 & H0 & H). injection H0 as <-.
    apply bind_inv_ok in H as (m1 & c1 & H1 & H).
    apply callProfiler_user in H1 as (cmds & H1). simpl in H1.
    apply IH in H. econstructor; [|exact H]. simpl. eauto 10.
Qed.

Lemma runCases_performed ps slot cs c c' :
  forEach (runCase ps slot) cs c = (Ok tt, c') ->
  performed (case_invocations ps (caseIndex c) cs) (user c) (user c').
Proof.
  revert c. induction cs as [|bc cs IH]; intros c H; simpl in H.
  - injection H as <-. constructor.
  - apply bind_inv_ok in H as ([] & c3 & H1 & H).
    unfold runCase in H1.
    apply bind_inv_ok in H1 as (i & c1 & Hn & H1). injection Hn as <- <-.
    apply bind_inv_ok in H1 as (m & c2 & Hh & H1). injection H1 as <-.
    pose proof (runHooks_onCase_ok _ _ _ _ _ _ _ Hh) as (_ & _ & Hi).
    apply (runHooks_onCase_performed ps) in Hh; [|apply indexed_registered].
    apply IH in H. simpl in *. rewrite Hi in H.
    eapply performed_app; [exact Hh | exact H].
Qed.

Lemma runTeardown_from_performed ps sc (hooks : list (@HookFn U)) k c c' :
  (forall j h, hooks !! j = Some h -> teardownHooks sc !! (k + j)%nat = Some h) ->
  forEach (fun ih : nat * @HookFn U => emit (CTeardown ps (fst ih)) ;;; callHook (snd ih))
          (zip (seq k (length hooks)) hooks) c = (Ok tt, c') ->
  performed (map (ITeardown ps sc) (seq k (length hooks))) (user c) (user c').
Proof.
  revert k c. induction hooks as [|h hooks IH]; intros k c Hl H; simpl in H.
  - injection H as <-. constructor.
  - apply bind_inv_ok in H as ([] & c2 & H1 & H).
    apply bind_inv_ok in H1 as ([] & c1 & H0 & H1). injection H0 as <-.
    unfold callHook in H1. simpl in H1.
    destruct (h (user c)) as [r u] eqn:Eh. injection H1 as -> <-.
    apply IH in H.
    + simpl. econstructor; [|exact H]. simpl. exists h. split; [|exact Eh].
      rewrite <- (Nat.add_0_r k). exact (Hl 0%nat h eq_refl).
    + intros j x Hj.
      replace (S k + j)%nat with (k + S j)%nat by lia. exact (Hl (S j) x Hj).
Qed.

Lemma runScene_performed ps c c' :
  runScene ps c = (Ok tt, c') ->
  exists sc,
    performed (scene_invocations (caseIndex c) ps sc) (user c) (user c') /\
    calls c' = calls c ++ scene_calls (caseIndex c) ps sc /\
    caseIndex c' = (caseIndex c + length (cases sc))%nat.
Proof.
  intros H. pose proof H as Hrun. unfold runScene in H.
  apply bind_inv_ok in H as ([] & c0 & H0 & H). injection H0 as <-.
  apply bind_inv_ok in H as (sc & c1 & Hs & H).
  unfold callSetup in Hs. simpl in Hs.
  destruct (setup suite (newScene ps) (user c)) as [[[]|e] [sc' u]] eqn:Hsetup;
    [|discriminate Hs].
  injection Hs as <- <-.
  unfold try_finally in H.
  destruct (sceneBody ps sc' _) as [rb c2] eqn:Hb.
  destruct (runTeardown ps sc' c2) as [[[]|e] c3] eqn:Ht; [|discriminate].
  injection H as -> <-.
  unfold sceneBody in Hb.
  apply bind_inv_ok in Hb as ([] & c1a & Hh & Hb).
  pose proof (profiler_hooks_ok _ _ _ _ Hh) as (_ & _ & Hia).
  unfold runHooks in Hh.
  apply (runHooks_list_performed
           (fun p => option_map (fun h => h sc') (onScene p)) (COnScene ps)
           (IScene ps sc')) in Hh;
    [|intros p pr h u0 u' cmds Hp Hh' Hu; simpl;
      destruct (onScene pr) as [g|] eqn:Eg; [|discriminate Hh'];
      injection Hh' as <-; eauto 10
     |apply indexed_registered].
  rewrite hooked_option_map in Hh.
  apply bind_inv_ok in Hb as (slot & c1b & Hp & Hb). injection Hp as <- <-.
  apply runCases_performed in Hb. simpl in Hb, Hh, Hia.
  apply (runTeardown_from_performed ps sc') in Ht; [|intros j h Hj; exact Hj].
  apply runScene_ok in Hrun as (sc & results & Hc & Hi & _ & _ & u' & Hsetup').
  rewrite Hsetup in Hsetup'. injection Hsetup' as <- <-.
  exists sc'. split; [|split; assumption].
  unfold scene_invocations. econstructor; [exact Hsetup|].
  eapply performed_app; [exact Hh|].
  eapply performed_app; [rewrite <- Hia; exact Hb | exact Ht].
Qed.

Lemma runScenes_performed combs c c' :
  forEach runScene combs c = (Ok tt, c') ->
  exists scs, length scs = length combs /\
    performed (scenes_invocations (caseIndex c) (zip combs scs)) (user c) (user c') /\
    calls c' = calls c ++ scenes_calls (caseIndex c) (zip combs scs).
Proof.
  revert c. induction combs as [|ps combs IH]; intros c H; simpl in H.
  - injection H as <-. exists []. simpl. rewrite app_nil_r.
    repeat split. constructor.
  - apply bind_inv_ok in H as ([] & c1 & H1 & H).
    apply runScene_performed in H1 as (sc & Hp1 & Hc1 & Hi1).
    apply IH in H as (scs & Hlen & Hp & Hc).
    exists (sc :: scs). split; [simpl; now rewrite Hlen|]. split.
    + change (performed
                (scene_invocations (caseIndex c) ps sc
                 ++ scenes_invocations (caseIndex c + length (cases sc)) (zip combs scs))
                (user c) (user c')).
      eapply performed_app; [exact Hp1|]. now rewrite <- Hi1.
    + simpl. rewrite Hc, Hc1, Hi1. now rewrite <- app_assoc.
Qed.

Lemma hooked_from_sorted {A} (hook : Profiler -> option A) ps k :
  StronglySorted lt (hooked hook (zip (seq k (length ps)) ps)).
Proof.
  revert k. induction ps as [|p ps IH]; intros k; simpl; [constructor|].
  destruct (hook p); [|apply IH]. constructor; [apply IH|].
  apply Forall_forall. intros i Hi. apply hooked_from_spec in Hi as [Hle _]. lia.
Qed.

(** C4: a run that completes has made these invocations of user code, in
    this order, each at the user world the one before it left: [onStart] of
    each profiler that defines it, in registration order; then, for each
    parameter combination in cross-product order, [setup] on a new scene,
    the [onScene] hooks on the scene [setup] left, the [onCase] hooks on the
    cases of that scene, case by case in registration order with
    consecutive ids, and the teardown hooks of that scene; then [onFinish]
    of each profiler that defines it.  These are the calls the context has
    logged.  Each block lists the profilers that define the hook by
    increasing position, so each hook of each profiler is called exactly
    once per event, in registration order. *)
Theorem run_call_order c c' :
  run c = (Ok tt, c') ->
  exists scs,
    length scs = length (cartesianObject (params suite)) /\
    performed (run_invocations (caseIndex c) scs) (user c) (user c') /\
    calls c' = calls c ++ map call_of (run_invocations (caseIndex c) scs) /\
    map call_of (run_invocations (caseIndex c) scs)
      = map COnStart (hooked onStart (indexed profilers))
        ++ scenes_calls (caseIndex c) (zip (cartesianObject (params suite)) scs)
        ++ map COnFinish (hooked onFinish (indexed profilers)) /\
    (forall A (hook : Profiler -> option A),
       StronglySorted lt (hooked hook (indexed profilers)) /\
       forall i, i ∈ hooked hook (indexed profilers) <->
                 exists p, profilers !! i = Some p /\ is_Some (hook p)).
Proof.
  intros H. unfold run in H. destruct (hasRun c); [discriminate|].
  apply bind_inv_ok in H as ([] & c1 & H1 & H).
  apply bind_inv_ok in H as ([] & c2 & H2 & H3).
  pose proof (profiler_hooks_ok _ _ _ _ H1) as (Hc1 & _ & Hi1).
  unfold runHooks in H1.
  apply (runHooks_list_performed onStart COnStart IStart) in H1;
    [|intros p pr h u u' cmds Hp Hh Hu; simpl; eauto 10 | apply indexed_registered].
  apply runScenes_performed in H2 as (scs & Hlen & Hp2 & Hc2).
  pose proof (profiler_hooks_ok _ _ _ _ H3) as (Hc3 & _ & _).
  unfold runHooks in H3.
  apply (runHooks_list_performed onFinish COnFinish IFinish) in H3;
    [|intros p pr h u u' cmds Hp Hh Hu; simpl; eauto 10 | apply indexed_registered].
  simpl in H1, Hc1, Hi1. rewrite Hi1 in Hp2, Hc2.
  exists scs. split; [exact Hlen|]. split; [|split; [|split]].
  - unfold run_invocations.
    eapply performed_app; [exact H1|]. eapply performed_app; [exact Hp2 | exact H3].
  - rewrite call_of_run_invocations, Hc3, Hc2, Hc1. now rewrite <- !app_assoc.
  - apply call_of_run_invocations.
  - intros A hook. split; [apply hooked_from_sorted | apply hooked_spec].
Qed.

(** *** Nothing is rolled back *)

(** From [c] to [c'] every note is still there, in place, and every metric
    key is still defined. *)
Definition kept (c c' : Ctx) : Prop :=
  notes c `prefix_of` notes c' /\ dom (meta c) ⊆ dom (meta c').

Lemma kept_refl c : kept c c.
Proof. split; reflexivity. Qed.

Lemma kept_trans c1 c2 c3 : kept c1 c2 -> kept c2 c3 -> kept c1 c3.
Proof. intros [H1 H2] [H3 H4]. split; etrans; eauto. Qed.

Lemma apply_cmds_kept cmds c : kept c (fold_left apply_cmd cmds c).
Proof.
  revert c. induction cmds as [|cmd cmds IH]; intros c; simpl; [apply kept_refl|].
  eapply kept_trans; [|apply IH]. destruct cmd; split; simpl; try reflexivity.
  - now apply prefix_app_r.
  - rewrite dom_insert. set_solver.
Qed.

Definition keeps {A} (m : M Ctx A) : Prop :=
  forall c r c', m c = (r, c') -> kept c c'.

Lemma keeps_ret {A} (a : A) : keeps (ret a).
Proof. intros c r c' H. injection H as <- <-. split; reflexivity. Qed.

Lemma keeps_bind {A B} (m : M Ctx A) (k : A -> M Ctx B) :
  keeps m -> (forall a, keeps (k a)) -> keeps (bind m k).
Proof.
  intros Hm Hk c r c' H. unfold bind in H. destruct (m c) as [[a|e] c1] eqn:E.
  - eapply kept_trans; [exact (Hm _ _ _ E) | exact (Hk _ _ _ _ H)].
  - injection H as <- <-. exact (Hm _ _ _ E).
Qed.

Lemma keeps_forEach {A} (body : A -> M Ctx unit) l :
  (forall x, keeps (body x)) -> keeps (forEach body l).
Proof.
  intros Hb. induction l as [|x l IH]; simpl; [apply keeps_ret|].
  apply keeps_bind; [apply Hb | intros _; exact IH].
Qed.

Lemma keeps_try_finally {A} (body : M Ctx A) fin :
  keeps body -> keeps fin -> keeps (try_finally body fin).
Proof.
  intros Hb Hf c r c' H. unfold try_finally in H.
  destruct (body c) as [rb c1] eqn:Eb. destruct (fin c1) as [[[]|e] c2] eqn:Ef;
    injection H as <- <-; eapply kept_trans; eauto.
Qed.

Lemma keeps_emit e : keeps (emit e).
Proof. intros c r c' H. injection H as <- <-. split; reflexivity. Qed.

Lemma keeps_callProfiler {A} (f : U -> Out A) : keeps (callProfiler f).
Proof.
  intros c r c' H. unfold callProfiler in H. destruct (f (user c)) as [[r0 u] cmds].
  injection H as <- <-. exact (apply_cmds_kept cmds (set_user u c)).
Qed.

Lemma keeps_callHook h : keeps (callHook h).
Proof.
  intros c r c' H. unfold callHook in H. destruct (h (user c)) as [r0 u].
  injection H as <- <-. split; reflexivity.
Qed.

Lemma keeps_runHooks_list (hook : Profiler -> option (U -> Out unit)) ev ips :
  keeps (forEach (fun ip : nat * Profiler =>
                    match hook (snd ip) with
                    | None => ret tt
                    | Some h => emit (ev (fst ip)) ;;; callProfiler h
                    end) ips).
Proof.
  apply keeps_forEach. intros ip. destruct (hook (snd ip)); [|apply keeps_ret].
  apply keeps_bind; [apply keeps_emit | intros _; apply keeps_callProfiler].
Qed.

Lemma keeps_runHooks_onCase ips ev bc metrics :
  keeps (runHooks_onCase ips ev bc metrics).
Proof.
  revert metrics. induction ips as [|ip ips IH]; intros metrics; simpl.
  - apply keeps_ret.
  - destruct (onCase (snd ip)); [|apply IH].
    apply keeps_bind; [apply keeps_emit | intros _].
    apply keeps_bind; [apply keeps_callProfiler | intros m; apply IH].
Qed.

Lemma keeps_runCase ps slot bc : keeps (runCase ps slot bc).
Proof.
  unfold runCase. apply keeps_bind.
  - intros c r c' H. injection H as <- <-. split; reflexivity.
  - intros i. apply keeps_bind; [apply keeps_runHooks_onCase | intros m].
    intros c r c' H. injection H as <- <-. split; reflexivity.
Qed.

Lemma keeps_runTeardown ps sc : keeps (runTeardown ps sc).
Proof.
  apply keeps_forEach. intros ih.
  apply keeps_bind; [apply keeps_emit | intros _; apply keeps_callHook].
Qed.

Lemma keeps_runScene ps : keeps (runScene ps).
Proof.
  unfold runScene. apply keeps_bind; [apply keeps_emit | intros _].
  apply keeps_bind.
  - intros c r c' H. unfold callSetup in H.
    destruct (setup suite (newScene ps) (user c)) as [[[]|e] [sc' u]];
      injection H as <- <-; split; reflexivity.
  - intros sc. apply keeps_try_finally; [|apply keeps_runTeardown].
    unfold sceneBody. apply keeps_bind; [apply keeps_runHooks_list | intros _].
    apply keeps_bind.
    + intros c r c' H. injection H as <- <-. split; reflexivity.
    + intros slot. apply keeps_forEach. intros bc. apply keeps_runCase.
Qed.

(** Whatever the outcome of a run, no note and no metric key is lost. *)
Lemma keeps_run : keeps run.
Proof.
  intros c r c' H. unfold run in H. destruct (hasRun c).
  - injection H as <- <-. split; reflexivity.
  - eapply kept_trans; [apply kept_refl with (c := c) |].
    assert (Hk : keeps (runHooks onStart COnStart ;;;
       forEach runScene (cartesianObject (params suite)) ;;;
       runHooks onFinish COnFinish)).
    { apply keeps_bind; [apply keeps_runHooks_list | intros _].
      apply keeps_bind; [|intros _; apply keeps_runHooks_list].
      apply keeps_forEach. intros ps. apply keeps_runScene. }
    exact (Hk _ _ _ H).
Qed.

(** The teardown hooks leave the results, the notes and the metric
    descriptors as they are, whether they return or throw. *)
Lemma runTeardown_frame_list ps (ihs : list (nat * @HookFn U)) c r c' :
  forEach (fun ih : nat * @HookFn U => emit (CTeardown ps (fst ih)) ;;; callHook (snd ih))
          ihs c = (r, c') ->
  scenes c' = scenes c /\ notes c' = notes c /\ meta c' = meta c.
Proof.
  revert c. induction ihs as [|ih ihs IH]; intros c H; simpl in H.
  - injection H as <- <-. tauto.
  - unfold bind at 1 in H. unfold bind at 1 in H. simpl in H.
    destruct (callHook (snd ih) (add_call (CTeardown ps (fst ih)) c)) as [[[]|e] c1] eqn:E;
      apply callHook_frame in E as (Hs & _ & _ & Hn & Hm); simpl in *.
    + apply IH in H as (Hs' & Hn' & Hm'). now rewrite Hs', Hn', Hm'.
    + injection H as <- <-. tauto.
Qed.

(** C10: when [setup] and the [onScene] hooks have returned, the first
    cases [done] have been processed and an [onCase] hook throws on the next
    case, [runScene] fails and leaves in [scenes] the record of the current
    scene with exactly the cases of [done], as it stood before the failing
    case; the notes and the metric descriptors are those present at the
    failure, and nothing recorded earlier is lost. *)
Theorem runScene_onCase_throws ps c sc u1 done bc rest c2 c3 e cF :
  setup suite (newScene ps) (user c) = (Ok tt, (sc, u1)) ->
  cases sc = done ++ bc :: rest ->
  runHooks (fun p => option_map (fun h => h sc) (onScene p)) (COnScene ps)
    (set_user u1 (add_call (CSetup ps) c)) = (Ok tt, c2) ->
  forEach (runCase ps (length (scenes c2))) done
    (set_scenes (scenes c2 ++ [∅]) c2) = (Ok tt, c3) ->
  runCase ps (length (scenes c2)) bc c3 = (Throw e, cF) ->
  exists e' c' results,
    runScene ps c = (Throw e', c') /\
    scenes c3 = scenes c ++ [results] /\
    dom results = list_to_set (name <$> done) /\
    scenes c' = scenes c ++ [results] /\
    notes c' = notes cF /\ meta c' = meta cF /\
    kept c c3 /\ kept c3 c'.
Proof.
  intros Hsetup Hcases Hscene Hdone Hfail.
  assert (Hs2 : scenes c2 = scenes c).
  { apply runHooks_list_ok in Hscene as (_ & Hs & _). exact Hs. }
  destruct (runCases_record ps (scenes c2) ∅ done _ _ Hdone eq_refl)
    as (results & Hs3 & Hdom).
  assert (HsF : scenes cF = scenes c3).
  { unfold runCase in Hfail. unfold bind at 1 in Hfail. simpl in Hfail.
    unfold bind at 1 in Hfail.
    destruct (runHooks_onCase _ _ _ _ _) as [[m|e0] cX] eqn:E in Hfail;
      [discriminate Hfail|].
    injection Hfail as _ <-. apply runHooks_onCase_scenes in E. exact E. }
  assert (Hbody : sceneBody ps sc (set_user u1 (add_call (CSetup ps) c)) = (Throw e, cF)).
  { unfold sceneBody. unfold bind at 1. rewrite Hscene.
    unfold bind at 1. simpl. rewrite Hcases, forEach_app, Hdone. simpl.
    unfold bind at 1. now rewrite Hfail. }
  destruct (runTeardown ps sc cF) as [rT c'] eqn:Ht.
  destruct (runTeardown_frame_list _ _ _ _ _ Ht) as (HsT & HnT & HmT).
  exists (match rT with Ok _ => e | Throw e' => e' end), c', results.
  split.
  { unfold runScene. unfold bind at 1. simpl. unfold bind at 1.
    unfold callSetup. simpl. rewrite Hsetup. unfold try_finally.
    rewrite Hbody, Ht. now destruct rT as [[]|]. }
  rewrite Hs2 in Hs3.
  assert (K13 : kept c c3).
  { pose proof (keeps_runHooks_list
        (fun p => option_map (fun h => h sc) (onScene p)) (COnScene ps)
        (indexed profilers) _ _ _ Hscene) as K1.
    pose proof (keeps_forEach (runCase ps (length (scenes c2))) done
        (keeps_runCase ps _) _ _ _ Hdone) as K2.
    eapply kept_trans; [|exact K2]. eapply kept_trans; [|split; simpl; reflexivity].
    eapply kept_trans; [|exact K1]. split; reflexivity. }
  assert (K3F : kept c3 c').
  { destruct (keeps_runCase _ _ _ _ _ _ Hfail) as [Hn Hm].
    split; [now rewrite HnT | now rewrite HmT]. }
  split; [exact Hs3|]. split; [rewrite Hdom, dom_empty_L; apply (left_id_L ∅ (∪))|].
  split; [now rewrite HsT, HsF|]. auto.
Qed.

(** The teardown hooks are called in order until one throws: at least the
    first one, and all of them when they all return. *)
Lemma runTeardown_calls_from ps (hooks : list (@HookFn U)) j c r c' :
  forEach (fun ih : nat * @HookFn U => emit (CTeardown ps (fst ih)) ;;; callHook (snd ih))
          (zip (seq j (length hooks)) hooks) c = (r, c') ->
  exists k, (k <= length hooks)%nat /\
    calls c' = calls c ++ map (CTeardown ps) (seq j k) /\
    (hooks <> [] -> (1 <= k)%nat) /\
    (r = Ok tt -> k = length hooks).
Proof.
  revert j c. induction hooks as [|h hooks IH]; intros j c H; simpl in H.
  - injection H as <- <-. exists 0%nat. simpl. rewrite app_nil_r.
    repeat split; try lia; congruence.
  - unfold bind at 1 in H. unfold bind at 1 in H. simpl in H.
    destruct (callHook h (add_call (CTeardown ps j) c)) as [[[]|e] c1] eqn:E;
      apply callHook_frame in E as (_ & _ & Hc & _); simpl in Hc.
    + apply IH in H as (k & Hk & Hcalls & _ & Hall). exists (S k). simpl.
      repeat split; try lia.
      * rewrite Hcalls, Hc. now rewrite <- app_assoc.
      * intros Hr. rewrite (Hall Hr). reflexivity.
    + injection H as <- <-. exists 1%nat. simpl.
      repeat split; try lia; [exact Hc | discriminate].
Qed.

(** C5 (as amended): once [setup] has returned, the teardown stage of the
    scene runs whatever the outcome [r] of the [try] block, in particular
    when an [onScene] or [onCase] hook (and so a workload run by one)
    throws; when its hooks return they have all been called, each applied
    at the user world the one before it left, after what the block did, and
    only then does [runScene] return, with the error of the block.  When [setup] throws, [runScene] fails with that error at
    once: the context holds the call of [setup] and the user world it left,
    and no teardown hook is called, whatever [setup] had registered. *)
Theorem runScene_teardown ps c :
  (forall sc u1 r c2 rT c3,
     setup suite (newScene ps) (user c) = (Ok tt, (sc, u1)) ->
     sceneBody ps sc (set_user u1 (add_call (CSetup ps) c)) = (r, c2) ->
     runTeardown ps sc c2 = (rT, c3) ->
     runScene ps c = (match rT with Ok _ => r | Throw e' => Throw e' end, c3) /\
     (rT = Ok tt ->
        calls c3 = calls c2
          ++ map (CTeardown ps) (seq 0 (length (teardownHooks sc))) /\
        performed (map (ITeardown ps sc) (seq 0 (length (teardownHooks sc))))
          (user c2) (user c3))) /\
  (forall e sc u1,
     setup suite (newScene ps) (user c) = (Throw e, (sc, u1)) ->
     runScene ps c = (Throw e, set_user u1 (add_call (CSetup ps) c))).
Proof.
  split.
  - intros sc u1 r c2 rT c3 Hsetup Hbody Ht. split.
    + unfold runScene. unfold bind at 1. simpl. unfold bind at 1.
      unfold callSetup. simpl. rewrite Hsetup. unfold try_finally.
      rewrite Hbody, Ht. now destruct rT as [[]|], r as [[]|].
    + intros ->. split.
      * now apply runTeardown_from_ok in Ht as (Hc & _).
      * apply (runTeardown_from_performed ps sc (teardownHooks sc) 0 c2 c3);
          [intros j h Hj; exact Hj | exact Ht].
  - intros e sc u1 Hsetup.
    unfold runScene. unfold bind at 1. simpl. unfold bind at 1.
    unfold callSetup. simpl. now rewrite Hsetup.
Qed.

(** *** What every step of a run preserves *)

Section Preserved.

(** A relation between the context before and after that holds across
    every primitive step of the driver. *)
Variable R : Ctx -> Ctx -> Prop.
Hypothesis R_refl : forall c, R c c.
Hypothesis R_trans : forall c1 c2 c3, R c1 c2 -> R c2 c3 -> R c1 c3.
Hypothesis R_call : forall e c, R c (add_call e c).
Hypothesis R_cmds : forall cmds u c, R c (fold_left apply_cmd cmds (set_user u c)).
Hypothesis R_scenes : forall l c, R c (set_scenes l c).
Hypothesis R_caseIndex : forall n c, R c (set_caseIndex n c).

Definition preserves {A} (m : M Ctx A) : Prop :=
  forall c r c', m c = (r, c') -> R c c'.

Lemma preserves_ret {A} (a : A) : preserves (ret a).
Proof. intros c r c' H. injection H as <- <-. apply R_refl. Qed.

Lemma preserves_bind {A B} (m : M Ctx A) (k : A -> M Ctx B) :
  preserves m -> (forall a, preserves (k a)) -> preserves (bind m k).
Proof.
  intros Hm Hk c r c' H. unfold bind in H. destruct (m c) as [[a|e] c1] eqn:E.
  - eapply R_trans; [exact (Hm _ _ _ E) | exact (Hk _ _ _ _ H)].
  - injection H as <- <-. exact (Hm _ _ _ E).
Qed.

Lemma preserves_forEach {A} (body : A -> M Ctx unit) l :
  (forall x, preserves (body x)) -> preserves (forEach body l).
Proof.
  intros Hb. induction l as [|x l IH]; simpl; [apply preserves_ret|].
  apply preserves_bind; [apply Hb | intros _; exact IH].
Qed.

Lemma preserves_try_finally {A} (body : M Ctx A) fin :
  preserves body -> preserves fin -> preserves (try_finally body fin).
Proof.
  intros Hb Hf c r c' H. unfold try_finally in H.
  destruct (body c) as [rb c1] eqn:Eb. destruct (fin c1) as [[[]|e] c2] eqn:Ef;
    injection H as <- <-; eapply R_trans; eauto.
Qed.

Lemma preserves_emit e : preserves (emit e).
Proof. intros c r c' H. injection H as <- <-. apply R_call. Qed.

Lemma preserves_callProfiler {A} (f : U -> Out A) : preserves (callProfiler f).
Proof.
  intros c r c' H. unfold callProfiler in H. destruct (f (user c)) as [[r0 u] cmds].
  injection H as <- <-. apply R_cmds.
Qed.

Lemma preserves_callHook h : preserves (callHook h).
Proof.
  intros c r c' H. unfold callHook in H. destruct (h (user c)) as [r0 u].
  injection H as <- <-. exact (R_cmds [] u c).
Qed.

Lemma preserves_runHooks (hook : Profiler -> option (U -> Out unit)) ev :
  preserves (runHooks hook ev).
Proof.
  apply preserves_forEach. intros ip. destruct (hook (snd ip)); [|apply preserves_ret].
  apply preserves_bind; [apply preserves_emit | intros _; apply preserves_callProfiler].
Qed.

Lemma preserves_runHooks_onCase ips ev bc metrics :
  preserves (runHooks_onCase ips ev bc metrics).
Proof.
  revert metrics. induction ips as [|ip ips IH]; intros metrics; simpl.
  - apply preserves_ret.
  - destruct (onCase (snd ip)); [|apply IH].
    apply preserves_bind; [apply preserves_emit | intros _].
    apply preserves_bind; [apply preserves_callProfiler | intros m; apply IH].
Qed.

Lemma preserves_runCase ps slot bc : preserves (runCase ps slot bc).
Proof.
  unfold runCase. apply preserves_bind.
  - intros c r c' H. injection H as <- <-. apply R_caseIndex.
  - intros i. apply preserves_bind; [apply preserves_runHooks_onCase | intros m].
    intros c r c' H. injection H as <- <-. apply R_scenes.
Qed.

Lemma preserves_runScene ps : preserves (runScene ps).
Proof.
  unfold runScene. apply preserves_bind; [apply preserves_emit | intros _].
  apply preserves_bind.
  - intros c r c' H. unfold callSetup in H.
    destruct (setup suite (newScene ps) (user c)) as [[[]|e] [sc' u]];
      injection H as <- <-; exact (R_cmds [] u c).
  - intros sc. apply preserves_try_finally.
    + unfold sceneBody. apply preserves_bind; [apply preserves_runHooks | intros _].
      apply preserves_bind.
      * intros c r c' H. injection H as <- <-. apply R_scenes.
      * intros slot. apply preserves_forEach. intros bc. apply preserves_runCase.
    + apply preserves_forEach. intros ih.
      apply preserves_bind; [apply preserves_emit | intros _; apply preserves_callHook].
Qed.

(** The three stages of [run], after the flag is set. *)
Lemma preserves_stages :
  preserves (runHooks onStart COnStart ;;;
             forEach runScene (cartesianObject (params suite)) ;;;
             runHooks onFinish COnFinish).
Proof.
  apply preserves_bind; [apply preserves_runHooks | intros _].
  apply preserves_bind; [|intros _; apply preserves_runHooks].
  apply preserves_forEach. intros ps. apply preserves_runScene.
Qed.

End Preserved.

Lemma apply_cmds_hasRun cmds c : hasRun (fold_left apply_cmd cmds c) = hasRun c.
Proof. now destruct (apply_cmds_frame cmds c) as (_ & H & _). Qed.

(** X10: a context runs once.  Whatever the outcome of [run] (it returned,
    or a hook, a setup function or a workload threw), the context it leaves
    is marked as run, and running it again throws and changes nothing. *)
Theorem run_only_once c :
  hasRun (snd (run c)) = true /\
  run (snd (run c))
  = (Throw (Error "A ProfilingContext can only be run once."), snd (run c)).
Proof.
  assert (H : hasRun (snd (run c)) = true).
  { unfold run. destruct (hasRun c) eqn:Hc; [exact Hc|].
    destruct ((runHooks onStart COnStart ;;;
               forEach runScene (cartesianObject (params suite)) ;;;
               runHooks onFinish COnFinish) (set_hasRun true c)) as [r c'] eqn:E.
    simpl.
    apply (preserves_stages (fun c1 c2 => hasRun c2 = hasRun c1)) in E; try easy.
    - intros c1 c2 c3 H1 H2. now rewrite H2.
    - intros cmds u c1. now rewrite apply_cmds_hasRun. }
  split; [exact H|]. unfold run at 1. now rewrite H.
Qed.

(** X11: whatever the outcome of a run, the notes taken before it are still
    there, in place and in order, and every metric that was defined is still
    defined. *)
Theorem run_keeps_notes_and_meta c r c' :
  run c = (r, c') ->
  notes c `prefix_of` notes c' /\ dom (meta c) ⊆ dom (meta c').
Proof. intros H. exact (keeps_run c r c' H). Qed.

(** The profiler hooks leave the results and the case counter as they are,
    whether they return or throw; the calls they add are those of the
    profilers that define the hook, in order, up to the one that throws. *)
Lemma runHooks_list_throw (hook : Profiler -> option (U -> Out unit)) ev ips c e c' :
  forEach (fun ip : nat * Profiler =>
             match hook (snd ip) with
             | None => ret tt
             | Some h => emit (ev (fst ip)) ;;; callProfiler h
             end) ips c = (Throw e, c') ->
  exists called, called `prefix_of` hooked hook ips /\ called <> [] /\
    calls c' = calls c ++ map ev called /\
    scenes c' = scenes c /\ caseIndex c' = caseIndex c.
Proof.
  revert c. induction ips as [|ip ips IH]; intros c H; simpl in H.
  - discriminate.
  - unfold bind at 1 in H. simpl. destruct (hook (snd ip)) as [h|].
    + unfold bind at 1 in H. simpl in H.
      destruct (callProfiler h (add_call (ev (fst ip)) c)) as [[[]|e0] c1] eqn:E;
        apply callProfiler_frame in E as (Hs & Hi & Hc); simpl in *.
      * apply IH in H as (called & Hp & _ & Hcalls & Hs' & Hi').
        exists (fst ip :: called). split; [now apply prefix_cons|].
        split; [discriminate|].
        rewrite Hcalls, Hs', Hi', Hc, Hs, Hi. simpl. now rewrite <- app_assoc.
      * injection H as <- <-. exists [fst ip].
        split; [apply prefix_cons, prefix_nil|]. split; [discriminate|].
        now rewrite Hc, Hs, Hi.
    + simpl in H. now apply IH in H.
Qed.

(** X12: when an [onScene] hook throws, [runScene] fails without a record
    for the scene: no case is given an id and [scenes] is as before; the
    calls are [setup], the [onScene] hooks up to the one that threw, and
    the teardown hooks, which still run. *)
Theorem runScene_onScene_throws ps c sc u1 e c2 rT c3 :
  setup suite (newScene ps) (user c) = (Ok tt, (sc, u1)) ->
  runHooks (fun p => option_map (fun h => h sc) (onScene p)) (COnScene ps)
    (set_user u1 (add_call (CSetup ps) c)) = (Throw e, c2) ->
  runTeardown ps sc c2 = (rT, c3) ->
  runScene ps c = (match rT with Ok _ => Throw e | Throw e' => Throw e' end, c3) /\
  scenes c3 = scenes c /\
  caseIndex c2 = caseIndex c /\
  exists called k,
    called `prefix_of` hooked onScene (indexed profilers) /\ called <> [] /\
    (k <= length (teardownHooks sc))%nat /\
    (rT = Ok tt -> k = length (teardownHooks sc)) /\
    calls c3 = calls c ++ [CSetup ps] ++ map (COnScene ps) called
               ++ map (CTeardown ps) (seq 0 k).
Proof.
  intros Hsetup Hscene Ht.
  assert (Hbody : sceneBody ps sc (set_user u1 (add_call (CSetup ps) c)) = (Throw e, c2)).
  { unfold sceneBody. unfold bind at 1. now rewrite Hscene. }
  split.
  { unfold runScene. unfold bind at 1. simpl. unfold bind at 1.
    unfold callSetup. simpl. rewrite Hsetup. unfold try_finally.
    rewrite Hbody, Ht. now destruct rT as [[]|]. }
  apply runHooks_list_throw in Hscene as (called & Hp & Hne & Hc2 & Hs2 & Hi2).
  rewrite hooked_option_map in Hp. simpl in Hc2, Hs2, Hi2.
  destruct (runTeardown_frame_list _ _ _ _ _ Ht) as (HsT & _ & _).
  destruct (runTeardown_calls_from _ _ _ _ _ _ Ht) as (k & Hk & HcT & _ & Hall).
  split; [now rewrite HsT, Hs2|]. split; [exact Hi2|].
  exists called, k. repeat split; try assumption.
  rewrite HcT, Hc2. now rewrite <- !app_assoc.
Qed.

(** X13: the first scene that fails ends the run.  When [onStart] and the
    scenes before it have returned and [runScene] throws on the next
    combination of parameters, [run] fails with that error in the state
    that scene left: no later scene is set up and no [onFinish] hook is
    called.  Up to the failing scene the calls are those of a run that
    completes, and the scenes before it have their records. *)
Theorem run_stops_at_failing_scene c c1 done ps rest c2 e c3 :
  hasRun c = false ->
  runHooks onStart COnStart (set_hasRun true c) = (Ok tt, c1) ->
  cartesianObject (params suite) = done ++ ps :: rest ->
  forEach runScene done c1 = (Ok tt, c2) ->
  runScene ps c2 = (Throw e, c3) ->
  run c = (Throw e, c3) /\
  calls c2 `prefix_of` calls c3 /\
  exists scs ress,
    length scs = length done /\
    calls c2 = calls c ++ map COnStart (hooked onStart (indexed profilers))
               ++ scenes_calls (caseIndex c) (zip done scs) /\
    scenes c2 = scenes c ++ ress /\ Forall2 records scs ress.
Proof.
  intros Hrun Hstart Hcombos Hdone Hfail. split; [|split].
  - unfold run. rewrite Hrun. unfold bind at 1. rewrite Hstart.
    unfold bind at 1. rewrite Hcombos, forEach_app, Hdone. simpl.
    unfold bind at 1. now rewrite Hfail.
  - apply (preserves_runScene (fun a b => calls a `prefix_of` calls b)) in Hfail;
      try easy.
    + intros a b d Hab Hbd. etrans; eauto.
    + intros ev a. simpl. now apply prefix_app_r.
    + intros cmds u a.
      destruct (apply_cmds_frame cmds (set_user u a)) as (_ & _ & _ & Hc & _).
      now rewrite Hc.
  - apply profiler_hooks_ok in Hstart as (Hc1 & Hs1 & Hi1).
    apply runScenes_ok in Hdone as (scs & ress & Hlen & Hc2 & Hs2 & Hall).
    simpl in Hc1, Hs1, Hi1.
    exists scs, ress. split; [exact Hlen|]. split; [|split; [|exact Hall]].
    + rewrite Hc2, Hc1, Hi1. now rewrite <- !app_assoc.
    + now rewrite Hs2, Hs1.
Qed.

End Driver.

(** *** A concrete suite; the user world is a log of strings. *)

Definition any_name (nm : string) : bool := true.

Definition demo_setup (sc : @Scene (list string)) (u : list string)
    : Res unit * (@Scene (list string) * list string) :=
  match bench "A" (sync_workload "run A" (VNum 1)) sc with
  | Throw e => (Throw e, (sc, u))
  | Ok sc1 =>
      match bench "B" (sync_workload "run B" (VNum 2)) sc1 with
      | Throw e => (Throw e, (sc1, u))
      | Ok sc2 => (Ok tt, (teardown (say "teardown") sc2, u ++ ["setup"]))
      end
  end.

Definition demo_suite : @NormalizedSuite (list string) :=
  {| params := [("n", [VNum 1; VNum 2])];
     paramNames := [("n", ["1"; "2"])];
     setup := demo_setup;
     beforeAll := None; afterAll := None; suite_profilers := None;
     timing := None; validate := None; baseline := None |}.

Definition time_meta : MetricMeta :=
  {| key := "time"; format := Some "{duration.ms}";
     analysis := Some AStatistics; lowerIsBetter := Some true |}.

(** A profiler with all four hooks: it defines a metric at the start, and
    for each case sets the metric and leaves a note. *)
Definition recorder : @Profiler (list string) :=
  {| onStart := Some (fun u => (Ok tt, u ++ ["start"], [CmdDefineMetric time_meta]));
     onScene := Some (fun _ u => (Ok tt, u ++ ["scene"], []));
     onCase := Some (fun bc m u =>
       (Ok (<["time" := MNums [Num 1%Q]]> m), u ++ [name bc],
        [CmdNote NInfo "measured" (id bc)]));
     onFinish := Some (fun u => (Ok tt, u ++ ["finish"], [])) |}.

(** A profiler with only [onCase], which throws on the case [B]. *)
Definition faulty : @Profiler (list string) :=
  {| onStart := None; onScene := None;
     onCase := Some (fun bc m u =>
       if String.eqb (name bc) "B"
       then (Throw (Error "boom"), u, [CmdNote NWarn "failing" (id bc)])
       else (Ok m, u, []));
     onFinish := None |}.

(** A profiler with only [onCase], which checks each case. *)
Definition checker : @Profiler (list string) :=
  {| onStart := None; onScene := None;
     onCase := Some (fun bc m u => (Ok m, u ++ ["check"], []));
     onFinish := None |}.

Definition fresh : @Ctx (list string) :=
  {| scenes := []; notes := []; meta := ∅; hasRun := false; caseIndex := 0;
     logs := []; calls := []; user := [] |}.

Lemma run_call_order_witness :
  exists c',
    run demo_suite [recorder; checker] any_name fresh = (Ok tt, c') /\
    user c' = ["start"; "setup"; "scene"; "A"; "check"; "B"; "check"; "teardown";
               "setup"; "scene"; "A"; "check"; "B"; "check"; "teardown"; "finish"] /\
    exists scs,
      length scs = length (cartesianObject (params demo_suite)) /\
      performed demo_suite [recorder; checker] any_name
        (run_invocations demo_suite [recorder; checker] (caseIndex fresh) scs)
        (user fresh) (user c') /\
      calls c' = calls fresh
        ++ map call_of
             (run_invocations demo_suite [recorder; checker] (caseIndex fresh) scs) /\
      map call_of (run_invocations demo_suite [recorder; checker] (caseIndex fresh) scs)
        = map COnStart (hooked onStart (indexed [recorder; checker]))
          ++ scenes_calls [recorder; checker] (caseIndex fresh)
               (zip (cartesianObject (params demo_suite)) scs)
          ++ map COnFinish (hooked onFinish (indexed [recorder; checker])) /\
      (forall A (hook : Profiler -> option A),
         StronglySorted lt (hooked hook (indexed [recorder; checker])) /\
         forall i, i ∈ hooked hook (indexed [recorder; checker]) <->
                   exists p, [recorder; checker] !! i = Some p /\ is_Some (hook p)).
Proof.
  eexists. split; [vm_compute; reflexivity|]. split; [vm_compute; reflexivity|].
  eapply (run_call_order demo_suite [recorder; checker] any_name fresh).
  vm_compute. reflexivity.
Defined.

(** The calls of that run, written out. *)
Example run_calls_demo :
  calls (snd (run demo_suite [recorder; checker] any_name fresh)) =
  [ COnStart 0;
    CSetup [("n", VNum 1)]; COnScene [("n", VNum 1)] 0;
    COnCase [("n", VNum 1)] "A" 0 0; COnCase [("n", VNum 1)] "A" 0 1;
    COnCase [("n", VNum 1)] "B" 1 0; COnCase [("n", VNum 1)] "B" 1 1;
    CTeardown [("n", VNum 1)] 0;
    CSetup [("n", VNum 2)]; COnScene [("n", VNum 2)] 0;
    COnCase [("n", VNum 2)] "A" 2 0; COnCase [("n", VNum 2)] "A" 2 1;
    COnCase [("n", VNum 2)] "B" 3 0; COnCase [("n", VNum 2)] "B" 3 1;
    CTeardown [("n", VNum 2)] 0;
    COnFinish 0 ].
Proof. vm_compute. reflexivity. Qed.

Definition scene1 : Params := [("n", VNum 1)].

(** A run of one scene in which [onCase] of the second profiler throws on
    the case [B]: the teardown hook is called before the error leaves
    [runScene]. *)
Lemma runScene_teardown_witness :
  exists sc u1 c2 c3,
    setup demo_suite (newScene any_name scene1) (user fresh) = (Ok tt, (sc, u1)) /\
    sceneBody [recorder; faulty] scene1 sc (set_user u1 (add_call (CSetup scene1) fresh))
      = (Throw (Error "boom"), c2) /\
    runTeardown scene1 sc c2 = (Ok tt, c3) /\
    user c3 = ["setup"; "scene"; "A"; "B"; "teardown"] /\
    (runScene demo_suite [recorder; faulty] any_name scene1 fresh
       = (Throw (Error "boom"), c3) /\
     (Ok tt = Ok tt ->
        calls c3 = calls c2
          ++ map (CTeardown scene1) (seq 0 (length (teardownHooks sc))) /\
        performed demo_suite [recorder; faulty] any_name
          (map (ITeardown scene1 sc) (seq 0 (length (teardownHooks sc))))
          (user c2) (user c3))).
Proof.
  do 4 eexists.
  split; [vm_compute; reflexivity|].
  split; [vm_compute; reflexivity|].
  split; [vm_compute; reflexivity|].
  split; [vm_compute; reflexivity|].
  eapply (proj1 (runScene_teardown demo_suite [recorder; faulty] any_name scene1 fresh)
            _ _ (Throw (Error "boom")) _ (Ok tt) _);
    vm_compute; reflexivity.
Defined.

(** A [setup] that registers a teardown hook and then throws. *)
Definition failing_setup (sc : @Scene (list string)) (u : list string)
    : Res unit * (@Scene (list string) * list string) :=
  (Throw (Error "setup failed"), (teardown (say "teardown") sc, u ++ ["setup"])).

Definition failing_suite : @NormalizedSuite (list string) :=
  {| params := [("n", [VNum 1])]; paramNames := [("n", ["1"])];
     setup := failing_setup;
     beforeAll := None; afterAll := None; suite_profilers := None;
     timing := None; validate := None; baseline := None |}.

(** [setup] is called outside the [try] block: when it throws, the teardown
    hook it had registered is not called, and the error leaves [runScene]
    at once. *)
Lemma runScene_setup_throws_no_teardown :
  exists sc u c',
    setup failing_suite (newScene any_name scene1) (user fresh)
      = (Throw (Error "setup failed"), (sc, u)) /\
    length (teardownHooks sc) = 1%nat /\
    runScene failing_suite [recorder] any_name scene1 fresh
      = (Throw (Error "setup failed"), c') /\
    calls c' = [CSetup scene1] /\
    user c' = ["setup"].
Proof.
  do 3 eexists. repeat split; vm_compute; reflexivity.
Qed.

Definition demo_scene : @Scene (list string) :=
  fst (snd (demo_setup (newScene any_name scene1) [])).

Lemma runScene_onCase_throws_witness :
  exists c2 c3 cF,
    setup demo_suite (newScene any_name scene1) (user fresh)
      = (Ok tt, (demo_scene, ["setup"])) /\
    cases demo_scene = take 1 (cases demo_scene) ++ drop 1 (cases demo_scene) /\
    runHooks [recorder; faulty]
      (fun p => option_map (fun h => h demo_scene) (onScene p)) (COnScene scene1)
      (set_user ["setup"] (add_call (CSetup scene1) fresh)) = (Ok tt, c2) /\
    forEach (runCase [recorder; faulty] scene1 (length (scenes c2)))
      (take 1 (cases demo_scene)) (set_scenes (scenes c2 ++ [∅]) c2) = (Ok tt, c3) /\
    (exists bc rest, drop 1 (cases demo_scene) = bc :: rest /\
       runCase [recorder; faulty] scene1 (length (scenes c2)) bc c3
         = (Throw (Error "boom"), cF)) /\
    exists e' c' results,
      runScene demo_suite [recorder; faulty] any_name scene1 fresh = (Throw e', c') /\
      scenes c3 = scenes fresh ++ [results] /\
      dom results = list_to_set (name <$> take 1 (cases demo_scene)) /\
      scenes c' = scenes fresh ++ [results] /\
      notes c' = notes cF /\ meta c' = meta cF /\
      kept fresh c3 /\ kept c3 c'.
Proof.
  do 3 eexists.
  split; [vm_compute; reflexivity|].
  split; [reflexivity|].
  split; [vm_compute; reflexivity|].
  split; [vm_compute; reflexivity|].
  split; [do 2 eexists; split; [reflexivity | vm_compute; reflexivity]|].
  eapply (runScene_onCase_throws demo_suite [recorder; faulty] any_name scene1 fresh
            demo_scene ["setup"] (take 1 (cases demo_scene)) _ []).
  - vm_compute. reflexivity.
  - reflexivity.
  - vm_compute. reflexivity.
  - vm_compute. reflexivity.
  - vm_compute. reflexivity.
Defined.

(** The state that failing scene leaves: the record of the scene holds the
    case [A] only, and the notes of both cases are there, the one of the
    failing hook included. *)
Example runScene_onCase_throws_demo :
  let c' := snd (runScene demo_suite [recorder; faulty] any_name scene1 fresh) in
  scenes c' = [{[ "A" := {[ "time" := MNums [Num 1%Q] ]} ]}] /\
  notes c' = [ {| type := NInfo; text := "measured"; caseId := Some 0%nat |};
               {| type := NInfo; text := "measured"; caseId := Some 1%nat |};
               {| type := NWarn; text := "failing"; caseId := Some 1%nat |} ].
Proof. split; vm_compute; reflexivity. Qed.

(** A context that holds a note and a metric before it runs. *)
Definition used : @Ctx (list string) :=
  {| scenes := [];
     notes := [{| type := NInfo; text := "earlier"; caseId := None |}];
     meta := {[ "size" := {| key := "size"; format := None; analysis := None;
                             lowerIsBetter := None |} ]};
     hasRun := false; caseIndex := 0; logs := []; calls := []; user := [] |}.

Lemma run_keeps_notes_and_meta_witness :
  exists c',
    run demo_suite [recorder; faulty] any_name used = (Throw (Error "boom"), c') /\
    notes used `prefix_of` notes c' /\ dom (meta used) ⊆ dom (meta c').
Proof.
  eexists. split; [vm_compute; reflexivity|].
  eapply (run_keeps_notes_and_meta demo_suite [recorder; faulty] any_name used).
  vm_compute. reflexivity.
Defined.

(** A profiler whose [onScene] throws once a teardown hook has run, that
    is, on the second scene. *)
Definition second_scene_breaker : @Profiler (list string) :=
  {| onStart := None;
     onScene := Some (fun _ u =>
       if bool_decide ("teardown" ∈ u)
       then (Throw (Error "scene failed"), u ++ ["broken"], [CmdNote NWarn "bad scene" None])
       else (Ok tt, u, []));
     onCase := None; onFinish := None |}.

Definition scene2 : Params := [("n", VNum 2)].

Lemma runScene_onScene_throws_witness :
  exists c sc u1 c2 c3,
    forEach (runScene demo_suite [recorder; second_scene_breaker; checker] any_name)
      [scene1] fresh = (Ok tt, c) /\
    setup demo_suite (newScene any_name scene2) (user c) = (Ok tt, (sc, u1)) /\
    runHooks [recorder; second_scene_breaker; checker]
      (fun p => option_map (fun h => h sc) (onScene p)) (COnScene scene2)
      (set_user u1 (add_call (CSetup scene2) c)) = (Throw (Error "scene failed"), c2) /\
    runTeardown scene2 sc c2 = (Ok tt, c3) /\
    runScene demo_suite [recorder; second_scene_breaker; checker] any_name scene2 c
      = (Throw (Error "scene failed"), c3) /\
    scenes c3 = scenes c /\
    caseIndex c2 = caseIndex c /\
    exists called k,
      called `prefix_of` hooked onScene (indexed [recorder; second_scene_breaker; checker]) /\
      called <> [] /\
      (k <= length (teardownHooks sc))%nat /\
      (Ok tt = Ok tt -> k = length (teardownHooks sc)) /\
      calls c3 = calls c ++ [CSetup scene2] ++ map (COnScene scene2) called
                 ++ map (CTeardown scene2) (seq 0 k).
Proof.
  do 5 eexists.
  split; [vm_compute; reflexivity|].
  split; [vm_compute; reflexivity|].
  split; [vm_compute; reflexivity|].
  split; [vm_compute; reflexivity|].
  eapply (runScene_onScene_throws demo_suite [recorder; second_scene_breaker; checker]
            any_name scene2 _ _ _ (Error "scene failed") _ (Ok tt) _);
    vm_compute; reflexivity.
Defined.

Lemma run_stops_at_failing_scene_witness :
  exists c1 c2 c3,
    runHooks [recorder; second_scene_breaker] onStart COnStart (set_hasRun true fresh)
      = (Ok tt, c1) /\
    forEach (runScene demo_suite [recorder; second_scene_breaker] any_name) [scene1] c1
      = (Ok tt, c2) /\
    runScene demo_suite [recorder; second_scene_breaker] any_name scene2 c2
      = (Throw (Error "scene failed"), c3) /\
    user c3 = ["start"; "setup"; "scene"; "A"; "B"; "teardown";
               "setup"; "scene"; "broken"; "teardown"] /\
    run demo_suite [recorder; second_scene_breaker] any_name fresh
      = (Throw (Error "scene failed"), c3) /\
    calls c2 `prefix_of` calls c3 /\
    exists scs ress,
      length scs = length [scene1] /\
      calls c2 = calls fresh
        ++ map COnStart (hooked onStart (indexed [recorder; second_scene_breaker]))
        ++ scenes_calls [recorder; second_scene_breaker] (caseIndex fresh)
             (zip [scene1] scs) /\
      scenes c2 = scenes fresh ++ ress /\ Forall2 records scs ress.
Proof.
  do 3 eexists.
  split; [vm_compute; reflexivity|].
  split; [vm_compute; reflexivity|].
  split; [vm_compute; reflexivity|].
  split; [vm_compute; reflexivity|].
  eapply (run_stops_at_failing_scene demo_suite [recorder; second_scene_breaker]
            any_name fresh _ [scene1] scene2 []).
  - reflexivity.
  - vm_compute. reflexivity.
  - reflexivity.
  - vm_compute. reflexivity.
  - vm_compute. reflexivity.
Defined.

End Profiling.

(** ** The runner entry

    Sources: [runSuite], [RunSuiteError.fromScene], [resolveProfilers] and
    [convertBaseline] of the core runner file; [normalizeSuite] and
    [resolveParams] of the core suite file. *)

Module Runner.
Import Suite Profiling.

#[global] Instance Value_eq_dec : EqDecision Value.
Proof. solve_decision. Defined.

(** Modelled from the spec: [BUILTIN_VARS] of the core utilities, the
    reserved variables [Name], [Builder] and [Executor]. *)
Definition BUILTIN_VARS : list string := ["Name"; "Builder"; "Executor"].

(** The values of one parameter: an iterable of values, or an object from
    display names to values. *)
Inductive ParamValues : Type :=
| FromIterable (vs : list Value)
| FromObject (kvs : list (string * Value)).

(** A parameter definition: its string-keyed entries in insertion order,
    and the number of its symbol keys. *)
Record ParamsDef : Type := {
  entries : list (string * ParamValues);
  symbolKeys : nat;
}.

Record ResultBaseline : Type := { type : string; value : string }.

Definition quoted (q s : string) : string := String.append q (String.append s q).

Definition builtin_message (k : string) : string :=
  String.append (quoted "'" k) " is a builtin variable".

Definition conflict_message (k display : string) : string :=
  String.append "Parameter display name conflict ("
    (String.append k (String.append ": " (String.append display ")"))).

Definition no_value_message (k : string) : string :=
  String.append "Suite parameter " (String.append (quoted dquote k) " must have a value").

Module User.
Section UserSuite.
Context {U : Type}.

Inductive Timing : Type :=
| TimingBool (b : bool)
| TimingOptions (o : TimeProfilerOptions).

(** [BenchmarkSuite] as the user writes it. *)
Record BenchmarkSuite : Type := {
  setup : @Scene U -> U -> Res unit * (@Scene U * U);
  beforeAll : option (@HookFn U);
  afterAll : option (@HookFn U);
  profilers : option (list (option (@Profiler U)));
  timing : option Timing;
  validate : option ValidateOptions;
  params : option ParamsDef;
  baseline : option (string * Value);
}.

(** [UserSuite]: a suite object, or its [setup] function alone. *)
Inductive UserSuite : Type :=
| SetupFunction (f : @Scene U -> U -> Res unit * (@Scene U * U))
| SuiteObject (s : BenchmarkSuite).

End UserSuite.
End User.

Section Run.
Context {U : Type}.

(** [toDisplayName] of the core utilities, [JSON.stringify] on an object of
    strings, and [String(value)]. *)
Variable toDisplayName : Value -> string.
Variable JSON_stringify : list (string * string) -> string.
Variable String_of : Value -> string.

(** The profilers of files that are not among the sources, and the logger
    profiler of the runner file, whose hooks only write log lines. *)
Variable defaultEventLogger : @Profiler U.
Variable executionValidator : ValidateOptions -> @Profiler U.
Variable timeProfiler : TimeProfilerOptions -> @Profiler U.

(** [context[kWorkingParams]]: the slot the handler of [runSuite] reads; no
    file among the sources writes it. *)
Variable kWorkingParams : @Ctx U -> option Params.

Definition pairs_of (values : ParamValues) : list (Value * Value) :=
  match values with
  | FromIterable vs => map (fun v => (v, v)) vs
  | FromObject kvs => map (fun kv => (VStr (fst kv), snd kv)) kvs
  end.

(** The inner loop of [resolveParams] over the values of one parameter. *)
Fixpoint collect (k : string) (pairs : list (Value * Value)) (set current : list string)
    (valueArr : list Value) : Res (list Value * list string) :=
  match pairs with
  | [] => Ok (valueArr, current)
  | (nm, v) :: rest =>
      let display := toDisplayName nm in
      if bool_decide (display ∈ set) then Throw (Error (conflict_message k display))
      else collect k rest (set ++ [display]) (current ++ [display]) (valueArr ++ [v])
  end.

Fixpoint resolveEntries (names : list (string * ParamValues))
    : Res (list (string * list Value) * list (string * list string)) :=
  match names with
  | [] => Ok ([], [])
  | (k, values) :: rest =>
      if bool_decide (k ∈ BUILTIN_VARS) then Throw (Error (builtin_message k)) else
      match collect k (pairs_of values) [] [] [] with
      | Throw e => Throw e
      | Ok (valueArr, []) => Throw (Error (no_value_message k))
      | Ok (valueArr, current) =>
          match resolveEntries rest with
          | Throw e => Throw e
          | Ok (cpSrc, nms) => Ok ((k, valueArr) :: cpSrc, (k, current) :: nms)
          end
      end
  end.

Definition resolveParams (params : ParamsDef)
    : Res (list (string * list Value) * list (string * list string)) :=
  if (0 <? symbolKeys params)%nat
  then Throw (Error "Only string keys are allowed in param")
  else resolveEntries (entries params).

Definition no_options : TimeProfilerOptions :=
  {| warmup := None; samples := None; iterations := None; unrollFactor := None;
     evaluateOverhead := None; throughput := None |}.

Definition normalizeSuite (input : @User.UserSuite U) : Res (@NormalizedSuite U) :=
  match input with
  | User.SetupFunction f =>
      Ok {| Profiling.params := []; paramNames := []; Profiling.setup := f;
            Profiling.beforeAll := None; Profiling.afterAll := None;
            suite_profilers := None; Profiling.timing := Some no_options;
            Profiling.validate := None; Profiling.baseline := None |}
  | User.SuiteObject s =>
      match resolveParams (default {| entries := []; symbolKeys := 0 |} (User.params s)) with
      | Throw e => Throw e
      | Ok (params, paramNames) =>
          let timing :=
            match User.timing s with
            | None | Some (User.TimingBool true) => Some no_options
            | Some (User.TimingBool false) => None
            | Some (User.TimingOptions o) => Some o
            end in
          Ok {| Profiling.params := params; paramNames := paramNames;
                Profiling.setup := User.setup s;
                Profiling.beforeAll := User.beforeAll s;
                Profiling.afterAll := User.afterAll s;
                suite_profilers := User.profilers s;
                Profiling.timing := timing;
                Profiling.validate := User.validate s;
                Profiling.baseline := User.baseline s |}
      end
  end.

Definition resolveProfilers (suite : @NormalizedSuite U) : list (@Profiler U) :=
  let resolved :=
    [Some defaultEventLogger]
    ++ match Profiling.validate suite with
       | Some v => [Some (executionValidator v)]
       | None => []
       end
    ++ match Profiling.timing suite with
       | Some t => [Some (timeProfiler t)]
       | None => []
       end
    ++ default [] (suite_profilers suite) in
  omap (fun p => p) resolved.

(** [array.findIndex(e => e[0] === type)] and [array.indexOf(value)]. *)
Fixpoint findIndex {A} (f : A -> bool) (l : list A) : option nat :=
  match l with
  | [] => None
  | x :: l' => if f x then Some 0%nat else option_map S (findIndex f l')
  end.

Definition convertBaseline (suite : @NormalizedSuite U) : Res (option ResultBaseline) :=
  match Profiling.baseline suite with
  | None => Ok None
  | Some (ty, v) =>
      if bool_decide (ty ∈ BUILTIN_VARS) then
        match v with
        | VStr s => Ok (Some {| type := ty; value := s |})
        | _ => Throw (Error (String.append "Value of baseline ("
                  (String.append ty ") must be a string")))
        end
      else
        match findIndex (fun e => String.eqb (fst e) ty) (Profiling.params suite) with
        | None => Throw (Error (String.append "Baseline ("
                    (String.append ty ") does not in params")))
        | Some i =>
            let values := default [] (snd <$> Profiling.params suite !! i) in
            match findIndex (fun x => bool_decide (x = v)) values with
            | Some k =>
                let names := default [] (snd <$> paramNames suite !! i) in
                Ok (Some {| type := ty; value := default "" (names !! k) |})
            | None =>
                Throw (Error (String.append "Baseline value ("
                  (String.append (String_of v)
                    (String.append ") does not in params["
                      (String.append ty "}")))))
            end
        end
  end.

(** [RunSuiteError.fromScene(params, cause)]. *)
Definition fromScene (params : Params) (cause : JsError) : JsError :=
  let p := map (fun kv => (fst kv, toDisplayName (snd kv))) params in
  let s := JSON_stringify p in
  RunSuiteError (String.append "Error occurred in scene " s) cause (Some params) (Some s).

Record RunSuiteResult : Type := {
  scenes : list (gmap string Metrics);
  notes : list Note;
  meta : gmap string MetricMeta;
  paramDef : list (string * list string);
  result_baseline : option ResultBaseline;
}.

Record RunSuiteOption : Type := { pattern : option (string -> bool) }.

Definition callOpt (h : option (@HookFn U)) : M (@Ctx U) unit :=
  match h with Some f => callHook f | None => ret tt end.

(** [new ProfilingContext(suite, profilers, options)] over the user world. *)
Definition newContext (u : U) : @Ctx U :=
  {| Profiling.scenes := []; Profiling.notes := []; Profiling.meta := ∅;
     hasRun := false; caseIndex := 0; logs := []; calls := []; user := u |}.

(** The handler of [runSuite]: [context?.[kWorkingParams]] decides between
    the error of a scene and the plain one. *)
Definition wrapError (wp : option Params) (e : JsError) : JsError :=
  match wp with
  | Some ps => fromScene ps e
  | None => RunSuiteError "Error occurred when running suite." e None None
  end.

(** [runSuite(userSuite, options)].  [normalizeSuite] is called before the
    [try] block; [convertBaseline] throws before the context exists. *)
Definition runSuite (userSuite : @User.UserSuite U) (options : RunSuiteOption) (u : U)
    : Res RunSuiteResult * U :=
  match normalizeSuite userSuite with
  | Throw e => (Throw e, u)
  | Ok suite =>
      match convertBaseline suite with
      | Throw e => (Throw (wrapError None e), u)
      | Ok baseline =>
          let profilers := resolveProfilers suite in
          let context := newContext u in
          match (callOpt (Profiling.beforeAll suite) ;;;
                 try_finally
                   (run suite profilers (default (fun _ => true) (pattern options)))
                   (callOpt (Profiling.afterAll suite))) context with
          | (Ok _, c) =>
              (Ok {| scenes := Profiling.scenes c; notes := Profiling.notes c;
                     meta := Profiling.meta c; paramDef := paramNames suite;
                     result_baseline := baseline |}, user c)
          | (Throw e, c) => (Throw (wrapError (kWorkingParams c) e), user c)
          end
      end
  end.

Definition is_RunSuiteError (e : JsError) : bool :=
  match e with RunSuiteError _ _ _ _ => true | Error _ => false end.

Definition cause_of (e : JsError) : option JsError :=
  match e with RunSuiteError _ c _ _ => Some c | Error _ => None end.

(** Every failure after normalisation is a [RunSuiteError]. *)
Lemma runSuite_wraps_after_normalisation userSuite options u suite e u' :
  normalizeSuite userSuite = Ok suite ->
  runSuite userSuite options u = (Throw e, u') ->
  is_RunSuiteError e = true.
Proof.
  intros Hn H. unfold runSuite in H. rewrite Hn in H.
  destruct (convertBaseline suite) as [b|e0].
  - destruct ((callOpt (Profiling.beforeAll suite) ;;; _) (newContext u)) as [[[]|e1] c];
      [discriminate H|].
    injection H as <- <-. unfold wrapError, fromScene. now destruct (kWorkingParams c).
  - injection H as <- <-. reflexivity.
Qed.

(** The wrapped error keeps the original as its cause. *)
Lemma wrapError_cause wp e : cause_of (wrapError wp e) = Some e.
Proof. destruct wp; reflexivity. Qed.

(** A suite whose parameter [n] has no value. *)
Definition no_value_suite : @User.UserSuite U :=
  User.SuiteObject
    {| User.setup := fun sc u => (Ok tt, (sc, u));
       User.beforeAll := None; User.afterAll := None; User.profilers := None;
       User.timing := None; User.validate := None;
       User.params := Some {| entries := [("n", FromIterable [])]; symbolKeys := 0 |};
       User.baseline := None |}.

(** C6, at the failing input: the configuration error of [normalizeSuite]
    leaves [runSuite] as it was thrown, a plain [Error]; it is not wrapped
    and has no cause. *)
Theorem runSuite_normalisation_error_not_wrapped options u :
  runSuite no_value_suite options u = (Throw (Error (no_value_message "n")), u) /\
  is_RunSuiteError (Error (no_value_message "n")) = false.
Proof. split; reflexivity. Qed.

(** *** What [resolveParams] accepts and returns *)

(** The display names of the values of a parameter, in definition order. *)
Definition display_names (pairs : list (Value * Value)) : list string :=
  map (fun p => toDisplayName (fst p)) pairs.

Definition raw_values (kv : string * ParamValues) : string * list Value :=
  (fst kv, map snd (pairs_of (snd kv))).

Definition shown_values (kv : string * ParamValues) : string * list string :=
  (fst kv, display_names (pairs_of (snd kv))).

(** A parameter the suite may define: its name is not reserved, it has a
    value, and its values have pairwise different display names. *)
Definition valid_param (kv : string * ParamValues) : Prop :=
  (fst kv ∉ BUILTIN_VARS) /\
  pairs_of (snd kv) <> [] /\
  NoDup (display_names (pairs_of (snd kv))).

Lemma collect_spec k pairs set current valueArr va cur :
  collect k pairs set current valueArr = Ok (va, cur) <->
  (forall d, d ∈ display_names pairs -> d ∉ set) /\
  NoDup (display_names pairs) /\
  va = valueArr ++ map snd pairs /\
  cur = current ++ display_names pairs.
Proof using toDisplayName.
  revert set current valueArr.
  induction pairs as [|[nm v] rest IH]; intros set current valueArr; simpl.
  - rewrite !app_nil_r. split.
    + intros H. injection H as <- <-. repeat split; [|constructor].
      intros d Hd. inversion Hd.
    + intros (_ & _ & -> & ->). reflexivity.
  - case_bool_decide as Hin.
    + split; [discriminate|]. intros (Hd & _). exfalso.
      apply (Hd (toDisplayName nm)); [left | exact Hin].
    + rewrite IH. rewrite <- !app_assoc. simpl. split.
      * intros (Hd & Hnd & -> & ->). repeat split.
        -- intros d Hd'. apply elem_of_cons in Hd' as [->|Hd']; [exact Hin|].
           intros Hs. apply (Hd d Hd'). apply elem_of_app. now left.
        -- constructor; [|exact Hnd]. intros Hd'. apply (Hd _ Hd').
           apply elem_of_app. right. now apply list_elem_of_singleton.
      * intros (Hd & Hnd & -> & ->). apply NoDup_cons in Hnd as [Hnotin Hnd].
        repeat split; [|exact Hnd].
        intros d Hd' Hset. apply elem_of_app in Hset as [Hset|Hset].
        -- apply (Hd d); [now right | exact Hset].
        -- apply list_elem_of_singleton in Hset. subst d. contradiction.
Qed.

Lemma resolveEntries_spec names cpSrc nms :
  resolveEntries names = Ok (cpSrc, nms) <->
  Forall valid_param names /\
  cpSrc = map raw_values names /\
  nms = map shown_values names.
Proof using toDisplayName.
  revert cpSrc nms. induction names as [|[k values] rest IH]; intros cpSrc nms; simpl.
  - split.
    + intros H. injection H as <- <-. repeat split. constructor.
    + intros (_ & -> & ->). reflexivity.
  - case_bool_decide as Hb.
    { split; [discriminate|]. intros (Hall & _).
      apply Forall_cons in Hall as [(Hk & _) _]. contradiction. }
    destruct (collect k (pairs_of values) [] [] []) as [[va cur]|e] eqn:Ec.
    + apply collect_spec in Ec as (_ & Hnd & -> & ->).
      cbv beta iota fix delta [app].
      destruct (display_names (pairs_of values)) as [|d ds] eqn:Ed.
      { split; [discriminate|]. intros (Hall & _).
        apply Forall_cons in Hall as [(_ & Hne & _) _]. simpl in Hne.
        unfold display_names in Ed. apply map_eq_nil in Ed. contradiction. }
      destruct (resolveEntries rest) as [[cp nm]|e] eqn:Er.
      * destruct (proj1 (IH cp nm) eq_refl) as (Hall & -> & ->). split.
        -- intros H. injection H as <- <-. rewrite <- Ed.
           split; [|split; reflexivity]. constructor; [|exact Hall].
           repeat split; simpl; [exact Hb | | now rewrite Ed].
           intros E. rewrite E in Ed. discriminate Ed.
        -- intros (_ & -> & ->). rewrite <- Ed. reflexivity.
      * split; [discriminate|]. intros (Hall & _).
        apply Forall_cons in Hall as [_ Hall].
        assert (Hok : @Throw (list (string * list Value) * list (string * list string)) e
                      = Ok (map raw_values rest, map shown_values rest))
          by (apply IH; auto).
        discriminate Hok.
    + split; [discriminate|]. intros (Hall & _).
      apply Forall_cons in Hall as [(_ & _ & Hnd) _]. simpl in Hnd.
      assert (Hok : collect k (pairs_of values) [] [] []
                    = Ok ([] ++ map snd (pairs_of values),
                          [] ++ display_names (pairs_of values))).
      { apply collect_spec. repeat split; [|exact Hnd]. intros d _ Hd. inversion Hd. }
      rewrite Hok in Ec. discriminate Ec.
Qed.

(** X14: [resolveParams] returns exactly when the definition has no symbol
    key and every parameter is valid: its name is not a builtin variable, it
    has at least one value, and the display names of its values are pairwise
    different.  It then returns, parameter by parameter in definition order,
    the raw values and their display names, side by side. *)
Theorem resolveParams_spec params cpSrc names :
  resolveParams params = Ok (cpSrc, names) <->
  symbolKeys params = 0%nat /\
  Forall valid_param (entries params) /\
  cpSrc = map raw_values (entries params) /\
  names = map shown_values (entries params).
Proof using toDisplayName.
  unfold resolveParams. destruct (symbolKeys params) as [|n]; simpl.
  - rewrite resolveEntries_spec. tauto.
  - split; [discriminate|]. intros (H & _). discriminate H.
Qed.

(** *** The baseline of the result *)

Lemma findIndex_Some {A} (f : A -> bool) l i :
  findIndex f l = Some i -> exists x, l !! i = Some x /\ f x = true.
Proof.
  revert i. induction l as [|x l IH]; intros i H; simpl in H; [discriminate|].
  destruct (f x) eqn:Ef.
  - injection H as <-. eauto.
  - destruct (findIndex f l) as [j|]; [|discriminate]. injection H as <-.
    exact (IH j eq_refl).
Qed.

Definition no_params : ParamsDef := {| entries := []; symbolKeys := 0 |}.

Lemma normalizeSuite_params s suite :
  normalizeSuite (User.SuiteObject s) = Ok suite ->
  Forall valid_param (entries (default no_params (User.params s))) /\
  Profiling.params suite = map raw_values (entries (default no_params (User.params s))) /\
  paramNames suite = map shown_values (entries (default no_params (User.params s))) /\
  Profiling.baseline suite = User.baseline s.
Proof.
  unfold normalizeSuite. fold no_params.
  destruct (resolveParams (default no_params (User.params s))) as [[ps nms]|e] eqn:E;
    [|discriminate].
  apply resolveParams_spec in E as (_ & Hall & -> & ->).
  intros H. injection H as <-. simpl. auto.
Qed.

(** X15: the baseline of the result names the value by its display name.
    When [convertBaseline] returns a baseline for a suite object that
    [normalizeSuite] accepted, the suite asked for a baseline of that type;
    for a builtin variable its value is the string that was given, and for a
    parameter it is the display name of a value of that parameter, whose
    raw value is the one that was given. *)
Theorem convertBaseline_display_name s suite b :
  normalizeSuite (User.SuiteObject s) = Ok suite ->
  convertBaseline suite = Ok (Some b) ->
  exists v, User.baseline s = Some (type b, v) /\
    (((type b ∈ BUILTIN_VARS) /\ v = VStr (value b)) \/
     ((type b ∉ BUILTIN_VARS) /\
      exists values nm,
        (type b, values) ∈ entries (default no_params (User.params s)) /\
        (nm, v) ∈ pairs_of values /\
        value b = toDisplayName nm)).
Proof.
  intros Hn H. apply normalizeSuite_params in Hn as (_ & Hps & Hnms & Hb).
  unfold convertBaseline in H. rewrite Hb, Hps, Hnms in H.
  destruct (User.baseline s) as [[ty v]|]; [|discriminate].
  case_bool_decide as Hbuiltin.
  - destruct v as [|str| |]; try discriminate. injection H as <-. simpl.
    exists (VStr str). split; [reflexivity | left; auto].
  - set (es := entries (default no_params (User.params s))) in *.
    destruct (findIndex _ (map raw_values es)) as [i|] eqn:Ei; [|discriminate].
    apply findIndex_Some in Ei as ([k0 vals] & Hi & Hk). simpl in Hk.
    apply String.eqb_eq in Hk. subst k0.
    rewrite list_lookup_fmap in Hi, H.
    rewrite list_lookup_fmap in H.
    destruct (es !! i) as [[k values]|] eqn:Hes; [|discriminate]. simpl in Hi, H.
    injection Hi as -> <-.
    destruct (findIndex _ (map snd (pairs_of values))) as [j|] eqn:Ej; [|discriminate].
    apply findIndex_Some in Ej as (x & Hj & Hx). apply bool_decide_eq_true in Hx. subst x.
    injection H as <-. simpl. exists v. split; [reflexivity|]. right.
    split; [exact Hbuiltin|].
    rewrite list_lookup_fmap in Hj.
    destruct (pairs_of values !! j) as [[nm v']|] eqn:Hp; [|discriminate].
    simpl in Hj. injection Hj as ->.
    exists values, nm. split; [eapply list_elem_of_lookup_2; eauto|].
    split; [eapply list_elem_of_lookup_2; eauto|].
    unfold display_names. rewrite list_lookup_fmap, Hp. reflexivity.
Qed.

(** *** The scenes of the result *)

(** The number of combinations of a parameter definition: the product of
    the numbers of values. *)
Definition combinations {A} (def : list (string * list A)) : nat :=
  foldr (fun kv n => (length (snd kv) * n)%nat) 1%nat def.

Lemma length_flat_map_const {A B} (f : A -> list B) (l : list A) (n : nat) :
  (forall x, length (f x) = n) -> length (flat_map f l) = (length l * n)%nat.
Proof.
  intros Hf. induction l as [|x l IH]; simpl; [reflexivity|].
  rewrite length_app, IH, Hf. reflexivity.
Qed.

Lemma cartesianObject_length src : length (cartesianObject src) = combinations src.
Proof.
  induction src as [|[k vs] rest IH]; [reflexivity|].
  change (combinations ((k, vs) :: rest)) with (length vs * combinations rest)%nat.
  change (cartesianObject ((k, vs) :: rest))
    with (flat_map (fun v => map (cons (k, v)) (cartesianObject rest)) vs).
  apply length_flat_map_const. intros v. now rewrite length_map.
Qed.

Lemma combinations_raw_shown es :
  combinations (map raw_values es) = combinations (map shown_values es).
Proof.
  induction es as [|kv es IH]; simpl; [reflexivity|].
  unfold display_names. now rewrite IH, !length_map.
Qed.

Lemma normalizeSuite_combinations userSuite suite :
  normalizeSuite userSuite = Ok suite ->
  combinations (Profiling.params suite) = combinations (paramNames suite).
Proof.
  destruct userSuite as [f|s].
  - intros H. injection H as <-. reflexivity.
  - intros H. apply normalizeSuite_params in H as (_ & -> & -> & _).
    apply combinations_raw_shown.
Qed.

Lemma callOpt_scenes h c r c' :
  callOpt h c = (r, c') -> Profiling.scenes c' = Profiling.scenes c.
Proof.
  destruct h as [f|]; simpl; intros H.
  - now apply callHook_frame in H as (Hs & _).
  - now injection H as <- <-.
Qed.

(** X16: a result of [runSuite] holds one scene record for each
    combination of the values of its [paramDef], which is the [paramNames]
    of the normalised suite. *)
Theorem runSuite_scenes_match_paramDef userSuite options u res u' :
  runSuite userSuite options u = (Ok res, u') ->
  length (scenes res) = combinations (paramDef res) /\
  exists suite, normalizeSuite userSuite = Ok suite /\
    paramDef res = paramNames suite /\
    length (scenes res) = length (cartesianObject (Profiling.params suite)).
Proof.
  intros H. unfold runSuite in H.
  destruct (normalizeSuite userSuite) as [suite|e] eqn:Hn; [|discriminate].
  destruct (convertBaseline suite) as [b|e]; [|discriminate].
  destruct ((callOpt (Profiling.beforeAll suite) ;;; _) (newContext u))
    as [[[]|e] c] eqn:Hbody; [|discriminate].
  injection H as <- <-. simpl.
  apply bind_inv_ok in Hbody as ([] & c1 & Hbefore & Hbody).
  apply callOpt_scenes in Hbefore. simpl in Hbefore.
  unfold try_finally in Hbody.
  destruct (run suite _ _ c1) as [rr c2] eqn:Hrun.
  destruct (callOpt (Profiling.afterAll suite) c2) as [[[]|e] c3] eqn:Hafter;
    [|discriminate].
  injection Hbody as -> <-. apply callOpt_scenes in Hafter.
  unfold run in Hrun. destruct (hasRun c1); [discriminate|].
  apply bind_inv_ok in Hrun as ([] & c1a & H1 & Hrun).
  apply bind_inv_ok in Hrun as ([] & c1b & H2 & H3).
  apply (profiler_hooks_ok _ (fun _ => true)) in H1 as (_ & Hs1 & _).
  apply runScenes_ok in H2 as (scs & ress & Hlen & _ & Hs2 & Hall).
  apply (profiler_hooks_ok _ (fun _ => true)) in H3 as (_ & Hs3 & _).
  simpl in Hs1.
  assert (Hcount : length (Profiling.scenes c3)
                   = length (cartesianObject (Profiling.params suite))).
  { rewrite Hafter, Hs3, Hs2, Hs1, Hbefore. simpl.
    apply Forall2_length in Hall. lia. }
  split.
  - rewrite Hcount, cartesianObject_length.
    exact (normalizeSuite_combinations _ _ Hn).
  - exists suite. split; [reflexivity|]. split; [reflexivity | exact Hcount].
Qed.

(** *** Failures and the suite hooks *)

(** X17: once the suite is normalised, every failure of [runSuite] is a
    [RunSuiteError] whose cause is the error that was thrown: the error of
    [convertBaseline], or the one that left [beforeAll], the run or
    [afterAll]. *)
Theorem runSuite_failure_has_cause userSuite options u suite e u' :
  normalizeSuite userSuite = Ok suite ->
  runSuite userSuite options u = (Throw e, u') ->
  is_RunSuiteError e = true /\
  exists original, cause_of e = Some original /\
    ((convertBaseline suite = Throw original /\ u' = u) \/
     exists c,
       (callOpt (Profiling.beforeAll suite) ;;;
        try_finally
          (run suite (resolveProfilers suite) (default (fun _ => true) (pattern options)))
          (callOpt (Profiling.afterAll suite))) (newContext u) = (Throw original, c) /\
       u' = user c).
Proof.
  intros Hn H. unfold runSuite in H. rewrite Hn in H.
  destruct (convertBaseline suite) as [b|e0].
  - destruct ((callOpt (Profiling.beforeAll suite) ;;; _) (newContext u))
      as [[[]|e1] c] eqn:Hbody; [discriminate H|].
    injection H as <- <-. split; [now destruct (kWorkingParams c)|].
    exists e1. split; [apply wrapError_cause|]. right. exists c. auto.
  - injection H as <- <-. split; [reflexivity|].
    exists e0. split; [reflexivity|]. left. auto.
Qed.

Definition is_ok {A} (r : Res A) : bool :=
  match r with Ok _ => true | Throw _ => false end.

(** X18: [afterAll] runs after the run whatever its outcome.  Once
    [beforeAll] has returned, [runSuite] calls [afterAll] on the state the
    run left, whether the run returned or threw; the user world it leaves is
    the one [runSuite] leaves, and [runSuite] returns a result exactly when
    both the run and [afterAll] returned. *)
Theorem runSuite_afterAll_runs userSuite options u suite b c1 r c2 :
  normalizeSuite userSuite = Ok suite ->
  convertBaseline suite = Ok b ->
  callOpt (Profiling.beforeAll suite) (newContext u) = (Ok tt, c1) ->
  run suite (resolveProfilers suite) (default (fun _ => true) (pattern options)) c1
    = (r, c2) ->
  exists ra c3,
    callOpt (Profiling.afterAll suite) c2 = (ra, c3) /\
    snd (runSuite userSuite options u) = user c3 /\
    (is_ok (fst (runSuite userSuite options u)) = true <-> r = Ok tt /\ ra = Ok tt).
Proof.
  intros Hn Hb Hbefore Hrun.
  destruct (callOpt (Profiling.afterAll suite) c2) as [ra c3] eqn:Hafter.
  exists ra, c3. split; [reflexivity|].
  destruct (runSuite userSuite options u) as [rs us] eqn:Hrs. simpl.
  unfold runSuite in Hrs. rewrite Hn, Hb in Hrs. unfold bind in Hrs.
  rewrite Hbefore in Hrs. unfold try_finally in Hrs. rewrite Hrun, Hafter in Hrs.
  destruct ra as [[]|ea], r as [[]|er]; injection Hrs as <- <-; simpl;
    (split; [reflexivity|]); split; intros H; try discriminate H;
    try (destruct H; discriminate); auto.
Qed.

(** X19: when [beforeAll] throws, [runSuite] fails with its error as cause
    and leaves the user world as [beforeAll] left it: the run does not
    start, and [afterAll] is not called. *)
Theorem runSuite_beforeAll_throws userSuite options u suite b h e u1 :
  normalizeSuite userSuite = Ok suite ->
  convertBaseline suite = Ok b ->
  Profiling.beforeAll suite = Some h ->
  h u = (Throw e, u1) ->
  exists e', runSuite userSuite options u = (Throw e', u1) /\
    is_RunSuiteError e' = true /\ cause_of e' = Some e.
Proof.
  intros Hn Hb Hh He. unfold runSuite. rewrite Hn, Hb, Hh.
  unfold bind, callOpt, callHook. simpl. rewrite He. simpl.
  eexists. split; [reflexivity|].
  split; [now destruct (kWorkingParams _) | apply wrapError_cause].
Qed.

End Run.

(** *** The logger profiler

    Source: [DefaultEventLogger] of the core runner file.  Its two private
    counters are the state; each hook returns the new state and what it
    hands to [ctx.info]. *)

Record LoggerState : Type := { sceneIndex : nat; caseOfScene : nat }.

Definition newline : string := String (ascii_of_nat 10) EmptyString.

Definition show_bool (b : bool) : string := if b then "true" else "false".

(** [v.length] for an entry [v] of [paramNames]: an entry is the array
    [[key, names]], of two elements. *)
Definition entry_length {A} (v : string * list A) : nat := 2.

(** [ctx.suite.paramNames.reduce((s, v) => s * v.length, 1)]. *)
Definition sceneCount (paramNames : list (string * list string)) : nat :=
  fold_left (fun s v => (s * entry_length v)%nat) paramNames 1%nat.

Section Logger.
Context {U : Type}.

(** [JSON.stringify(scene.params)]. *)
Variable stringify : Params -> string.

Definition logger_onScene (suite : @NormalizedSuite U) (scene : @Scene U)
    (st : LoggerState) : LoggerState * Cmd :=
  let caseCount := length (cases scene) in
  let i := S (sceneIndex st) in
  let paramsText :=
    if (length (paramNames suite) =? 0)%nat then "no parameters defined."
    else "params: " +:+ newline +:+ stringify (Suite.params scene) in
  ({| sceneIndex := i; caseOfScene := 0 |},
   CmdLog LInfo (Some (
     if (caseCount =? 0)%nat
     then newline +:+ "No case found from scene #" +:+ pretty i +:+ ", " +:+ paramsText
     else newline +:+ "Scene #" +:+ pretty i +:+ " of "
            +:+ pretty (sceneCount (paramNames suite))
            +:+ ", " +:+ pretty caseCount +:+ " cases, " +:+ paramsText))).

Definition logger_onCase (c : @BenchCase U) (st : LoggerState) : LoggerState * Cmd :=
  let hooks := (0 <? length (beforeHooks c) + length (afterHooks c))%nat in
  let i := S (caseOfScene st) in
  ({| sceneIndex := sceneIndex st; caseOfScene := i |},
   CmdLog LInfo (Some (
     newline +:+ "Case #" +:+ pretty i +:+ ": " +:+ name c
       +:+ " (Async=" +:+ show_bool (isAsync c)
       +:+ ", InvocationHooks=" +:+ show_bool hooks +:+ ")"))).

Lemma sceneCount_from (names : list (string * list string)) (n : nat) :
  fold_left (fun s v => (s * entry_length v)%nat) names n = (n * 2 ^ length names)%nat.
Proof.
  revert n. induction names as [|v names IH]; intros n; simpl.
  - lia.
  - rewrite IH. unfold entry_length. lia.
Qed.

(** X20: for a scene with cases, the logger announces the scene as one of
    [2 ^ p], where [p] is the number of parameters of the suite, whatever
    the numbers of their values; the number of scenes of the run, the number
    of combinations of the values, is this number only for particular
    suites, such as those whose parameters have two values each. *)
Theorem logger_scene_total suite scene st :
  cases scene <> [] ->
  logger_onScene suite scene st =
    ({| sceneIndex := S (sceneIndex st); caseOfScene := 0 |},
     CmdLog LInfo (Some (
       newline +:+ "Scene #" +:+ pretty (S (sceneIndex st)) +:+ " of "
         +:+ pretty (2 ^ length (paramNames suite))%nat
         +:+ ", " +:+ pretty (length (cases scene)) +:+ " cases, "
         +:+ (if (length (paramNames suite) =? 0)%nat then "no parameters defined."
              else "params: " +:+ newline +:+ stringify (Suite.params scene))))) /\
  (Forall (fun kv => length (snd kv) = 2%nat) (paramNames suite) ->
   combinations (paramNames suite) = (2 ^ length (paramNames suite))%nat).
Proof.
  intros Hcases. split.
  - unfold logger_onScene, sceneCount. rewrite sceneCount_from, Nat.mul_1_l.
    destruct (cases scene); [contradiction | reflexivity].
  - induction 1 as [|kv names Hkv _ IH]; simpl; [reflexivity|].
    rewrite Hkv, IH. lia.
Qed.

End Logger.

(** *** A concrete runner; the user world is a log of strings. *)

Definition demo_display (v : Value) : string :=
  match v with
  | VStr str => str
  | VNum 1 => "1"
  | VNum 2 => "2"
  | VNum _ => "n"
  | VBool true => "true"
  | VBool false => "false"
  | VObj _ => "[object Object]"
  end.

Definition demo_json (l : list (string * string)) : string :=
  String.concat "," (map (fun kv => String.append (fst kv) (String.append ":" (snd kv))) l).

(** A profiler without hooks. *)
Definition silent : @Profiler (list string) :=
  {| onStart := None; onScene := None; onCase := None; onFinish := None |}.

Definition demo_runSuite
    : @User.UserSuite (list string) -> RunSuiteOption -> list string
      -> Res RunSuiteResult * list string :=
  runSuite demo_display demo_json demo_display silent
    (fun _ => silent) (fun _ => recorder) (fun _ => None).

Definition demo_params : ParamsDef :=
  {| entries := [ ("n", FromIterable [VNum 1; VNum 2]);
                  ("mode", FromObject [("fast", VBool true); ("slow", VBool false)]) ];
     symbolKeys := 0 |}.

(** A suite of two parameters with two values each, with both suite hooks
    and a baseline. *)
Definition sized : @User.BenchmarkSuite (list string) :=
  {| User.setup := demo_setup;
     User.beforeAll := Some (say "before all");
     User.afterAll := Some (say "after all");
     User.profilers := Some [Some checker; None];
     User.timing := None; User.validate := None;
     User.params := Some demo_params;
     User.baseline := Some ("mode", VBool false) |}.

(** The same suite with a profiler that throws on the case [B]. *)
Definition sized_faulty : @User.BenchmarkSuite (list string) :=
  {| User.setup := demo_setup;
     User.beforeAll := Some (say "before all");
     User.afterAll := Some (say "after all");
     User.profilers := Some [Some faulty];
     User.timing := None; User.validate := None;
     User.params := Some demo_params;
     User.baseline := None |}.

(** The same suite with a [beforeAll] that throws. *)
Definition sized_guarded : @User.BenchmarkSuite (list string) :=
  {| User.setup := demo_setup;
     User.beforeAll := Some failing_hook;
     User.afterAll := Some (say "after all");
     User.profilers := None;
     User.timing := None; User.validate := None;
     User.params := Some demo_params;
     User.baseline := None |}.

Definition no_pattern : RunSuiteOption := {| pattern := None |}.

(** The parameters of that suite are accepted, and come out as raw values
    and display names side by side. *)
Example resolveParams_demo :
  resolveParams demo_display demo_params
  = Ok ([("n", [VNum 1; VNum 2]); ("mode", [VBool true; VBool false])],
        [("n", ["1"; "2"]); ("mode", ["fast"; "slow"])]).
Proof. vm_compute. reflexivity. Qed.

(** Two values of one display name are rejected. *)
Example resolveParams_conflict :
  resolveParams demo_display
    {| entries := [("n", FromIterable [VNum 3; VNum 4])]; symbolKeys := 0 |}
  = Throw (Error (conflict_message "n" "n")).
Proof. vm_compute. reflexivity. Qed.

Lemma convertBaseline_display_name_witness :
  exists suite b,
    normalizeSuite demo_display (User.SuiteObject sized) = Ok suite /\
    convertBaseline demo_display suite = Ok (Some b) /\
    b = {| type := "mode"; value := "slow" |} /\
    exists v, User.baseline sized = Some (type b, v) /\
      (((type b ∈ BUILTIN_VARS) /\ v = VStr (value b)) \/
       ((type b ∉ BUILTIN_VARS) /\
        exists values nm,
          (type b, values) ∈ entries (default no_params (User.params sized)) /\
          (nm, v) ∈ pairs_of values /\
          value b = demo_display nm)).
Proof.
  do 2 eexists. split; [vm_compute; reflexivity|].
  split; [vm_compute; reflexivity|]. split; [reflexivity|].
  eapply (convertBaseline_display_name demo_display demo_display sized);
    vm_compute; reflexivity.
Defined.

Lemma runSuite_scenes_match_paramDef_witness :
  exists res u',
    demo_runSuite (User.SuiteObject sized) no_pattern [] = (Ok res, u') /\
    length (scenes res) = 4%nat /\
    length (scenes res) = combinations (paramDef res) /\
    exists suite, normalizeSuite demo_display (User.SuiteObject sized) = Ok suite /\
      paramDef res = paramNames suite /\
      length (scenes res) = length (cartesianObject (Profiling.params suite)).
Proof.
  do 2 eexists. split; [vm_compute; reflexivity|]. split; [reflexivity|].
  eapply (runSuite_scenes_match_paramDef demo_display demo_json demo_display silent
            (fun _ => silent) (fun _ => recorder) (fun _ => None)
            (User.SuiteObject sized) no_pattern []).
  vm_compute. reflexivity.
Defined.

Lemma runSuite_failure_has_cause_witness :
  exists suite e u',
    normalizeSuite demo_display (User.SuiteObject sized_faulty) = Ok suite /\
    demo_runSuite (User.SuiteObject sized_faulty) no_pattern [] = (Throw e, u') /\
    cause_of e = Some (Error "boom") /\
    is_RunSuiteError e = true /\
    exists original, cause_of e = Some original /\
      ((convertBaseline demo_display suite = Throw original /\ u' = []) \/
       exists c,
         (callOpt (Profiling.beforeAll suite) ;;;
          try_finally
            (run suite (resolveProfilers silent (fun _ => silent) (fun _ => recorder) suite)
                 (default (fun _ => true) (pattern no_pattern)))
            (callOpt (Profiling.afterAll suite))) (newContext []) = (Throw original, c) /\
         u' = user c).
Proof.
  do 3 eexists. split; [vm_compute; reflexivity|].
  split; [vm_compute; reflexivity|]. split; [reflexivity|].
  eapply (runSuite_failure_has_cause demo_display demo_json demo_display silent
            (fun _ => silent) (fun _ => recorder) (fun _ => None)
            (User.SuiteObject sized_faulty) no_pattern []);
    vm_compute; reflexivity.
Defined.

Lemma runSuite_afterAll_runs_witness :
  exists suite b c1 c2,
    normalizeSuite demo_display (User.SuiteObject sized_faulty) = Ok suite /\
    convertBaseline demo_display suite = Ok b /\
    callOpt (Profiling.beforeAll suite) (newContext []) = (Ok tt, c1) /\
    run suite (resolveProfilers silent (fun _ => silent) (fun _ => recorder) suite)
      (default (fun _ => true) (pattern no_pattern)) c1 = (Throw (Error "boom"), c2) /\
    exists ra c3,
      callOpt (Profiling.afterAll suite) c2 = (ra, c3) /\
      snd (demo_runSuite (User.SuiteObject sized_faulty) no_pattern []) = user c3 /\
      (is_ok (fst (demo_runSuite (User.SuiteObject sized_faulty) no_pattern [])) = true
       <-> Throw (Error "boom") = Ok tt /\ ra = Ok tt).
Proof.
  do 4 eexists. split; [vm_compute; reflexivity|].
  split; [vm_compute; reflexivity|].
  split; [vm_compute; reflexivity|].
  split; [vm_compute; reflexivity|].
  eapply (runSuite_afterAll_runs demo_display demo_json demo_display silent
            (fun _ => silent) (fun _ => recorder) (fun _ => None)
            (User.SuiteObject sized_faulty) no_pattern []);
    vm_compute; reflexivity.
Defined.

(** In that run [afterAll] is the last thing to write to the user world. *)
Example runSuite_afterAll_demo :
  snd (demo_runSuite (User.SuiteObject sized_faulty) no_pattern [])
  = ["before all"; "start"; "setup"; "scene"; "A"; "B"; "teardown"; "after all"].
Proof. vm_compute. reflexivity. Qed.

Lemma runSuite_beforeAll_throws_witness :
  exists suite b u1,
    normalizeSuite demo_display (User.SuiteObject sized_guarded) = Ok suite /\
    convertBaseline demo_display suite = Ok b /\
    Profiling.beforeAll suite = Some failing_hook /\
    failing_hook [] = (Throw (Error "hook failed"), u1) /\
    u1 = ["failing"] /\
    exists e', demo_runSuite (User.SuiteObject sized_guarded) no_pattern [] = (Throw e', u1) /\
      is_RunSuiteError e' = true /\ cause_of e' = Some (Error "hook failed").
Proof.
  do 3 eexists. split; [vm_compute; reflexivity|].
  split; [vm_compute; reflexivity|].
  split; [reflexivity|]. split; [reflexivity|]. split; [reflexivity|].
  eapply (runSuite_beforeAll_throws demo_display demo_json demo_display silent
            (fun _ => silent) (fun _ => recorder) (fun _ => None)
            (User.SuiteObject sized_guarded) no_pattern []);
    vm_compute; reflexivity.
Defined.

(** A suite with one parameter of three values: the run has three scenes,
    and the logger announces each as one of two. *)
Definition three_sizes : @NormalizedSuite (list string) :=
  {| Profiling.params := [("n", [VNum 1; VNum 2; VNum 3])];
     paramNames := [("n", ["1"; "2"; "n"])];
     Profiling.setup := demo_setup;
     Profiling.beforeAll := None; Profiling.afterAll := None; suite_profilers := None;
     Profiling.timing := None; Profiling.validate := None; Profiling.baseline := None |}.

Lemma logger_scene_total_witness :
  length (cartesianObject (Profiling.params three_sizes)) = 3%nat /\
  cases demo_scene <> [] /\
  snd (logger_onScene (fun _ => "{}") three_sizes demo_scene
         {| sceneIndex := 0; caseOfScene := 0 |})
  = CmdLog LInfo (Some (newline +:+ "Scene #1 of 2, 2 cases, params: " +:+ newline +:+ "{}")) /\
  logger_onScene (fun _ => "{}") three_sizes demo_scene {| sceneIndex := 0; caseOfScene := 0 |} =
    ({| sceneIndex := 1; caseOfScene := 0 |},
     CmdLog LInfo (Some (
       newline +:+ "Scene #" +:+ pretty 1%nat +:+ " of "
         +:+ pretty (2 ^ length (paramNames three_sizes))%nat
         +:+ ", " +:+ pretty (length (cases demo_scene)) +:+ " cases, "
         +:+ (if (length (paramNames three_sizes) =? 0)%nat then "no parameters defined."
              else "params: " +:+ newline +:+ (fun _ => "{}") (Suite.params demo_scene))))) /\
  (Forall (fun kv => length (snd kv) = 2%nat) (paramNames three_sizes) ->
   combinations (paramNames three_sizes) = (2 ^ length (paramNames three_sizes))%nat).
Proof.
  split; [reflexivity|]. split; [discriminate|]. split; [vm_compute; reflexivity|].
  apply (logger_scene_total (fun _ => "{}") three_sizes demo_scene
           {| sceneIndex := 0; caseOfScene := 0 |}).
  discriminate.
Defined.

End Runner.

(** ** The result summary

    Source: [Summary] of the core summary file ([sort], [getIndex], [find],
    [findAll], [group], [indexOf], [groupBy]). *)

Module Summary.

(** A row of the flattened table: its string properties (the variables
    among them), the metrics it refers to, and its sort index once [sort]
    has set it. *)
Record FlattedResult : Type := {
  props : gmap string string;
  metrics : gmap string MetricValue;
  kIndex : option nat;
}.

(** The state of a [Summary]: [vars] maps a variable to the set of its
    values in insertion order; [iMap], [keys] and [factors] are set by
    [sort]. *)
Record Summary : Type := {
  vars : gmap string (list string);
  table : list FlattedResult;
  iMap : list (option FlattedResult);
  keys : list string;
  factors : list nat;
}.

Definition not_in_variables (k : string) : JsError :=
  Error (String.append k " is not in variables").

Definition value_not_in_variables (k : string) (v : option string) : JsError :=
  Error (String.append k (String.append "="
    (String.append (default "undefined" v) " is not in variables"))).

(** The position of the first element equal to [v]. *)
Fixpoint position (values : list string) (v : string) : option nat :=
  match values with
  | [] => None
  | x :: values' =>
      if String.eqb x v then Some 0%nat else option_map S (position values' v)
  end.

(** [indexOf(iter, k, v)]; [v] is [properties[k]], [None] when undefined. *)
Definition indexOf (values : list string) (k : string) (v : option string) : Res nat :=
  match v ≫= position values with
  | Some i => Ok i
  | None => Throw (value_not_in_variables k v)
  end.

(** The first loop of [sort], from the last name to the first: the factor
    of a name is the product of the sizes of the names after it.  Returns
    [factors] and the final [factor]. *)
Fixpoint computeFactors (vs : gmap string (list string)) (varNames : list string)
    : Res (list nat * nat) :=
  match varNames with
  | [] => Ok ([], 1%nat)
  | k :: rest =>
      match computeFactors vs rest with
      | Throw e => Throw e
      | Ok (fs, factor) =>
          match vs !! k with
          | None => Throw (not_in_variables k)
          | Some values => Ok (factor :: fs, (factor * length values)%nat)
          end
      end
  end.

(** The loop of [getIndex] over [keys] and [factors] side by side.  [sort]
    gives the two arrays the same length, so the case of a missing factor
    (an index that is not a number) does not arise after it. *)
Fixpoint getIndex_from (vs : gmap string (list string)) (ks : list string)
    (fs : list nat) (properties : gmap string string) : Res nat :=
  match ks, fs with
  | [], _ => Ok 0%nat
  | _ :: _, [] => Throw (Error "factors is shorter than keys")
  | k :: ks', f :: fs' =>
      match vs !! k with
      | None => Throw (not_in_variables k)
      | Some values =>
          match indexOf values k (properties !! k) with
          | Throw e => Throw e
          | Ok d =>
              match getIndex_from vs ks' fs' properties with
              | Throw e => Throw e
              | Ok rest => Ok (f * d + rest)%nat
              end
          end
      end
  end.

Definition getIndex (s : Summary) (properties : gmap string string) : Res nat :=
  getIndex_from (vars s) (keys s) (factors s) properties.

(** [array[i] = x]: in range the element is replaced, beyond the end the
    array grows and the gap stays empty. *)
Definition array_set {A} (i : nat) (x : A) (l : list (option A)) : list (option A) :=
  if (i <? length l)%nat then <[i := Some x]> l
  else l ++ replicate (i - length l) None ++ [Some x].

Definition with_index (item : FlattedResult) (i : nat) : FlattedResult :=
  {| props := props item; metrics := metrics item; kIndex := Some i |}.

(** The second loop of [sort]: each row gets its index and is stored in
    [iMap] at that index. *)
Fixpoint index_rows (vs : gmap string (list string)) (ks : list string) (fs : list nat)
    (rows : list FlattedResult) (im : list (option FlattedResult))
    : Res (list FlattedResult * list (option FlattedResult)) :=
  match rows with
  | [] => Ok ([], im)
  | item :: rest =>
      match getIndex_from vs ks fs (props item) with
      | Throw e => Throw e
      | Ok i =>
          let item' := with_index item i in
          match index_rows vs ks fs rest (array_set i item' im) with
          | Throw e => Throw e
          | Ok (rows', im') => Ok (item' :: rows', im')
          end
      end
  end.

Definition index_of_row (r : FlattedResult) : nat := default 0%nat (kIndex r).

(** [table.sort((a, b) => a[kIndex] - b[kIndex])]: the sort is stable. *)
Fixpoint insert_sorted (r : FlattedResult) (l : list FlattedResult) : list FlattedResult :=
  match l with
  | [] => [r]
  | x :: l' =>
      if (index_of_row r <=? index_of_row x)%nat then r :: l
      else x :: insert_sorted r l'
  end.

Definition sort_by_index (l : list FlattedResult) : list FlattedResult :=
  foldr insert_sorted [] l.

(** [sort(varNames)]. *)
Definition sort (varNames : list string) (s : Summary) : Res Summary :=
  match computeFactors (vars s) varNames with
  | Throw e => Throw e
  | Ok (fs, factor) =>
      match index_rows (vars s) varNames fs (table s) (replicate factor None) with
      | Throw e => Throw e
      | Ok (rows, im) =>
          Ok {| vars := vars s; table := sort_by_index rows; iMap := im;
                keys := varNames; factors := fs |}
      end
  end.

(** [find(variables)]: [this.iMap[this.getIndex(variables)]]. *)
Definition find (s : Summary) (variables : gmap string string)
    : Res (option FlattedResult) :=
  match getIndex s variables with
  | Throw e => Throw e
  | Ok i => Ok (mjoin (iMap s !! i))
  end.

(** [keys.indexOf(axis)]. *)
Fixpoint key_index (ks : list string) (axis : string) : option nat :=
  match ks with
  | [] => None
  | k :: ks' => if String.eqb k axis then Some 0%nat else option_map S (key_index ks' axis)
  end.

(** [findAll(variables, axis)].  When [axis] is not one of [keys] the factor
    is undefined and every element of the result is undefined. *)
Definition findAll (s : Summary) (variables : gmap string string) (axis : string)
    : Res (list (option FlattedResult)) :=
  match vars s !! axis with
  | None => Throw (Error "values is not iterable")
  | Some values =>
      let copy := match head values with
                  | Some v => <[axis := v]> variables
                  | None => delete axis variables
                  end in
      match getIndex s copy with
      | Throw e => Throw e
      | Ok index =>
          match key_index (keys s) axis ≫= (fun i => factors s !! i) with
          | None => Ok (replicate (length values) None)
          | Some f =>
              Ok (map (fun i => mjoin (iMap s !! (index + f * i)%nat))
                      (seq 0 (length values)))
          end
      end
  end.

(** [Map.groupBy(items, callbackFn)], or its polyfill over a [MultiMap]:
    the groups in the order in which their keys first occur, each with its
    elements in the order of [items]. *)
Fixpoint add_to_group {K A} `{EqDecision K} (k : K) (x : A)
    (groups : list (K * list A)) : list (K * list A) :=
  match groups with
  | [] => [(k, [x])]
  | (k', xs) :: groups' =>
      if decide (k' = k) then (k', xs ++ [x]) :: groups'
      else (k', xs) :: add_to_group k x groups'
  end.

Fixpoint groupBy_from {K A} `{EqDecision K} (callbackFn : A -> Res K)
    (items : list A) (groups : list (K * list A)) : Res (list (K * list A)) :=
  match items with
  | [] => Ok groups
  | x :: items' =>
      match callbackFn x with
      | Throw e => Throw e
      | Ok k => groupBy_from callbackFn items' (add_to_group k x groups)
      end
  end.

Definition groupBy {K A} `{EqDecision K} (callbackFn : A -> Res K) (items : list A)
    : Res (list (K * list A)) :=
  groupBy_from callbackFn items [].

(** The key of a row in [group(ignore)]:
    [item[kIndex] - f * indexOf(this.vars.get(ignore)!, ignore, item[ignore])].
    It is not a number ([None]) when the row has no index or when [ignore]
    is not one of [keys], so that [f] is undefined. *)
Definition group_key (s : Summary) (ignore : string) (item : FlattedResult)
    : Res (option Z) :=
  match vars s !! ignore with
  | None => Throw (Error "iter is not iterable")
  | Some values =>
      match indexOf values ignore (props item !! ignore) with
      | Throw e => Throw e
      | Ok d =>
          match kIndex item, key_index (keys s) ignore ≫= (fun i => factors s !! i) with
          | Some index, Some f => Ok (Some (Z.of_nat index - Z.of_nat f * Z.of_nat d))
          | _, _ => Ok None
          end
      end
  end.

(** [group(ignore)]. *)
Definition group (ignore : string) (s : Summary)
    : Res (list (option Z * list FlattedResult)) :=
  groupBy (group_key s ignore) (table s).

(** The value of the digits [d] with radices [r], most significant first. *)
Definition mixed_radix (dr : list (nat * nat)) : nat :=
  fold_left (fun acc x => (acc * snd x + fst x)%nat) dr 0%nat.

(** The digits of a row along [varOrder]: the position of its value in the
    set of each variable, with the size of the set as radix. *)
Fixpoint digits_of (vs : gmap string (list string)) (varOrder : list string)
    (properties : gmap string string) : option (list (nat * nat)) :=
  match varOrder with
  | [] => Some []
  | k :: rest =>
      match vs !! k, properties !! k ≫= (fun v => vs !! k ≫= (fun values => position values v)),
            digits_of vs rest properties with
      | Some values, Some d, Some dr => Some ((d, length values) :: dr)
      | _, _, _ => None
      end
  end.

(** The coordinates of a row along [varOrder]. *)
Definition coords (varOrder : list string) (r : FlattedResult) : list (option string) :=
  map (fun k => props r !! k) varOrder.

(** *** Positions and mixed-radix numbers *)

Lemma position_lt values v d : position values v = Some d -> (d < length values)%nat.
Proof.
  revert d. induction values as [|x values IH]; intros d H; simpl in H; [discriminate|].
  destruct (String.eqb x v).
  - injection H as <-. simpl. lia.
  - destruct (position values v) as [d'|]; [|discriminate]. injection H as <-.
    specialize (IH d' eq_refl). simpl. lia.
Qed.

Lemma position_lookup values v d : position values v = Some d -> values !! d = Some v.
Proof.
  revert d. induction values as [|x values IH]; intros d H; simpl in H; [discriminate|].
  destruct (String.eqb x v) eqn:E.
  - injection H as <-. apply String.eqb_eq in E. now subst.
  - destruct (position values v) as [d'|]; [|discriminate]. injection H as <-.
    exact (IH d' eq_refl).
Qed.

Lemma position_NoDup values v i :
  NoDup values -> values !! i = Some v -> position values v = Some i.
Proof.
  intros Hnd. revert i. induction Hnd as [|x values Hx Hnd IH]; intros i H; [discriminate|].
  simpl. destruct i as [|i]; simpl in H.
  - injection H as ->. now rewrite String.eqb_refl.
  - destruct (String.eqb x v) eqn:E.
    + apply String.eqb_eq in E. subst. exfalso. apply Hx.
      eapply list_elem_of_lookup_2; eauto.
    + now rewrite (IH i H).
Qed.

Definition product (l : list nat) : nat := foldr Nat.mul 1%nat l.

Lemma mixed_radix_acc dr acc :
  fold_left (fun a x => (a * snd x + fst x)%nat) dr acc
  = (acc * product (map snd dr) + mixed_radix dr)%nat.
Proof.
  unfold mixed_radix. revert acc. induction dr as [|[d r] dr IH]; intros acc; simpl.
  - lia.
  - rewrite IH, (IH d). lia.
Qed.

Lemma mixed_radix_cons d r dr :
  mixed_radix ((d, r) :: dr) = (d * product (map snd dr) + mixed_radix dr)%nat.
Proof. unfold mixed_radix at 1. simpl. now rewrite mixed_radix_acc. Qed.

Definition valid_digits (dr : list (nat * nat)) : Prop :=
  Forall (fun x => (fst x < snd x)%nat) dr.

Lemma mixed_radix_lt dr : valid_digits dr -> (mixed_radix dr < product (map snd dr))%nat.
Proof.
  induction 1 as [|[d r] dr Hd _ IH]; simpl.
  - unfold mixed_radix. simpl. lia.
  - rewrite mixed_radix_cons. simpl in Hd. nia.
Qed.

(** Two numbers with the same radices and valid digits are equal only if
    their digits are. *)
Lemma mixed_radix_inj dr1 dr2 :
  valid_digits dr1 -> valid_digits dr2 -> map snd dr1 = map snd dr2 ->
  mixed_radix dr1 = mixed_radix dr2 -> dr1 = dr2.
Proof.
  intros H1. revert dr2. induction H1 as [|[d1 r1] dr1 Hd1 Hv1 IH];
    intros dr2 H2 Hr Hm; destruct H2 as [|[d2 r2] dr2 Hd2 Hv2]; try discriminate.
  - reflexivity.
  - simpl in Hr. injection Hr as -> Hr. rewrite !mixed_radix_cons, <- Hr in Hm.
    pose proof (mixed_radix_lt dr1 Hv1) as L1.
    pose proof (mixed_radix_lt dr2 Hv2) as L2. rewrite <- Hr in L2.
    assert (d1 = d2) by nia. subst d2.
    assert (mixed_radix dr1 = mixed_radix dr2) by lia.
    f_equal. now apply IH.
Qed.

(** *** The index of a row *)

Lemma digits_of_radices vs ks p1 p2 dr1 dr2 :
  digits_of vs ks p1 = Some dr1 -> digits_of vs ks p2 = Some dr2 ->
  map snd dr1 = map snd dr2.
Proof.
  revert dr1 dr2. induction ks as [|k ks IH]; intros dr1 dr2 H1 H2; simpl in H1, H2.
  - injection H1 as <-. injection H2 as <-. reflexivity.
  - destruct (vs !! k) as [values|]; [|discriminate].
    destruct (p1 !! k ≫= _) as [d1|]; [|discriminate].
    destruct (p2 !! k ≫= _) as [d2|]; [|discriminate].
    destruct (digits_of vs ks p1) as [dr1'|]; [|discriminate].
    destruct (digits_of vs ks p2) as [dr2'|]; [|discriminate].
    injection H1 as <-. injection H2 as <-. simpl. f_equal. now apply IH.
Qed.

Lemma digits_of_valid vs ks p dr : digits_of vs ks p = Some dr -> valid_digits dr.
Proof.
  revert dr. induction ks as [|k ks IH]; intros dr H; simpl in H.
  - injection H as <-. constructor.
  - destruct (vs !! k) as [values|] eqn:Ev; [|discriminate].
    destruct (p !! k) as [v|]; simpl in H; [|discriminate].
    destruct (position values v) as [d|] eqn:Ep; simpl in H; [|discriminate].
    destruct (digits_of vs ks p) as [dr'|]; [|discriminate].
    injection H as <-. constructor; [|now apply IH].
    simpl. eapply position_lt; eauto.
Qed.

(** Rows with the same digits have the same coordinates. *)
Lemma digits_of_coords vs ks p1 p2 dr :
  digits_of vs ks p1 = Some dr -> digits_of vs ks p2 = Some dr ->
  map (fun k => p1 !! k) ks = map (fun k => p2 !! k) ks.
Proof.
  revert dr. induction ks as [|k ks IH]; intros dr H1 H2; simpl in H1, H2; [reflexivity|].
  simpl. destruct (vs !! k) as [values|] eqn:Ev; [|discriminate].
  destruct (p1 !! k) as [v1|]; simpl in H1; [|discriminate].
  destruct (p2 !! k) as [v2|]; simpl in H2; [|discriminate].
  destruct (position values v1) as [d1|] eqn:E1; simpl in H1; [|discriminate].
  destruct (position values v2) as [d2|] eqn:E2; simpl in H2; [|discriminate].
  destruct (digits_of vs ks p1) as [dr1'|] eqn:D1; [|discriminate].
  destruct (digits_of vs ks p2) as [dr2'|] eqn:D2; [|discriminate].
  injection H1 as <-. injection H2 as Hd Hdr. subst d2 dr2'.
  simpl. f_equal; [|eapply IH; eauto].
  apply position_lookup in E1, E2. congruence.
Qed.

(** [getIndex] computes the mixed-radix number of the digits of the row,
    and stays below the final [factor] of [sort]. *)
Lemma getIndex_from_digits vs ks fs total p idx :
  computeFactors vs ks = Ok (fs, total) ->
  getIndex_from vs ks fs p = Ok idx ->
  exists dr, digits_of vs ks p = Some dr /\ idx = mixed_radix dr /\
    total = product (map snd dr).
Proof.
  revert fs total idx. induction ks as [|k ks IH]; intros fs total idx Hf Hg; simpl in Hf, Hg.
  - injection Hf as <- <-. injection Hg as <-. exists []. repeat split.
  - destruct (computeFactors vs ks) as [[fs' factor]|e] eqn:Ef; [|discriminate].
    destruct (vs !! k) as [values|] eqn:Ev; [|discriminate].
    injection Hf as <- <-. simpl. rewrite Ev in *.
    unfold indexOf in Hg. destruct (p !! k) as [v|]; simpl in *; [|discriminate].
    destruct (position values v) as [d|] eqn:Ep; simpl in *; [|discriminate].
    destruct (getIndex_from vs ks fs' p) as [rest|e] eqn:Er; [|discriminate].
    injection Hg as <-.
    destruct (IH _ _ _ eq_refl Er) as (dr & Hd & -> & ->). rewrite Hd.
    exists ((d, length values) :: dr). split; [reflexivity|].
    rewrite mixed_radix_cons. simpl. split; lia.
Qed.

Lemma computeFactors_length vs ks fs total :
  computeFactors vs ks = Ok (fs, total) -> length fs = length ks.
Proof.
  revert fs total. induction ks as [|k ks IH]; intros fs total H; simpl in H.
  - now injection H as <- <-.
  - destruct (computeFactors vs ks) as [[fs' factor]|e] eqn:Ef; [|discriminate].
    destruct (vs !! k); [|discriminate]. injection H as <- <-. simpl.
    f_equal. eapply IH; eauto.
Qed.

Lemma getIndex_from_inj vs ks fs total p1 p2 i :
  computeFactors vs ks = Ok (fs, total) ->
  getIndex_from vs ks fs p1 = Ok i -> getIndex_from vs ks fs p2 = Ok i ->
  map (fun k => p1 !! k) ks = map (fun k => p2 !! k) ks.
Proof.
  intros Hf H1 H2.
  destruct (getIndex_from_digits _ _ _ _ _ _ Hf H1) as (dr1 & D1 & E1 & _).
  destruct (getIndex_from_digits _ _ _ _ _ _ Hf H2) as (dr2 & D2 & E2 & _).
  assert (dr1 = dr2).
  { apply mixed_radix_inj; eauto using digits_of_valid, digits_of_radices. congruence. }
  subst dr2. eapply digits_of_coords; eauto.
Qed.

(** *** The array [iMap] *)

Lemma array_set_eq {A} i (x : A) l : mjoin (array_set i x l !! i) = Some x.
Proof.
  unfold array_set. destruct (i <? length l)%nat eqn:E.
  - apply Nat.ltb_lt in E. now rewrite list_lookup_insert_eq.
  - apply Nat.ltb_ge in E. rewrite lookup_app_r by lia.
    rewrite lookup_app_r by (rewrite length_replicate; lia).
    rewrite length_replicate, Nat.sub_diag. reflexivity.
Qed.

Lemma array_set_ne {A} i j (x : A) l :
  i <> j -> mjoin (array_set i x l !! j) = mjoin (l !! j).
Proof.
  intros Hne. unfold array_set. destruct (i <? length l)%nat eqn:E.
  - now rewrite list_lookup_insert_ne.
  - apply Nat.ltb_ge in E. destruct (decide (j < length l)%nat) as [Hj|Hj].
    + now rewrite lookup_app_l.
    + rewrite (lookup_ge_None_2 l j) by lia. rewrite lookup_app_r by lia.
      destruct (decide (j < i)%nat) as [Hji|Hji].
      * rewrite lookup_app_l by (rewrite length_replicate; lia).
        rewrite lookup_replicate_2 by lia. reflexivity.
      * rewrite lookup_app_r by (rewrite length_replicate; lia).
        rewrite length_replicate.
        destruct (j - length l - (i - length l))%nat as [|n] eqn:En; [lia|]. reflexivity.
Qed.

Definition indexed_as vs ks fs (r r' : FlattedResult) : Prop :=
  exists i, getIndex_from vs ks fs (props r) = Ok i /\ r' = with_index r i.

Lemma index_rows_related vs ks fs rows im rows' im' :
  index_rows vs ks fs rows im = Ok (rows', im') ->
  Forall2 (indexed_as vs ks fs) rows rows'.
Proof.
  revert im rows' im'. induction rows as [|item rest IH]; intros im rows' im' H; simpl in H.
  - injection H as <- <-. constructor.
  - destruct (getIndex_from vs ks fs (props item)) as [i|e] eqn:Ei; [|discriminate].
    destruct (index_rows vs ks fs rest _) as [[rows'' im'']|e] eqn:Er; [|discriminate].
    injection H as <- <-. constructor; [exists i; eauto | eapply IH; eauto].
Qed.

Lemma index_rows_untouched vs ks fs rows im rows' im' j :
  index_rows vs ks fs rows im = Ok (rows', im') ->
  (forall r', r' ∈ rows' -> kIndex r' <> Some j) ->
  mjoin (im' !! j) = mjoin (im !! j).
Proof.
  revert im rows' im'. induction rows as [|item rest IH]; intros im rows' im' H Hj; simpl in H.
  - now injection H as <- <-.
  - destruct (getIndex_from vs ks fs (props item)) as [i|e] eqn:Ei; [|discriminate].
    destruct (index_rows vs ks fs rest _) as [[rows'' im'']|e] eqn:Er; [|discriminate].
    injection H as <- <-.
    rewrite (IH _ _ _ Er) by (intros r' Hr'; apply Hj; now right).
    apply array_set_ne. intros ->. apply (Hj (with_index item j)); [left | reflexivity].
Qed.

(** With pairwise different indices, every row is found in [iMap] at its
    index. *)
Lemma index_rows_stored vs ks fs rows im rows' im' :
  index_rows vs ks fs rows im = Ok (rows', im') ->
  NoDup (map kIndex rows') ->
  forall r', r' ∈ rows' -> mjoin (im' !! index_of_row r') = Some r'.
Proof.
  revert im rows' im'. induction rows as [|item rest IH]; intros im rows' im' H Hnd r' Hr';
    simpl in H.
  - injection H as <- <-. inversion Hr'.
  - destruct (getIndex_from vs ks fs (props item)) as [i|e] eqn:Ei; [|discriminate].
    destruct (index_rows vs ks fs rest _) as [[rows'' im'']|e] eqn:Er; [|discriminate].
    injection H as <- <-. simpl in Hnd. apply NoDup_cons in Hnd as [Hnotin Hnd].
    apply elem_of_cons in Hr' as [->|Hr'].
    + unfold index_of_row. simpl.
      rewrite (index_rows_untouched _ _ _ _ _ _ _ i Er).
      * apply array_set_eq.
      * intros r'' Hr'' Hk. apply Hnotin. rewrite <- Hk.
        apply list_elem_of_fmap. eauto.
    + eapply IH; eauto.
Qed.

Lemma index_rows_NoDup vs ks fs total rows im rows' im' :
  computeFactors vs ks = Ok (fs, total) ->
  index_rows vs ks fs rows im = Ok (rows', im') ->
  NoDup (map (coords ks) rows) ->
  NoDup (map kIndex rows').
Proof.
  intros Hf H Hnd. apply index_rows_related in H. clear im im'.
  induction H as [|r r' rows rows' (i & Hi & ->) Hrel IH]; simpl; [constructor|].
  simpl in Hnd. apply NoDup_cons in Hnd as [Hnotin Hnd].
  apply NoDup_cons. split; [|now apply IH].
  intros Hin. apply list_elem_of_fmap in Hin as (x' & Hk & Hx').
  apply Hnotin.
  destruct (proj1 (list_elem_of_lookup _ _) Hx') as (n & Hn).
  destruct (Forall2_lookup_r _ _ _ _ _ Hrel Hn) as (x & Hx & (j & Hj & ->)).
  simpl in Hk. injection Hk as <-.
  apply list_elem_of_fmap. exists x. split.
  - unfold coords. eapply getIndex_from_inj; eauto.
  - eapply list_elem_of_lookup_2; eauto.
Qed.

(** *** The sorted table *)

Lemma insert_sorted_perm r l : insert_sorted r l ≡ₚ r :: l.
Proof.
  induction l as [|x l IH]; simpl; [reflexivity|].
  destruct (index_of_row r <=? index_of_row x)%nat; [reflexivity|].
  rewrite IH. apply Permutation_swap.
Qed.

Lemma sort_by_index_perm l : sort_by_index l ≡ₚ l.
Proof.
  induction l as [|x l IH]; simpl; [reflexivity|].
  now rewrite insert_sorted_perm, IH.
Qed.

(** *** Sweeping an axis *)

Lemma getIndex_from_insert_absent vs ks fs (m : gmap string string) axis v :
  axis ∉ ks ->
  getIndex_from vs ks fs (<[axis := v]> m) = getIndex_from vs ks fs m.
Proof.
  revert fs. induction ks as [|k ks IH]; intros fs Hnotin; simpl; [reflexivity|].
  destruct fs as [|f fs]; [reflexivity|].
  apply not_elem_of_cons in Hnotin as [Hne Hnotin].
  rewrite lookup_insert_ne by congruence. now rewrite IH.
Qed.

Lemma key_index_elem ks axis :
  axis ∈ ks -> exists p, key_index ks axis = Some p /\ (p < length ks)%nat.
Proof.
  induction ks as [|k ks IH]; intros Hin; [inversion Hin|]. simpl.
  destruct (String.eqb k axis) eqn:E.
  - exists 0%nat. split; [reflexivity | lia].
  - apply elem_of_cons in Hin as [->|Hin]; [now rewrite String.eqb_refl in E|].
    destruct (IH Hin) as (p & -> & Hp). exists (S p). split; [reflexivity | lia].
Qed.

(** Replacing the first value of [axis] by its [i]-th value moves the index
    by [i] times the factor of [axis]. *)
Lemma getIndex_from_axis vs ks fs (m : gmap string string) axis values v0 v i p f idx0 :
  NoDup ks -> vs !! axis = Some values ->
  key_index ks axis = Some p -> fs !! p = Some f ->
  position values v0 = Some 0%nat -> position values v = Some i ->
  getIndex_from vs ks fs (<[axis := v0]> m) = Ok idx0 ->
  getIndex_from vs ks fs (<[axis := v]> m) = Ok (idx0 + f * i)%nat.
Proof.
  intros Hnd Hv. revert fs p idx0.
  induction Hnd as [|k ks Hk Hnd IH]; intros fs p idx0 Hp Hf H0 Hi H; [discriminate|].
  simpl in H |- *. destruct fs as [|f0 fs]; [discriminate|].
  simpl in Hp. destruct (String.eqb k axis) eqn:E.
  - apply String.eqb_eq in E. subst k. injection Hp as <-. simpl in Hf. injection Hf as ->.
    rewrite Hv in *. rewrite lookup_insert_eq in *. unfold indexOf in *. simpl in *.
    rewrite H0 in H. rewrite Hi.
    rewrite getIndex_from_insert_absent in * by assumption.
    destruct (getIndex_from vs ks fs m) as [rest|e]; [|discriminate].
    injection H as <-. f_equal. lia.
  - assert (Hne : axis <> k) by (intros ->; now rewrite String.eqb_refl in E).
    destruct (key_index ks axis) as [p'|] eqn:Ep; [|discriminate].
    injection Hp as <-. simpl in Hf.
    rewrite lookup_insert_ne in * by congruence.
    destruct (vs !! k) as [vals|]; [|discriminate].
    destruct (indexOf vals k (m !! k)) as [d|e]; [|discriminate].
    destruct (getIndex_from vs ks fs (<[axis := v0]> m)) as [rest|e] eqn:Er; [|discriminate].
    injection H as <-. rewrite (IH fs p' rest eq_refl Hf H0 Hi Er).
    f_equal. lia.
Qed.

(** The index depends only on the values of the keys. *)
Lemma getIndex_from_ext vs ks fs (p1 p2 : gmap string string) :
  (forall k, k ∈ ks -> p1 !! k = p2 !! k) ->
  getIndex_from vs ks fs p1 = getIndex_from vs ks fs p2.
Proof.
  revert fs. induction ks as [|k ks IH]; intros fs Hagree; simpl; [reflexivity|].
  destruct fs as [|f fs]; [reflexivity|].
  rewrite (Hagree k) by left. rewrite (IH fs) by (intros k' Hk'; apply Hagree; now right).
  reflexivity.
Qed.

(** [iMap] holds at each index the last of the rows stored there. *)
Lemma index_rows_last vs ks fs rows im rows' im' j :
  index_rows vs ks fs rows im = Ok (rows', im') ->
  mjoin (im' !! j) =
    match last (filter (fun r => kIndex r = Some j) rows') with
    | Some r => Some r
    | None => mjoin (im !! j)
    end.
Proof.
  revert im rows' im'. induction rows as [|item rest IH]; intros im rows' im' H; simpl in H.
  - injection H as <- <-. reflexivity.
  - destruct (getIndex_from vs ks fs (props item)) as [i|e] eqn:Ei; [|discriminate].
    destruct (index_rows vs ks fs rest _) as [[rows'' im'']|e] eqn:Er; [|discriminate].
    injection H as <- <-. rewrite (IH _ _ _ Er).
    destruct (decide (i = j)) as [->|Hne].
    + rewrite filter_cons_True by reflexivity. rewrite last_cons.
      destruct (last (filter _ rows'')); [reflexivity | apply array_set_eq].
    + rewrite filter_cons_False by (simpl; congruence).
      destruct (last (filter _ rows'')); [reflexivity | now apply array_set_ne].
Qed.

Lemma filter_agree {A} (P Q : A -> Prop) `{forall x, Decision (P x)}
    `{forall x, Decision (Q x)} (l : list A) :
  (forall x, x ∈ l -> P x <-> Q x) -> filter P l = filter Q l.
Proof.
  induction l as [|x l IH]; intros Hagree; [reflexivity|].
  assert (Hl : filter P l = filter Q l)
    by (apply IH; intros y Hy; apply Hagree; now right).
  destruct (decide (P x)) as [Hp|Hp].
  - rewrite filter_cons_True by exact Hp.
    rewrite filter_cons_True by (apply Hagree; [left | exact Hp]). now rewrite Hl.
  - rewrite filter_cons_False by exact Hp.
    rewrite filter_cons_False by (intros Hq; apply Hp, Hagree; [left | exact Hq]).
    exact Hl.
Qed.

Lemma coords_agree ks (r1 r2 : FlattedResult) :
  coords ks r1 = coords ks r2 -> forall k, k ∈ ks -> props r1 !! k = props r2 !! k.
Proof.
  unfold coords. induction ks as [|k0 ks IH]; intros Hc k Hk; [inversion Hk|].
  simpl in Hc. injection Hc as H0 Hrest.
  apply elem_of_cons in Hk as [->|Hk]; [exact H0 | now apply IH].
Qed.

(** C9 (as amended): after [sort(varOrder)],
    - the index of each row is the mixed-radix number of its digits, the
      positions of its values in their [vars] sets with the sizes of the
      sets as radices, most significant first in [varOrder];
    - the table holds the rows it held, with their indices ([rows] are the
      rows in the order of the table before the sort);
    - two rows have the same index exactly when they have the same
      coordinates along [varOrder];
    - [find] at the variables of a row of the table returns the last of the
      rows with the coordinates of that row, in the order of the table
      before the sort: the row itself when the rows have pairwise different
      coordinates;
    - when [varOrder] has no repeated variable, [findAll(coords, axis)]
      for an [axis] of [varOrder] returns, for each value of [axis] in the
      order of its set (a list without repetition), what [find] returns at
      [coords] with [axis] replaced by that value. *)
Theorem sort_find_findAll varOrder s0 s :
  sort varOrder s0 = Ok s ->
  (forall row, row ∈ table s ->
     exists dr, digits_of (vars s) varOrder (props row) = Some dr /\
       kIndex row = Some (mixed_radix dr)) /\
  (exists rows,
     table s ≡ₚ rows /\
     Forall2 (fun r r' => props r' = props r /\ metrics r' = metrics r) (table s0) rows /\
     forall row, row ∈ table s ->
       exists found,
         last (filter (fun r => coords varOrder r = coords varOrder row) rows)
           = Some found /\
         find s (props row) = Ok (Some found)) /\
  (forall r1 r2, r1 ∈ table s -> r2 ∈ table s ->
     (kIndex r1 = kIndex r2 <-> coords varOrder r1 = coords varOrder r2)) /\
  (NoDup (map (coords varOrder) (table s0)) ->
   forall row, row ∈ table s -> find s (props row) = Ok (Some row)) /\
  (NoDup varOrder ->
   forall variables axis values rows,
     axis ∈ varOrder -> vars s !! axis = Some values -> NoDup values ->
     findAll s variables axis = Ok rows ->
     length rows = length values /\
     forall i v, values !! i = Some v ->
       exists r, rows !! i = Some r /\ find s (<[axis := v]> variables) = Ok r).
Proof.
  intros Hsort. unfold sort in Hsort.
  destruct (computeFactors (vars s0) varOrder) as [[fs total]|e] eqn:Hf; [|discriminate].
  destruct (index_rows (vars s0) varOrder fs (table s0) _) as [[rows im]|e] eqn:Hr;
    [|discriminate].
  injection Hsort as <-. simpl.
  pose proof (index_rows_related _ _ _ _ _ _ _ Hr) as Hrel.
  assert (Hrows : forall row, row ∈ rows ->
            exists r i, r ∈ table s0 /\
              getIndex_from (vars s0) varOrder fs (props r) = Ok i /\
              row = with_index r i).
  { intros row Hin.
    destruct (proj1 (list_elem_of_lookup _ _) Hin) as (n & Hn).
    destruct (Forall2_lookup_r _ _ _ _ _ Hrel Hn) as (r & Hx & (i & Hi & ->)).
    exists r, i. split; [eapply list_elem_of_lookup_2; eauto | auto]. }
  assert (Hrow : forall row, row ∈ sort_by_index rows ->
            exists r i, r ∈ table s0 /\
              getIndex_from (vars s0) varOrder fs (props r) = Ok i /\
              row = with_index r i).
  { intros row Hin. rewrite sort_by_index_perm in Hin. now apply Hrows. }
  assert (Hshare : forall r1 r2, r1 ∈ rows -> r2 ∈ rows ->
            (kIndex r1 = kIndex r2 <-> coords varOrder r1 = coords varOrder r2)).
  { intros r1 r2 H1 H2.
    destruct (Hrows r1 H1) as (x1 & i1 & _ & Hi1 & ->).
    destruct (Hrows r2 H2) as (x2 & i2 & _ & Hi2 & ->). simpl. split.
    - intros Hk. injection Hk as <-. unfold coords. simpl.
      eapply getIndex_from_inj; eauto.
    - intros Hc.
      assert (Hext : getIndex_from (vars s0) varOrder fs (props x1)
                     = getIndex_from (vars s0) varOrder fs (props x2)).
      { apply getIndex_from_ext.
        exact (coords_agree varOrder (with_index x1 i1) (with_index x2 i2) Hc). }
      congruence. }
  split; [|split; [|split; [|split]]].
  - intros row Hin. destruct (Hrow row Hin) as (r & i & _ & Hi & ->). simpl.
    destruct (getIndex_from_digits _ _ _ _ _ _ Hf Hi) as (dr & Hd & -> & _). eauto.
  - exists rows. split; [apply sort_by_index_perm|]. split.
    { eapply Forall2_impl; [exact Hrel|]. intros r r' (i & _ & ->). split; reflexivity. }
    intros row Hin. rewrite sort_by_index_perm in Hin.
    destruct (Hrows row Hin) as (r & i & _ & Hi & Erow).
    assert (Hfilter : filter (fun r' => coords varOrder r' = coords varOrder row) rows
                      = filter (fun r' => kIndex r' = Some i) rows).
    { apply filter_agree. intros x Hx.
      rewrite <- (Hshare x row Hx Hin). subst row. reflexivity. }
    rewrite Hfilter.
    pose proof (index_rows_last _ _ _ _ _ _ _ i Hr) as Hlast.
    destruct (last (filter (fun r' => kIndex r' = Some i) rows)) as [found|] eqn:El.
    + exists found. split; [reflexivity|].
      unfold find, getIndex. simpl. subst row. simpl. rewrite Hi. now rewrite Hlast.
    + exfalso. apply last_None in El.
      assert (Hmem : row ∈ filter (fun r' => kIndex r' = Some i) rows).
      { apply list_elem_of_filter. split; [subst row; reflexivity | exact Hin]. }
      rewrite El in Hmem. inversion Hmem.
  - intros r1 r2 H1 H2. rewrite sort_by_index_perm in H1, H2. now apply Hshare.
  - intros Hcoords row Hin.
    pose proof (index_rows_NoDup _ _ _ _ _ _ _ _ Hf Hr Hcoords) as Hnd.
    destruct (Hrow row Hin) as (r & i & _ & Hi & ->).
    unfold find, getIndex. simpl. rewrite Hi. f_equal.
    rewrite sort_by_index_perm in Hin.
    exact (index_rows_stored _ _ _ _ _ _ _ Hr Hnd _ Hin).
  - intros Hks variables axis values found Haxis Hv Hset Hall.
    unfold findAll, find, getIndex in *. simpl in *. rewrite Hv in Hall.
    destruct (key_index_elem _ _ Haxis) as (p & Hp & Hlt).
    rewrite Hp in Hall. simpl in Hall.
    destruct (lookup_lt_is_Some_2 fs p) as [f Hfp].
    { rewrite (computeFactors_length _ _ _ _ Hf). exact Hlt. }
    rewrite Hfp in Hall.
    destruct values as [|v0 values'] eqn:Hvals.
    { simpl in Hall.
      destruct (getIndex_from (vars s0) varOrder fs (delete axis variables)) as [idx|e];
        [|discriminate]. injection Hall as <-. split; [reflexivity|].
      intros i v Hiv. discriminate Hiv. }
    rewrite <- Hvals in *. assert (Hhead : head values = Some v0) by now rewrite Hvals.
    rewrite Hhead in Hall.
    destruct (getIndex_from (vars s0) varOrder fs (<[axis := v0]> variables))
      as [idx0|e] eqn:H0; [|discriminate].
    injection Hall as <-. split; [now rewrite length_map, length_seq|].
    intros i v Hiv. exists (mjoin (im !! (idx0 + f * i)%nat)). split.
    + rewrite list_lookup_fmap, lookup_seq_lt by (eapply lookup_lt_Some; eauto).
      reflexivity.
    + assert (Hp0 : position values v0 = Some 0%nat)
        by (rewrite Hvals; simpl; now rewrite String.eqb_refl).
      assert (Hpi : position values v = Some i)
        by (apply position_NoDup; [exact Hset | exact Hiv]).
      now rewrite (getIndex_from_axis _ _ _ _ _ _ _ _ _ _ _ _ Hks Hv Hp Hfp Hp0 Hpi H0).
Qed.

(** *** When [sort] and [find] return *)

Lemma position_elem values v : is_Some (position values v) <-> v ∈ values.
Proof.
  induction values as [|x values IH]; simpl.
  - split; [intros [? H]; discriminate H | intros H; inversion H].
  - destruct (String.eqb x v) eqn:E.
    + apply String.eqb_eq in E. subst x. split; [intros _; left | eauto].
    + rewrite elem_of_cons, <- IH. split.
      * intros [d Hd]. right. destruct (position values v); [eauto | discriminate Hd].
      * intros [->|[d Hd]]; [now rewrite String.eqb_refl in E|]. rewrite Hd. eauto.
Qed.

(** The value of [k] in [p] is one of the values of the variable [k]. *)
Definition known (vs : gmap string (list string)) (p : gmap string string)
    (k : string) : Prop :=
  exists values v, vs !! k = Some values /\ p !! k = Some v /\ v ∈ values.

Lemma indexOf_ok_iff values k v :
  (exists d, indexOf values k v = Ok d) <-> exists x, v = Some x /\ x ∈ values.
Proof.
  unfold indexOf. destruct v as [x|]; simpl.
  - destruct (position values x) as [d|] eqn:E.
    + split; [intros _ | eauto]. exists x. split; [reflexivity|].
      apply position_elem. eauto.
    + split; [intros [d Hd]; discriminate Hd|]. intros (y & Hy & Hin).
      injection Hy as <-. apply position_elem in Hin as [d Hd]. congruence.
  - split; [intros [d Hd]; discriminate Hd | intros (y & Hy & _); discriminate Hy].
Qed.

Lemma getIndex_from_ok_iff vs ks fs p :
  length fs = length ks ->
  (exists i, getIndex_from vs ks fs p = Ok i) <-> Forall (known vs p) ks.
Proof.
  revert fs. induction ks as [|k ks IH]; intros fs Hlen; simpl.
  - split; [constructor | eauto].
  - destruct fs as [|f fs]; [discriminate Hlen|]. simpl in Hlen.
    specialize (IH fs ltac:(lia)). rewrite Forall_cons, <- IH. unfold known.
    destruct (vs !! k) as [values|].
    + pose proof (indexOf_ok_iff values k (p !! k)) as Hi.
      destruct (indexOf values k (p !! k)) as [d|e].
      * destruct (getIndex_from vs ks fs p) as [rest|e].
        -- split; [intros _ | eauto]. split; [|eauto].
           destruct (proj1 Hi ltac:(eauto)) as (x & Hx & Hin). eauto.
        -- split; [intros [i Hi']; discriminate Hi'|].
           intros (_ & i & Hi'). discriminate Hi'.
      * split; [intros [i Hi']; discriminate Hi'|].
        intros ((values' & v & Hv & Hp & Hin) & _). injection Hv as <-.
        destruct (proj2 Hi ltac:(eauto)) as [d Hd]. discriminate Hd.
    + split; [intros [i Hi']; discriminate Hi'|].
      intros ((values' & v & Hv & _) & _). discriminate Hv.
Qed.

Lemma computeFactors_ok_iff vs ks :
  (exists r, computeFactors vs ks = Ok r) <-> Forall (fun k => is_Some (vs !! k)) ks.
Proof.
  induction ks as [|k ks IH]; simpl.
  - split; [constructor | eauto].
  - rewrite Forall_cons, <- IH.
    destruct (computeFactors vs ks) as [[fs factor]|e].
    + destruct (vs !! k) as [values|].
      * split; [intros _; split; eauto | eauto].
      * split; [intros [r Hr]; discriminate Hr|]. intros ([x Hx] & _). discriminate Hx.
    + split; [intros [r Hr]; discriminate Hr|]. intros (_ & r & Hr). discriminate Hr.
Qed.

Lemma index_rows_ok_iff vs ks fs rows im :
  (exists r, index_rows vs ks fs rows im = Ok r) <->
  Forall (fun item => exists i, getIndex_from vs ks fs (props item) = Ok i) rows.
Proof.
  revert im. induction rows as [|item rest IH]; intros im; simpl.
  - split; [constructor | eauto].
  - rewrite Forall_cons.
    destruct (getIndex_from vs ks fs (props item)) as [i|e].
    + rewrite <- (IH (array_set i (with_index item i) im)).
      destruct (index_rows vs ks fs rest _) as [[rows' im']|e].
      * split; [intros _; split; eauto | eauto].
      * split; [intros [r Hr]; discriminate Hr|]. intros (_ & r & Hr). discriminate Hr.
    + split; [intros [r Hr]; discriminate Hr|]. intros ([i Hi] & _). discriminate Hi.
Qed.

(** X21: [sort(varNames)] returns exactly when every name is a variable of
    the summary and every row of the table has, for every name, a value
    that is one of the values of that variable; otherwise it throws. *)
Theorem sort_ok_iff varNames s0 :
  (exists s, sort varNames s0 = Ok s) <->
  Forall (fun k => is_Some (vars s0 !! k)) varNames /\
  Forall (fun item => Forall (known (vars s0) (props item)) varNames) (table s0).
Proof.
  unfold sort. rewrite <- computeFactors_ok_iff.
  destruct (computeFactors (vars s0) varNames) as [[fs factor]|e] eqn:Hf.
  - pose proof (computeFactors_length _ _ _ _ Hf) as Hlen.
    assert (Hrows : Forall (fun item => Forall (known (vars s0) (props item)) varNames)
                      (table s0)
                    <-> exists r, index_rows (vars s0) varNames fs (table s0)
                                    (replicate factor None) = Ok r).
    { rewrite index_rows_ok_iff. apply Forall_proper; [|reflexivity].
      intros item. symmetry. now apply getIndex_from_ok_iff. }
    rewrite Hrows.
    destruct (index_rows (vars s0) varNames fs (table s0) _) as [[rows im]|e].
    + split; [intros _; split; eauto | eauto].
    + split; [intros [s Hs]; discriminate Hs|]. intros (_ & r & Hr). discriminate Hr.
  - split; [intros [s Hs]; discriminate Hs|]. intros ([r Hr] & _). discriminate Hr.
Qed.

(** X22: after [sort(varOrder)], [find(variables)] returns (a row or
    nothing) exactly when [variables] gives every variable of [varOrder] one
    of its values; otherwise it throws. *)
Theorem find_ok_iff varOrder s0 s variables :
  sort varOrder s0 = Ok s ->
  (exists r, find s variables = Ok r) <-> Forall (known (vars s) variables) varOrder.
Proof.
  intros Hsort. unfold sort in Hsort.
  destruct (computeFactors (vars s0) varOrder) as [[fs total]|e] eqn:Hf; [|discriminate].
  destruct (index_rows (vars s0) varOrder fs (table s0) _) as [[rows im]|e] eqn:Hr;
    [|discriminate].
  injection Hsort as <-. unfold find, getIndex. simpl.
  rewrite <- (getIndex_from_ok_iff _ _ fs) by (eapply computeFactors_length; eauto).
  destruct (getIndex_from (vars s0) varOrder fs variables) as [i|e].
  - split; eauto.
  - split; intros [r Hr']; discriminate Hr'.
Qed.

(** What [iMap] holds at an index is a row of the table with that index,
    unless it was there before. *)
Lemma index_rows_holds vs ks fs rows im rows' im' j r :
  index_rows vs ks fs rows im = Ok (rows', im') ->
  mjoin (im' !! j) = Some r ->
  mjoin (im !! j) = Some r \/ (r ∈ rows' /\ kIndex r = Some j).
Proof.
  revert im rows' im'. induction rows as [|item rest IH]; intros im rows' im' H Hj; simpl in H.
  - injection H as <- <-. now left.
  - destruct (getIndex_from vs ks fs (props item)) as [i|e] eqn:Ei; [|discriminate].
    destruct (index_rows vs ks fs rest _) as [[rows'' im'']|e] eqn:Er; [|discriminate].
    injection H as <- <-.
    destruct (IH _ _ _ Er Hj) as [Hold | [Hin Hk]].
    + destruct (decide (i = j)) as [->|Hne].
      * rewrite array_set_eq in Hold. injection Hold as <-.
        right. split; [left | reflexivity].
      * rewrite array_set_ne in Hold by exact Hne. now left.
    + right. split; [now right | exact Hk].
Qed.

(** X23: after [sort(varOrder)], a row that [find(variables)] returns is a
    row of the table, and along [varOrder] its values are those of
    [variables]: [find] never returns a row of other coordinates. *)
Theorem find_sound varOrder s0 s variables r :
  sort varOrder s0 = Ok s ->
  find s variables = Ok (Some r) ->
  r ∈ table s /\
  coords varOrder r = map (fun k => variables !! k) varOrder.
Proof.
  intros Hsort Hfind. unfold sort in Hsort.
  destruct (computeFactors (vars s0) varOrder) as [[fs total]|e] eqn:Hf; [|discriminate].
  destruct (index_rows (vars s0) varOrder fs (table s0) _) as [[rows im]|e] eqn:Hr;
    [|discriminate].
  injection Hsort as <-. unfold find, getIndex in Hfind. simpl in *.
  destruct (getIndex_from (vars s0) varOrder fs variables) as [j|e] eqn:Hj; [|discriminate].
  injection Hfind as Hfind.
  destruct (index_rows_holds _ _ _ _ _ _ _ _ _ Hr Hfind) as [Hold | [Hin Hk]].
  { destruct (decide (j < total)%nat).
    - rewrite lookup_replicate_2 in Hold by assumption. discriminate Hold.
    - rewrite lookup_ge_None_2 in Hold by (rewrite length_replicate; lia).
      discriminate Hold. }
  split; [now rewrite sort_by_index_perm|].
  pose proof (index_rows_related _ _ _ _ _ _ _ Hr) as Hrel.
  destruct (proj1 (list_elem_of_lookup _ _) Hin) as (n & Hn).
  destruct (Forall2_lookup_r _ _ _ _ _ Hrel Hn) as (r0 & _ & (i & Hi & ->)).
  simpl in Hk. injection Hk as ->. unfold coords. simpl.
  eapply getIndex_from_inj; eauto.
Qed.

(** *** The order of the table *)

Lemma insert_sorted_Forall (P : FlattedResult -> Prop) r l :
  P r -> Forall P l -> Forall P (insert_sorted r l).
Proof. intros Hr Hl. rewrite insert_sorted_perm. now constructor. Qed.

Lemma insert_sorted_sorted r l :
  StronglySorted (fun a b => (index_of_row a <= index_of_row b)%nat) l ->
  StronglySorted (fun a b => (index_of_row a <= index_of_row b)%nat) (insert_sorted r l).
Proof.
  induction 1 as [|x l Hl IH Hx]; simpl.
  - constructor; constructor.
  - destruct (index_of_row r <=? index_of_row x)%nat eqn:E.
    + apply Nat.leb_le in E. constructor; [now constructor|].
      constructor; [exact E|]. eapply Forall_impl; [exact Hx|].
      intros y Hy. simpl in Hy. lia.
    + apply Nat.leb_gt in E. constructor; [exact IH|].
      apply insert_sorted_Forall; [lia | exact Hx].
Qed.

(** X24: after [sort], the rows of the table are in the order of their
    indices: a row never comes before a row of smaller index. *)
Theorem sort_orders_table varOrder s0 s :
  sort varOrder s0 = Ok s ->
  StronglySorted (fun a b => (index_of_row a <= index_of_row b)%nat) (table s) /\
  Forall (fun row => is_Some (kIndex row)) (table s).
Proof.
  intros Hsort. unfold sort in Hsort.
  destruct (computeFactors (vars s0) varOrder) as [[fs total]|e] eqn:Hf; [|discriminate].
  destruct (index_rows (vars s0) varOrder fs (table s0) _) as [[rows im]|e] eqn:Hr;
    [|discriminate].
  injection Hsort as <-. simpl. split.
  - unfold sort_by_index. induction rows as [|r rows IH] in |- *; simpl.
    + constructor.
    + now apply insert_sorted_sorted.
  - rewrite sort_by_index_perm.
    pose proof (index_rows_related _ _ _ _ _ _ _ Hr) as Hrel.
    apply Forall_forall. intros r' Hin.
    destruct (proj1 (list_elem_of_lookup _ _) Hin) as (n & Hn).
    destruct (Forall2_lookup_r _ _ _ _ _ Hrel Hn) as (r0 & _ & (i & _ & ->)).
    simpl. eauto.
Qed.

(** *** Groups *)

(** [x] is in the group of key [k]. *)
Definition in_group {K A} (groups : list (K * list A)) (k : K) (x : A) : Prop :=
  exists xs, (k, xs) ∈ groups /\ x ∈ xs.

Lemma add_to_group_spec {K A} `{EqDecision K} (k : K) (x : A) groups :
  NoDup (map fst groups) ->
  NoDup (map fst (add_to_group k x groups)) /\
  (forall k', k' ∈ map fst (add_to_group k x groups) <-> k' = k \/ k' ∈ map fst groups) /\
  (forall k' y, in_group (add_to_group k x groups) k' y <->
                in_group groups k' y \/ (k' = k /\ y = x)) /\
  concat (map snd (add_to_group k x groups)) ≡ₚ x :: concat (map snd groups).
Proof.
  induction groups as [|[k0 xs] groups IH]; intros Hnd; simpl.
  - split; [apply NoDup_singleton|]. split; [|split; [|reflexivity]].
    + intros k'. rewrite list_elem_of_singleton. split; [auto | intros [?|H]; [auto|inversion H]].
    + intros k' y. unfold in_group. split.
      * intros (ys & Hin & Hy). apply list_elem_of_singleton in Hin. injection Hin as -> ->.
        apply list_elem_of_singleton in Hy. auto.
      * intros [(ys & Hin & _) | [-> ->]]; [inversion Hin|].
        exists [x]. split; apply list_elem_of_singleton; reflexivity.
  - simpl in Hnd. apply NoDup_cons in Hnd as [Hk0 Hnd].
    destruct (decide (k0 = k)) as [->|Hne]; simpl.
    + split; [now constructor|]. split; [|split].
      * intros k'. rewrite elem_of_cons. tauto.
      * intros k' y. unfold in_group. split.
        -- intros (ys & Hin & Hy). apply elem_of_cons in Hin as [Hin|Hin].
           ++ injection Hin as -> ->. apply elem_of_app in Hy as [Hy|Hy].
              ** left. exists xs. split; [left | exact Hy].
              ** apply list_elem_of_singleton in Hy. auto.
           ++ left. exists ys. split; [now right | exact Hy].
        -- intros [(ys & Hin & Hy) | [-> ->]].
           ++ apply elem_of_cons in Hin as [Hin|Hin].
              ** injection Hin as -> ->. exists (xs ++ [x]).
                 split; [left | apply elem_of_app; now left].
              ** exists ys. split; [now right | exact Hy].
           ++ exists (xs ++ [x]). split; [left|]. apply elem_of_app. right.
              now apply list_elem_of_singleton.
      * rewrite <- app_assoc. simpl. rewrite <- Permutation_middle. reflexivity.
    + destruct (IH Hnd) as (Hnd' & Hkeys & Hin' & Hperm).
      split; [|split; [|split]].
      * constructor; [|exact Hnd']. rewrite Hkeys. intros [->|Hin]; [now apply Hne | contradiction].
      * intros k'. rewrite !elem_of_cons, Hkeys. tauto.
      * intros k' y. unfold in_group in *. split.
        -- intros (ys & Hin & Hy). apply elem_of_cons in Hin as [Hin|Hin].
           ++ injection Hin as -> ->. left. exists xs. split; [left | exact Hy].
           ++ destruct (proj1 (Hin' k' y) (ex_intro _ ys (conj Hin Hy)))
                as [(zs & Hz & Hyz) | Heq]; [|now right].
              left. exists zs. split; [now right | exact Hyz].
        -- intros [(ys & Hin & Hy) | Heq].
           ++ apply elem_of_cons in Hin as [Hin|Hin].
              ** injection Hin as -> ->. exists xs. split; [left | exact Hy].
              ** destruct (proj2 (Hin' k' y) (or_introl (ex_intro _ ys (conj Hin Hy))))
                   as (zs & Hz & Hyz).
                 exists zs. split; [now right | exact Hyz].
           ++ destruct (proj2 (Hin' k' y) (or_intror Heq)) as (zs & Hz & Hyz).
              exists zs. split; [now right | exact Hyz].
      * rewrite Hperm. rewrite Permutation_middle. reflexivity.
Qed.

Lemma groupBy_from_spec {K A} `{EqDecision K} (callbackFn : A -> Res K) items groups0 groups :
  groupBy_from callbackFn items groups0 = Ok groups ->
  NoDup (map fst groups0) ->
  NoDup (map fst groups) /\
  (forall k x, in_group groups k x <->
               in_group groups0 k x \/ (x ∈ items /\ callbackFn x = Ok k)) /\
  concat (map snd groups) ≡ₚ concat (map snd groups0) ++ items.
Proof.
  revert groups0. induction items as [|x items IH]; intros groups0 H Hnd; simpl in H.
  - injection H as <-. split; [exact Hnd|]. split; [|now rewrite app_nil_r].
    intros k y. split; [auto | intros [?|[Hin _]]; [auto | inversion Hin]].
  - destruct (callbackFn x) as [k|e] eqn:Ek; [|discriminate].
    destruct (add_to_group_spec k x groups0 Hnd) as (Hnd1 & _ & Hin1 & Hperm1).
    destruct (IH _ H Hnd1) as (Hnd2 & Hin2 & Hperm2).
    split; [exact Hnd2|]. split.
    + intros k' y. rewrite Hin2, Hin1, elem_of_cons. split.
      * intros [[Hg|[-> ->]]|[Hy Hk]].
        -- now left.
        -- right. split; [now left | exact Ek].
        -- right. split; [now right | exact Hk].
      * intros [Hg|[[->|Hy] Hk]].
        -- left. now left.
        -- left. right. split; [congruence | reflexivity].
        -- right. auto.
    + rewrite Hperm2, Hperm1. rewrite <- Permutation_middle. reflexivity.
Qed.

Lemma groupBy_from_ok {K A} `{EqDecision K} (callbackFn : A -> Res K) items groups0 :
  Forall (fun x => exists k, callbackFn x = Ok k) items ->
  exists groups, groupBy_from callbackFn items groups0 = Ok groups.
Proof.
  intros Hall. revert groups0. induction Hall as [|x items [k Hk] _ IH]; intros groups0; simpl.
  - eauto.
  - rewrite Hk. apply IH.
Qed.

Lemma map_eq_pointwise {A B} (f g : A -> B) l x :
  map f l = map g l -> x ∈ l -> f x = g x.
Proof.
  induction l as [|y l IH]; intros Hmap Hin; [inversion Hin|].
  simpl in Hmap. injection Hmap as Hy Hl.
  apply elem_of_cons in Hin as [->|Hin]; auto.
Qed.

(** The key of a row whose index is [i]: the index of the row with the
    value of [ignore] replaced by the first value of that variable. *)
Lemma group_key_base vs ks fs total (m : gmap string string) ignore values v0 rest i :
  computeFactors vs ks = Ok (fs, total) ->
  NoDup ks -> ignore ∈ ks ->
  vs !! ignore = Some (v0 :: rest) -> values = v0 :: rest ->
  getIndex_from vs ks fs m = Ok i ->
  exists p f d base,
    key_index ks ignore = Some p /\ fs !! p = Some f /\
    indexOf values ignore (m !! ignore) = Ok d /\
    getIndex_from vs ks fs (<[ignore := v0]> m) = Ok base /\
    i = (base + f * d)%nat.
Proof.
  intros Hf Hnd Hin Hv -> Hi.
  destruct (key_index_elem _ _ Hin) as (p & Hp & Hlt).
  destruct (lookup_lt_is_Some_2 fs p) as [f Hfp].
  { rewrite (computeFactors_length _ _ _ _ Hf). exact Hlt. }
  pose proof (computeFactors_length _ _ _ _ Hf) as Hlen.
  assert (Hknown : Forall (known vs m) ks) by (apply (getIndex_from_ok_iff vs ks fs m Hlen); eauto).
  destruct (proj1 (Forall_forall _ _) Hknown ignore Hin) as (values & x & Hvals & Hx & Hxin).
  rewrite Hv in Hvals. injection Hvals as <-.
  apply position_elem in Hxin as [d Hd].
  assert (Hbase : exists base, getIndex_from vs ks fs (<[ignore := v0]> m) = Ok base).
  { apply (getIndex_from_ok_iff vs ks fs _ Hlen). apply Forall_forall. intros k Hk.
    destruct (decide (k = ignore)) as [->|Hne].
    - exists (v0 :: rest), v0. rewrite lookup_insert_eq. repeat split; [exact Hv | left].
    - destruct (proj1 (Forall_forall _ _) Hknown k Hk) as (vals & y & ? & ? & ?).
      exists vals, y. rewrite lookup_insert_ne by congruence. auto. }
  destruct Hbase as [base Hbase].
  assert (Hp0 : position (v0 :: rest) v0 = Some 0%nat) by (simpl; now rewrite String.eqb_refl).
  pose proof (getIndex_from_axis _ _ _ _ _ _ _ _ _ _ _ _ Hnd Hv Hp Hfp Hp0 Hd Hbase) as Hmove.
  rewrite insert_id in Hmove by exact Hx. rewrite Hi in Hmove. injection Hmove as ->.
  exists p, f, d, base. repeat split; try assumption.
  unfold indexOf. rewrite Hx.
  change (Some x ≫= position (v0 :: rest)) with (position (v0 :: rest) x).
  now rewrite Hd.
Qed.

(** X25: after [sort(varOrder)] over names without repetition,
    [group(ignore)] for a name of [varOrder] returns; its groups have
    pairwise different keys and hold the rows of the table, each once; and
    two rows of the table are in one group exactly when they have the same
    value for every name of [varOrder] other than [ignore]. *)
Theorem group_by_other_variables varOrder s0 s ignore :
  sort varOrder s0 = Ok s ->
  NoDup varOrder ->
  ignore ∈ varOrder ->
  exists groups,
    group ignore s = Ok groups /\
    NoDup (map fst groups) /\
    concat (map snd groups) ≡ₚ table s /\
    forall r1 r2, r1 ∈ table s -> r2 ∈ table s ->
      ((exists k, in_group groups k r1 /\ in_group groups k r2) <->
       forall k, k ∈ varOrder -> k <> ignore -> props r1 !! k = props r2 !! k).
Proof.
  intros Hsort Hnd Hin. unfold sort in Hsort.
  destruct (computeFactors (vars s0) varOrder) as [[fs total]|e] eqn:Hf; [|discriminate].
  destruct (index_rows (vars s0) varOrder fs (table s0) _) as [[rows im]|e] eqn:Hr;
    [|discriminate].
  injection Hsort as <-. unfold group, groupBy. simpl.
  set (s := {| vars := vars s0; table := sort_by_index rows; iMap := im;
               keys := varOrder; factors := fs |}).
  pose proof (index_rows_related _ _ _ _ _ _ _ Hr) as Hrel.
  assert (Hrow : forall row, row ∈ sort_by_index rows ->
            exists i, getIndex_from (vars s0) varOrder fs (props row) = Ok i /\
                      kIndex row = Some i).
  { intros row Hrow. rewrite sort_by_index_perm in Hrow.
    destruct (proj1 (list_elem_of_lookup _ _) Hrow) as (n & Hn).
    destruct (Forall2_lookup_r _ _ _ _ _ Hrel Hn) as (r & _ & (i & Hi & ->)).
    exists i. auto. }
  pose proof (proj1 (computeFactors_ok_iff (vars s0) varOrder) ltac:(eauto)) as Hvars.
  destruct (proj1 (Forall_forall _ _) Hvars ignore Hin) as [values Hvalues].
  assert (Hkey : forall row, row ∈ sort_by_index rows ->
            exists base,
              group_key s ignore row = Ok (Some (Z.of_nat base)) /\
              exists v0, getIndex_from (vars s0) varOrder fs (<[ignore := v0]> (props row))
                         = Ok base /\ head values = Some v0).
  { intros row Hin'. destruct (Hrow row Hin') as (i & Hi & Hk).
    pose proof (computeFactors_length _ _ _ _ Hf) as Hlen.
    assert (Hknown : Forall (known (vars s0) (props row)) varOrder)
      by (apply (getIndex_from_ok_iff _ _ fs _ Hlen); eauto).
    destruct (proj1 (Forall_forall _ _) Hknown ignore Hin) as (vals & x & Hvals & _ & Hxin).
    rewrite Hvalues in Hvals. injection Hvals as <-.
    destruct values as [|v0 rest]; [inversion Hxin|].
    destruct (group_key_base _ _ _ _ _ _ _ _ _ _ Hf Hnd Hin Hvalues eq_refl Hi)
      as (p & f & d & base & Hp & Hfp & Hd & Hbase & ->).
    exists base. split; [|eauto].
    unfold group_key. simpl. rewrite Hvalues, Hd, Hk, Hp. simpl. rewrite Hfp.
    do 2 f_equal. lia. }
  destruct (groupBy_from_ok (group_key s ignore) (sort_by_index rows) [])
    as [groups Hgroups].
  { apply Forall_forall. intros row Hin'. destruct (Hkey row Hin') as (base & Hb & _). eauto. }
  exists groups. split; [exact Hgroups|].
  destruct (groupBy_from_spec _ _ _ _ Hgroups (NoDup_nil_2)) as (Hnd' & Hmem & Hperm).
  split; [exact Hnd'|]. split; [exact Hperm|].
  intros r1 r2 H1 H2.
  destruct (Hkey r1 H1) as (b1 & Hk1 & v1 & Hb1 & Hv1).
  destruct (Hkey r2 H2) as (b2 & Hk2 & v2 & Hb2 & Hv2).
  assert (v2 = v1) by congruence. subst v2.
  assert (Hin_group : forall k r, r ∈ sort_by_index rows ->
            (in_group groups k r <-> group_key s ignore r = Ok k)).
  { intros k r Hr'. rewrite Hmem. split.
    - intros [(xs & Hx & _) | [_ Hk]]; [inversion Hx | exact Hk].
    - intros Hk. right. auto. }
  split.
  - intros (k & G1 & G2).
    apply (Hin_group k r1 H1) in G1. apply (Hin_group k r2 H2) in G2.
    assert (b1 = b2) by (rewrite Hk1 in G1; rewrite Hk2 in G2; injection G1 as <-;
                         injection G2 as G2; lia).
    subst b2. intros k' Hk' Hne.
    pose proof (getIndex_from_inj _ _ _ _ _ _ _ Hf Hb1 Hb2) as Hmaps.
    pose proof (map_eq_pointwise _ _ _ k' Hmaps Hk') as Hpt. simpl in Hpt.
    now rewrite !lookup_insert_ne in Hpt by congruence.
  - intros Hagree. exists (Some (Z.of_nat b1)). split.
    + now apply Hin_group.
    + apply Hin_group; [exact H2|]. rewrite Hk2. do 3 f_equal.
      assert (Hsame : getIndex_from (vars s0) varOrder fs (<[ignore := v1]> (props r1))
                    = getIndex_from (vars s0) varOrder fs (<[ignore := v1]> (props r2))).
      { apply getIndex_from_ext. intros k' Hk'. destruct (decide (k' = ignore)) as [->|Hne].
        - now rewrite !lookup_insert_eq.
        - rewrite !lookup_insert_ne by congruence. now apply Hagree. }
      congruence.
Qed.

(** *** A concrete table: two cases under two values of a parameter *)

Definition row (nm size : string) (t : Q) : FlattedResult :=
  {| props := {[ "Name" := nm; "size" := size ]};
     metrics := {[ "time" := MNums [Num t] ]};
     kIndex := None |}.

Definition demo_summary : Summary :=
  {| vars := {[ "Name" := ["For-index"; "For-of"]; "size" := ["0"; "100"] ]};
     table := [ row "For-index" "0" 1; row "For-of" "0" 2;
                row "For-index" "100" 3; row "For-of" "100" 4 ];
     iMap := []; keys := []; factors := [] |}.

(** Sorted by name first: the index is [2 * position of Name + position of
    size], and the rows come out grouped by name. *)
Example sort_demo :
  (fun s => (map kIndex (table s), map (fun r => props r !! "size") (table s)))
    <$> (match sort ["Name"; "size"] demo_summary with Ok s => Some s | Throw _ => None end)
  = Some ([Some 0; Some 1; Some 2; Some 3]%nat,
          [Some "0"; Some "100"; Some "0"; Some "100"]).
Proof. vm_compute. reflexivity. Qed.

(** The demonstration table sorted by size first, then by name. *)
Definition sorted_demo : Summary :=
  match sort ["size"; "Name"] demo_summary with
  | Ok s => s
  | Throw _ => demo_summary
  end.

Lemma sorted_demo_ok : sort ["size"; "Name"] demo_summary = Ok sorted_demo.
Proof. vm_compute. reflexivity. Qed.

Lemma sort_find_findAll_witness :
  sort ["size"; "Name"] demo_summary = Ok sorted_demo /\
  (forall row, row ∈ table sorted_demo ->
     exists dr, digits_of (vars sorted_demo) ["size"; "Name"] (props row) = Some dr /\
       kIndex row = Some (mixed_radix dr)) /\
  (exists rows,
     table sorted_demo ≡ₚ rows /\
     Forall2 (fun r r' => props r' = props r /\ metrics r' = metrics r)
             (table demo_summary) rows /\
     forall row, row ∈ table sorted_demo ->
       exists found,
         last (filter (fun r => coords ["size"; "Name"] r = coords ["size"; "Name"] row)
                      rows) = Some found /\
         find sorted_demo (props row) = Ok (Some found)) /\
  (forall r1 r2, r1 ∈ table sorted_demo -> r2 ∈ table sorted_demo ->
     (kIndex r1 = kIndex r2 <->
      coords ["size"; "Name"] r1 = coords ["size"; "Name"] r2)) /\
  (forall row, row ∈ table sorted_demo -> find sorted_demo (props row) = Ok (Some row)) /\
  (forall variables axis values rows,
     axis ∈ ["size"; "Name"] -> vars sorted_demo !! axis = Some values -> NoDup values ->
     findAll sorted_demo variables axis = Ok rows ->
     length rows = length values /\
     forall i v, values !! i = Some v ->
       exists r, rows !! i = Some r /\
         find sorted_demo (<[axis := v]> variables) = Ok r).
Proof.
  split; [exact sorted_demo_ok|].
  destruct (sort_find_findAll ["size"; "Name"] demo_summary sorted_demo sorted_demo_ok)
    as (Hindex & Hrows & Hshare & Hfind & Hall).
  split; [exact Hindex|]. split; [exact Hrows|]. split; [exact Hshare|]. split.
  - apply Hfind. apply (bool_decide_unpack _). vm_compute. reflexivity.
  - apply Hall. apply (bool_decide_unpack _). vm_compute. reflexivity.
Defined.

(** The table of two toolchain results that name neither builder nor
    executor and hold the same case. *)
Definition twice_summary : Summary :=
  {| vars := {[ "Name" := ["For-index"] ]};
     table := [ {| props := {[ "Name" := "For-index" ]};
                   metrics := {[ "time" := MNums [Num 1%Q] ]}; kIndex := None |};
                {| props := {[ "Name" := "For-index" ]};
                   metrics := {[ "time" := MNums [Num 2%Q] ]}; kIndex := None |} ];
     iMap := []; keys := []; factors := [] |}.

(** Sorted along [Name] alone, the rows of one name share an index: [find]
    at the variables of the row of size 0 returns the row of size 100, which
    was stored last.  The same happens along all the variables when two rows
    have the same coordinates: [find] at the first returns the second. *)
Lemma find_returns_another_row :
  (exists s r other,
     sort ["Name"] demo_summary = Ok s /\
     table s !! 0%nat = Some r /\
     props r !! "size" = Some "0" /\
     find s (props r) = Ok (Some other) /\
     props other !! "size" = Some "100") /\
  (exists s r other,
     sort ["Name"] twice_summary = Ok s /\
     table s !! 0%nat = Some r /\
     metrics r !! "time" = Some (MNums [Num 1%Q]) /\
     find s (props r) = Ok (Some other) /\
     metrics other !! "time" = Some (MNums [Num 2%Q])).
Proof.
  split; do 3 eexists; repeat split; vm_compute; reflexivity.
Qed.

Definition two_names : Summary :=
  {| vars := {[ "Name" := ["For-index"; "For-of"] ]};
     table := [ {| props := {[ "Name" := "For-index" ]};
                   metrics := {[ "time" := MNums [Num 1%Q] ]}; kIndex := None |};
                {| props := {[ "Name" := "For-of" ]};
                   metrics := {[ "time" := MNums [Num 2%Q] ]}; kIndex := None |} ];
     iMap := []; keys := []; factors := [] |}.

(** What [findAll] needs of [varOrder].  With the variable [Name] twice in
    it the rows have the indices 0 and 3, and [findAll] along [Name] reads
    [iMap] at 0 and 2: it misses the row that [find] returns for the second
    name.  With an axis that is not in [varOrder] the factor is undefined
    and every element of the result is undefined. *)
Example findAll_axis_of_varOrder :
  (exists s first second,
     sort ["Name"; "Name"] two_names = Ok s /\
     findAll s {[ "Name" := "For-index" ]} "Name" = Ok [Some first; None] /\
     find s {[ "Name" := "For-of" ]} = Ok (Some second)) /\
  (exists s,
     sort ["Name"] demo_summary = Ok s /\
     findAll s {[ "Name" := "For-index"; "size" := "0" ]} "size" = Ok [None; None]).
Proof.
  split; [do 3 eexists | eexists]; repeat split; vm_compute; reflexivity.
Qed.

(** [sort] throws on a name that is not a variable, and on a table with a
    row that has no value for a name. *)
Example sort_unknown_name :
  sort ["size"; "Builder"] demo_summary = Throw (not_in_variables "Builder") /\
  sort ["size"] twice_summary = Throw (not_in_variables "size").
Proof. split; vm_compute; reflexivity. Qed.

Definition for_of_100 : gmap string string :=
  {[ "Name" := "For-of"; "size" := "100"; "Executor" := "node" ]}.

Lemma find_ok_iff_witness :
  exists s,
    sort ["size"; "Name"] demo_summary = Ok s /\
    ((exists r, find s for_of_100 = Ok r) <->
     Forall (known (vars s) for_of_100) ["size"; "Name"]).
Proof.
  eexists. split; [vm_compute; reflexivity|].
  eapply (find_ok_iff ["size"; "Name"] demo_summary). vm_compute. reflexivity.
Defined.

(** A value that is not in the set of its variable makes [find] throw. *)
Example find_unknown_value :
  (fun s => find s {[ "Name" := "For-of"; "size" := "7" ]})
    <$> (match sort ["size"; "Name"] demo_summary with Ok s => Some s | Throw _ => None end)
  = Some (Throw (value_not_in_variables "size" (Some "7"))).
Proof. vm_compute. reflexivity. Qed.

Lemma find_sound_witness :
  exists s r,
    sort ["size"; "Name"] demo_summary = Ok s /\
    find s for_of_100 = Ok (Some r) /\
    metrics r !! "time" = Some (MNums [Num 4%Q]) /\
    r ∈ table s /\
    coords ["size"; "Name"] r = map (fun k => for_of_100 !! k) ["size"; "Name"].
Proof.
  do 2 eexists. split; [vm_compute; reflexivity|].
  split; [vm_compute; reflexivity|]. split; [vm_compute; reflexivity|].
  eapply (find_sound ["size"; "Name"] demo_summary); vm_compute; reflexivity.
Defined.

Lemma sort_orders_table_witness :
  exists s,
    sort ["Name"; "size"] demo_summary = Ok s /\
    StronglySorted (fun a b => (index_of_row a <= index_of_row b)%nat) (table s) /\
    Forall (fun row => is_Some (kIndex row)) (table s).
Proof.
  eexists. split; [vm_compute; reflexivity|].
  eapply (sort_orders_table ["Name"; "size"] demo_summary). vm_compute. reflexivity.
Defined.

Lemma group_by_other_variables_witness :
  exists s,
    sort ["size"; "Name"] demo_summary = Ok s /\
    exists groups,
      group "Name" s = Ok groups /\
      NoDup (map fst groups) /\
      concat (map snd groups) ≡ₚ table s /\
      forall r1 r2, r1 ∈ table s -> r2 ∈ table s ->
        ((exists k, in_group groups k r1 /\ in_group groups k r2) <->
         forall k, k ∈ ["size"; "Name"] -> k <> "Name" -> props r1 !! k = props r2 !! k).
Proof.
  eexists. split; [vm_compute; reflexivity|].
  eapply (group_by_other_variables ["size"; "Name"] demo_summary).
  - vm_compute. reflexivity.
  - apply (bool_decide_unpack _). vm_compute. reflexivity.
  - apply (bool_decide_unpack _). vm_compute. reflexivity.
Defined.

(** Grouped by all variables but [Name], the table falls into one group
    for each size, of two rows each. *)
Example group_demo :
  (fun s => (fun g => (fst g, map (fun r => props r !! "Name") (snd g)))
              <$> (match group "Name" s with Ok g => g | Throw _ => [] end))
    <$> (match sort ["size"; "Name"] demo_summary with Ok s => Some s | Throw _ => None end)
  = Some [ (Some 0, [Some "For-index"; Some "For-of"]);
           (Some 2, [Some "For-index"; Some "For-of"]) ].
Proof. vm_compute. reflexivity. Qed.

End Summary.

(** ** The host configuration

    Source: [normalizeConfig] of the host configuration file.  A property
    that the user left out is [None]; builders, executors and reporters are
    values of the tool files, which are not among the sources. *)

Module Config.

(** A property of an options object: left out, present with the value
    [undefined], or present with a value.  The three differ under the
    object spread, which copies a property that is present, also when its
    value is [undefined]. *)
Inductive Property (A : Type) : Type :=
| Absent
| Undefined
| Given (a : A).
Arguments Absent {A}.
Arguments Undefined {A}.
Arguments Given {A} a.

(** [({ key: d, ...options }).key]: [None] is [undefined]. *)
Definition spread {A} (d : A) (p : Property A) : option A :=
  match p with
  | Absent => Some d
  | Undefined => None
  | Given a => Some a
  end.

(** [options.key]: [None] is [undefined]. *)
Definition read {A} (p : Property A) : option A :=
  match p with
  | Given a => Some a
  | _ => None
  end.

(** The [TypeError] of a method call on [undefined]; the classes of the
    built-in errors are not told apart. *)
Definition cannot_read (method : string) : JsError :=
  Error ("Cannot read properties of undefined (reading '" +:+ method +:+ "')").

Section Normalize.
Context {Builder Executor Reporter LogLevel : Type}.

(** [noBuild], [inProcess], [rawReporter(path)], [textReporter()] and the
    log level ["debug"]. *)
Variable noBuild : Builder.
Variable inProcess : Executor.
Variable rawReporter : string -> Reporter.
Variable textReporter : Reporter.
Variable debug : LogLevel.

(** [ToolchainOptions]; a falsy entry of [builders] or [executors] is
    [None]. *)
Record ToolchainOptions : Type := {
  include : Property (list string);
  exclude : Property (list string);
  builders : Property (list (option Builder));
  executors : Property (list (option Executor));
}.

Record ESBenchConfig : Type := {
  toolchains : Property (list ToolchainOptions);
  tempDir : Property string;
  logLevel : Property LogLevel;
  cleanTempDir : Property bool;
  diff : Property (option string);
  reporters : Property (list Reporter);
}.

(** A toolchain of the configuration that is returned; [None] is a property
    that reads [undefined]. *)
Record ToolChainItem : Type := {
  item_include : option (list string);
  item_exclude : option (list string);
  item_builders : list Builder;
  item_executors : list Executor;
}.

(** The configuration that is returned.  Its type says that every property
    is defined; a property that the input gives as [undefined] is
    [undefined] in it nevertheless. *)
Record NormalizedConfig : Type := {
  norm_toolchains : list ToolChainItem;
  norm_tempDir : option string;
  norm_logLevel : option LogLevel;
  norm_cleanTempDir : option bool;
  norm_diff : option (option string);
  norm_reporters : option (list Reporter);
}.

(** The toolchain [{}]. *)
Definition no_options : ToolchainOptions :=
  {| include := Absent; exclude := Absent; builders := Absent; executors := Absent |}.

(** [array.filter(Boolean)]. *)
Definition truthy {A} (l : list (option A)) : list A := omap (fun x => x) l.

(** The body of the loop of [normalizeConfig] for one toolchain: the
    defaults under the spread of the options, the removal of falsy tools
    ([toolchain.builders!.filter(Boolean)] throws when [builders] was given
    as [undefined], and so for [executors]), and the three tests; the test
    [toolchain.include?.length === 0] lets an [undefined] pass. *)
Definition normalizeToolchain (toolchain : ToolchainOptions) : Res ToolChainItem :=
  let include := spread ["./benchmark/**/*.[jt]s?(x)"] (include toolchain) in
  match spread [Some noBuild] (builders toolchain) with
  | None => Throw (cannot_read "filter")
  | Some bs =>
      let builders := truthy bs in
      match spread [Some inProcess] (executors toolchain) with
      | None => Throw (cannot_read "filter")
      | Some xs =>
          let executors := truthy xs in
          if (length builders =? 0)%nat then Throw (Error "No builders.")
          else if (length executors =? 0)%nat then Throw (Error "No executors.")
          else if match include with
                  | Some patterns => (length patterns =? 0)%nat
                  | None => false
                  end
               then Throw (Error "No included files.")
          else Ok {| item_include := include; item_exclude := read (exclude toolchain);
                     item_builders := builders; item_executors := executors |}
      end
  end.

(** The loop over the toolchains; the first failing test ends it. *)
Fixpoint normalizeToolchains (l : list ToolchainOptions) : Res (list ToolChainItem) :=
  match l with
  | [] => Ok []
  | toolchain :: rest =>
      match normalizeToolchain toolchain with
      | Throw e => Throw e
      | Ok item =>
          match normalizeToolchains rest with
          | Throw e => Throw e
          | Ok items => Ok (item :: items)
          end
      end
  end.

Definition defaultDiff : string := "node_modules/.esbench/result.json".

(** [input.toolchains ?? [{}]]. *)
Definition toolchains_of (input : ESBenchConfig) : list ToolchainOptions :=
  default [no_options] (read (toolchains input)).

Definition normalizeConfig (input : ESBenchConfig) : Res NormalizedConfig :=
  match toolchains input with
  | Given [] => Throw (Error "No toolchains.")
  | _ =>
      match normalizeToolchains (toolchains_of input) with
      | Throw e => Throw e
      | Ok items =>
          Ok {| norm_toolchains := items;
                norm_tempDir := spread ".esbench-tmp" (tempDir input);
                norm_logLevel := spread debug (logLevel input);
                norm_cleanTempDir := spread true (cleanTempDir input);
                norm_diff := spread (Some defaultDiff) (diff input);
                norm_reporters :=
                  spread [rawReporter defaultDiff; textReporter] (reporters input) |}
      end
  end.

(** A toolchain with tools: it has a builder and an executor, and its list
    of patterns is not empty. *)
Definition equipped (item : ToolChainItem) : Prop :=
  item_builders item <> [] /\ item_executors item <> [] /\ item_include item <> Some [].

(** What [normalizeToolchain] makes of the options of one toolchain. *)
Definition normalized_from (toolchain : ToolchainOptions) (item : ToolChainItem) : Prop :=
  item_include item = spread ["./benchmark/**/*.[jt]s?(x)"] (include toolchain) /\
  item_exclude item = read (exclude toolchain) /\
  Some (item_builders item)
    = truthy <$> spread [Some noBuild] (builders toolchain) /\
  Some (item_executors item)
    = truthy <$> spread [Some inProcess] (executors toolchain).

(** A toolchain that can run: it has a builder, an executor and a pattern
    of files. *)
Definition runnable (item : ToolChainItem) : Prop :=
  item_builders item <> [] /\ item_executors item <> [] /\
  exists patterns, item_include item = Some patterns /\ patterns <> [].

Lemma normalizeToolchain_ok toolchain item :
  normalizeToolchain toolchain = Ok item ->
  equipped item /\ normalized_from toolchain item /\
  (include toolchain <> Undefined -> runnable item).
Proof.
  unfold normalizeToolchain.
  destruct (spread [Some noBuild] (builders toolchain)) as [bs|] eqn:Eb; [|discriminate].
  destruct (spread [Some inProcess] (executors toolchain)) as [xs|] eqn:Ex; [|discriminate].
  destruct (truthy bs) as [|b bs'] eqn:Etb; [discriminate|].
  destruct (truthy xs) as [|x xs'] eqn:Etx; [discriminate|].
  simpl.
  destruct (spread ["./benchmark/**/*.[jt]s?(x)"] (include toolchain))
    as [[|i rest]|] eqn:Ei; [discriminate| |];
    intros H; injection H as <-; unfold equipped, normalized_from, runnable; simpl;
    rewrite Eb, Ex, Ei; simpl; rewrite Etb, Etx.
  - split; [repeat split; discriminate|]. split; [repeat split|].
    intros _. split; [discriminate|]. split; [discriminate|].
    eexists. split; [reflexivity | discriminate].
  - split; [repeat split; discriminate|]. split; [repeat split|].
    intros Hdef. destruct (include toolchain); [discriminate | contradiction | discriminate].
Qed.

Lemma normalizeToolchains_ok l items :
  normalizeToolchains l = Ok items ->
  Forall2 normalized_from l items /\ Forall equipped items /\
  Forall2 (fun toolchain item => include toolchain <> Undefined -> runnable item) l items.
Proof.
  revert items. induction l as [|t l IH]; intros items H; simpl in H.
  - injection H as <-. repeat split; constructor.
  - destruct (normalizeToolchain t) as [item|e] eqn:Et; [|discriminate].
    destruct (normalizeToolchains l) as [items'|e] eqn:El; [|discriminate].
    injection H as <-. apply normalizeToolchain_ok in Et as (He & Hn & Hr).
    destruct (IH _ eq_refl) as (Hall & Heq & Hrun). repeat split; now constructor.
Qed.

(** X26: a configuration that [normalizeConfig] returns has at least one
    toolchain, one for each toolchain of the input in order (one with the
    defaults when the input names none); each has at least one builder and
    at least one executor, with the falsy tools removed and the defaults in
    place of what was left out, and neither [builders] nor [executors] was
    given as [undefined]; its list of patterns is never empty, and it has at
    least one pattern unless the input gives [include] as [undefined], which
    the returned toolchain then keeps. *)
Theorem normalizeConfig_runnable input config :
  normalizeConfig input = Ok config ->
  norm_toolchains config <> [] /\
  Forall equipped (norm_toolchains config) /\
  Forall2 normalized_from (toolchains_of input) (norm_toolchains config) /\
  Forall2 (fun toolchain item => include toolchain <> Undefined -> runnable item)
    (toolchains_of input) (norm_toolchains config) /\
  Forall (fun toolchain => builders toolchain <> Undefined /\
                           executors toolchain <> Undefined) (toolchains_of input).
Proof.
  intros H. unfold normalizeConfig in H.
  assert (Hne : toolchains_of input <> []).
  { unfold toolchains_of. destruct (toolchains input) as [| |[|t l]]; simpl;
      discriminate. }
  assert (Hitems : exists items,
            normalizeToolchains (toolchains_of input) = Ok items /\
            norm_toolchains config = items).
  { destruct (toolchains input) as [| |[|t l]]; [| |discriminate|];
      destruct (normalizeToolchains _) as [items|e]; try discriminate;
      injection H as <-; eauto. }
  destruct Hitems as (items & Hitems & ->).
  apply normalizeToolchains_ok in Hitems as (Hall & Heq & Hrun).
  split; [|split; [exact Heq|split; [exact Hall|split; [exact Hrun|]]]].
  - intros ->. apply Forall2_length in Hall. simpl in Hall.
    destruct (toolchains_of input); [contradiction | discriminate].
  - clear Hne Heq Hrun H. induction Hall as [|t item l items' Hn _ IH]; constructor; [|exact IH].
    destruct Hn as (_ & _ & Hb & Hx).
    split; intros E; [rewrite E in Hb | rewrite E in Hx]; discriminate.
Qed.

End Normalize.

(** *** Concrete configurations; tools are named by strings. *)

Definition demo_normalize : @ESBenchConfig string string string string
    -> Res (@NormalizedConfig string string string string) :=
  normalizeConfig "noBuild" "inProcess" (fun path => String.append "raw:" path) "text" "debug".

Definition bare : @ESBenchConfig string string string string :=
  {| toolchains := Absent; tempDir := Absent; logLevel := Absent; cleanTempDir := Absent;
     diff := Absent; reporters := Absent |}.

Definition with_toolchain (toolchain : @ToolchainOptions string string)
    : @ESBenchConfig string string string string :=
  {| toolchains := Given [toolchain]; tempDir := Absent; logLevel := Absent;
     cleanTempDir := Absent; diff := Absent; reporters := Absent |}.

(** A toolchain whose only builder is falsy. *)
Definition no_builder : @ESBenchConfig string string string string :=
  with_toolchain {| include := Absent; exclude := Absent;
                    builders := Given [None]; executors := Absent |}.

(** The empty configuration gets one toolchain, with the defaults. *)
Example normalizeConfig_defaults :
  demo_normalize bare
  = Ok {| norm_toolchains :=
            [ {| item_include := Some ["./benchmark/**/*.[jt]s?(x)"]; item_exclude := None;
                 item_builders := ["noBuild"]; item_executors := ["inProcess"] |} ];
          norm_tempDir := Some ".esbench-tmp"; norm_logLevel := Some "debug";
          norm_cleanTempDir := Some true;
          norm_diff := Some (Some "node_modules/.esbench/result.json");
          norm_reporters := Some ["raw:node_modules/.esbench/result.json"; "text"] |}.
Proof. reflexivity. Qed.

Example normalizeConfig_errors :
  demo_normalize no_builder = Throw (Error "No builders.") /\
  demo_normalize
    {| toolchains := Given []; tempDir := Absent; logLevel := Absent;
       cleanTempDir := Absent; diff := Absent; reporters := Absent |}
    = Throw (Error "No toolchains.").
Proof. split; reflexivity. Qed.

(** Properties given as [undefined]: [include] stays [undefined] in the
    toolchain that is returned, [builders] makes the call of [filter]
    throw, and [tempDir] is [undefined] in the configuration. *)
Example normalizeConfig_undefined :
  (exists config item,
     demo_normalize (with_toolchain {| include := Undefined; exclude := Absent;
                                       builders := Absent; executors := Absent |})
       = Ok config /\
     norm_toolchains config = [item] /\ item_include item = None) /\
  demo_normalize (with_toolchain {| include := Absent; exclude := Absent;
                                    builders := Undefined; executors := Absent |})
    = Throw (Error "Cannot read properties of undefined (reading 'filter')") /\
  (exists config,
     demo_normalize {| toolchains := Undefined; tempDir := Undefined; logLevel := Absent;
                       cleanTempDir := Absent; diff := Absent; reporters := Absent |}
       = Ok config /\
     norm_tempDir config = None /\ length (norm_toolchains config) = 1%nat).
Proof.
  split; [do 2 eexists; repeat split; reflexivity|].
  split; [reflexivity|]. eexists. repeat split; reflexivity.
Qed.

Lemma normalizeConfig_runnable_witness :
  exists config,
    demo_normalize bare = Ok config /\
    norm_toolchains config <> [] /\
    Forall equipped (norm_toolchains config) /\
    Forall2 (normalized_from "noBuild" "inProcess")
      (toolchains_of bare) (norm_toolchains config) /\
    Forall2 (fun toolchain item => include toolchain <> Undefined -> runnable item)
      (toolchains_of bare) (norm_toolchains config) /\
    Forall (fun toolchain => builders toolchain <> Undefined /\
                             executors toolchain <> Undefined) (toolchains_of bare).
Proof.
  eexists. split; [reflexivity|].
  apply (normalizeConfig_runnable "noBuild" "inProcess"
           (fun path => String.append "raw:" path) "text" "debug" bare).
  reflexivity.
Defined.

End Config.
